(** * A shallow embedding of [vector.h]: [RawMemory<T>] and [Vector<T>]

    The header implements a growable array on top of a raw-storage owner.
    Its behaviour is decided by the order in which element objects are
    constructed, moved, copied and destroyed inside raw blocks, and by what
    happens when one of those operations throws.  The embedding therefore
    keeps an explicit heap of raw blocks, a store of [Vector] objects
    (so that [this != &rhs] is a comparison of addresses), a schedule of
    injected exceptions and a count of allocations.

    Conventions of the embedding:
    - every member function takes the address [this] of its object and is a
      function from states to outcomes; the statements of a body are chained
      with [x <- m ;; k] and [m ;;; k] in the order of the source;
    - a [size_t] is a [nat]: sizes and capacities count the slots of a block
      that exists in memory, so the arithmetic of the header on them
      ([size_ * 2], [++size_], [index + 1]) stays far below [2^64];
    - an operation of [T] that throws does so before it changes its operands;
    - undefined behaviour (access outside a block, use of a slot that holds
      no live object, [operator delete] on something not allocated) and a
      failed [assert] are the outcome [Fault]. *)

From stdpp Require Import gmap list.

Set Default Proof Using "Type".

(** ** The element type [T]

    The template parameter is described by the type traits the header queries
    with [if constexpr] and [noexcept(...)], by the value a moved-from object
    is left with, and by the value produced by value-initialisation.
    For [int], [moved_from] is the identity; for [std::unique_ptr] or
    [std::string] it is constant (null, empty). *)
Record ElemType (V : Type) : Type := {
  is_nothrow_move_constructible : bool;
  is_copy_constructible : bool;
  is_nothrow_move_assignable : bool;
  moved_from : V → V;
  value_init : V
}.
Arguments is_nothrow_move_constructible {V} _.
Arguments is_copy_constructible {V} _.
Arguments is_nothrow_move_assignable {V} _.
Arguments moved_from {V} _ _.
Arguments value_init {V} _.

(** ** Pointers

    A [T*] is null or points [off] slots into the raw block [l]. *)
Inductive ptr : Type :=
  | Null
  | Ptr (l : nat) (off : nat).

#[global] Instance ptr_eq_dec : EqDecision ptr.
Proof. solve_decision. Defined.

Definition ptr_add (p : ptr) (n : nat) : ptr :=
  match p with
  | Null => Null
  | Ptr l off => Ptr l (off + n)
  end.

Definition ptr_sub (p : ptr) (n : nat) : ptr :=
  match p with
  | Null => Null
  | Ptr l off => Ptr l (off - n)
  end.

(** [class RawMemory]: [T* buffer_ = nullptr; size_t capacity_ = 0;] *)
Record RawMemory : Type := {
  buffer_ : ptr;
  capacity_ : nat
}.

(** [class Vector]: [size_t size_ = 0; RawMemory<T> data_;] *)
Record Vector : Type := {
  size_ : nat;
  data_ : RawMemory
}.

(** The constructor arguments forwarded by [EmplaceBack] and [Emplace].
    [PushBack(const T&)] and [Insert(pos, const T&)] forward a const
    reference (copy constructor), the [T&&] overloads forward an rvalue
    (move constructor); any other pack runs some other constructor.  In each
    case [v] is the value of the object that gets built; the argument lives
    outside the vector's storage. *)
Inductive Args (V : Type) : Type :=
  | ConstRef (v : V)
  | Rvalue (v : V)
  | Pack (v : V).
Arguments ConstRef {V} v.
Arguments Rvalue {V} v.
Arguments Pack {V} v.

Definition args_value {V} (a : Args V) : V :=
  match a with ConstRef v | Rvalue v | Pack v => v end.

Section state.
Context {V : Type}.

(** ** Program state

    [heap] maps the address of every allocated raw block to its slots: a slot
    is [None] while it is raw memory and [Some v] while it holds a live [T]
    of value [v].  [vecs] maps addresses to the [Vector] objects that exist.
    [faults] is the schedule of injected exceptions: every operation that is
    allowed to throw consumes the head of the list and throws when it is
    [true]; an exhausted schedule never throws.  [allocs] counts the calls of
    [operator new] that returned memory. *)
Record State : Type := mkState {
  vecs : gmap nat Vector;
  heap : gmap nat (list (option V));
  faults : list bool;
  allocs : nat
}.

Definition set_vecs (f : gmap nat Vector → gmap nat Vector) (st : State) : State :=
  mkState (f (vecs st)) (heap st) (faults st) (allocs st).
Definition set_heap (f : gmap nat (list (option V)) → gmap nat (list (option V)))
    (st : State) : State :=
  mkState (vecs st) (f (heap st)) (faults st) (allocs st).
Definition set_faults (fs : list bool) (st : State) : State :=
  mkState (vecs st) (heap st) fs (allocs st).

(** An operation returns normally, leaves by an exception, or is a fault:
    undefined behaviour or a failed [assert]. *)
Inductive outcome (A : Type) : Type :=
  | Ok (a : A) (st : State)
  | Threw (st : State)
  | Fault.

End state.
Arguments Ok {V A} a st.
Arguments Threw {V A} st.
Arguments Fault {V A}.

(** ** The monad of operations *)
Section monad.
Context {V : Type}.

Definition M (A : Type) : Type := State (V:=V) → outcome (V:=V) A.

Definition ret {A} (a : A) : M A := fun st => Ok a st.

Definition bind {A B} (m : M A) (f : A → M B) : M B := fun st =>
  match m st with
  | Ok a st' => f a st'
  | Threw st' => Threw st'
  | Fault => Fault
  end.

Definition fault {A} : M A := fun _ => Fault.

(** Stack unwinding and [catch (...) { cleanup; throw; }]: when [body]
    leaves by an exception, [cleanup] runs and the exception propagates.
    The cleanups of the header are destructors and [std::destroy_n], which
    do not throw. *)
Definition unwinding {A} (cleanup : M unit) (body : M A) : M A := fun st =>
  match body st with
  | Ok a st' => Ok a st'
  | Threw st' =>
      match cleanup st' with
      | Ok _ st'' => Threw st''
      | _ => Fault
      end
  | Fault => Fault
  end.

Definition assert (b : bool) : M unit := if b then ret tt else fault.

(** A point where an exception may be raised. *)
Definition may_throw : M unit := fun st =>
  match faults st with
  | [] => Ok tt st
  | false :: fs => Ok tt (set_faults fs st)
  | true :: fs => Threw (set_faults fs st)
  end.

Definition may_throw_unless (nothrow : bool) : M unit :=
  if nothrow then ret tt else may_throw.

End monad.

Notation "x <- m ;; k" := (bind m (fun x => k))
  (at level 100, m at next level, right associativity).
Notation "m ;;; k" := (bind m (fun _ => k))
  (at level 100, right associativity).

Section vector.
Context {V : Type} (T : ElemType V).
#[local] Abbreviation M := (M (V:=V)).

(** ** Slots *)

(** Reading the object a pointer refers to; it has to be live. *)
Definition load (p : ptr) : M V := fun st =>
  match p with
  | Null => Fault
  | Ptr l off =>
      match heap st !! l with
      | Some b =>
          match b !! off with
          | Some (Some v) => Ok v st
          | _ => Fault
          end
      | None => Fault
      end
  end.

(** Overwriting a slot inside an allocated block. *)
Definition store (p : ptr) (s : option V) : M unit := fun st =>
  match p with
  | Null => Fault
  | Ptr l off =>
      match heap st !! l with
      | Some b =>
          if decide (off < length b)
          then Ok tt (set_heap (insert l (<[off:=s]> b)) st)
          else Fault
      | None => Fault
      end
  end.

(** [std::destroy_at(p)]: ends the lifetime of a live object. *)
Definition destroy_at (p : ptr) : M unit :=
  _ <- load p ;; store p None.

(** [new (dst) T(src)] with [const T& src]. *)
Definition copy_construct (dst src : ptr) : M unit :=
  v <- load src ;; may_throw ;;; store dst (Some v).

(** [new (dst) T(std::move(src))]. *)
Definition move_construct (dst src : ptr) : M unit :=
  v <- load src ;;
  may_throw_unless (is_nothrow_move_constructible T) ;;;
  store dst (Some v) ;;;
  store src (Some (moved_from T v)).

(** [dst->operator=(src)] with [const T& src]. *)
Definition copy_assign (dst src : ptr) : M unit :=
  v <- load src ;; _ <- load dst ;; may_throw ;;; store dst (Some v).

(** [dst->operator=(std::move(src))]. *)
Definition move_assign (dst src : ptr) : M unit :=
  v <- load src ;; _ <- load dst ;;
  may_throw_unless (is_nothrow_move_assignable T) ;;;
  store dst (Some v) ;;;
  store src (Some (moved_from T v)).

(** [new (dst) T()]. *)
Definition value_construct (dst : ptr) : M unit :=
  may_throw ;;; store dst (Some (value_init T)).

(** [new (dst) T(std::forward<Args>(args)...)]. *)
Definition construct (dst : ptr) (a : Args V) : M unit :=
  match a with
  | ConstRef v | Pack v => may_throw ;;; store dst (Some v)
  | Rvalue v =>
      may_throw_unless (is_nothrow_move_constructible T) ;;; store dst (Some v)
  end.

(** [last - first] for two pointers into one array. *)
Definition ptr_diff (last first : ptr) : M nat :=
  match last, first with
  | Null, Null => ret 0
  | Ptr l a, Ptr l' b =>
      if decide (l = l' ∧ b ≤ a) then ret (a - b) else fault
  | _, _ => fault
  end.

(** ** The standard algorithms the header calls *)

Fixpoint destroy_n (first : ptr) (n : nat) : M unit :=
  match n with
  | 0 => ret tt
  | S k => destroy_at first ;;; destroy_n (ptr_add first 1) k
  end.

(** The [uninitialized_*] algorithms destroy what they have constructed when
    an element constructor throws, and rethrow. *)
Fixpoint uninitialized_copy_n (first : ptr) (n : nat) (d_first : ptr) : M unit :=
  match n with
  | 0 => ret tt
  | S k =>
      copy_construct d_first first ;;;
      unwinding (destroy_at d_first)
        (uninitialized_copy_n (ptr_add first 1) k (ptr_add d_first 1))
  end.

Fixpoint uninitialized_move_n (first : ptr) (n : nat) (d_first : ptr) : M unit :=
  match n with
  | 0 => ret tt
  | S k =>
      move_construct d_first first ;;;
      unwinding (destroy_at d_first)
        (uninitialized_move_n (ptr_add first 1) k (ptr_add d_first 1))
  end.

Fixpoint uninitialized_value_construct_n (first : ptr) (n : nat) : M unit :=
  match n with
  | 0 => ret tt
  | S k =>
      value_construct first ;;;
      unwinding (destroy_at first)
        (uninitialized_value_construct_n (ptr_add first 1) k)
  end.

Fixpoint copy_loop (first : ptr) (n : nat) (d_first : ptr) : M unit :=
  match n with
  | 0 => ret tt
  | S k =>
      copy_assign d_first first ;;;
      copy_loop (ptr_add first 1) k (ptr_add d_first 1)
  end.

(** [std::copy(first, last, d_first)] *)
Definition std_copy (first last d_first : ptr) : M unit :=
  n <- ptr_diff last first ;; copy_loop first n d_first.

Fixpoint move_loop (first : ptr) (n : nat) (d_first : ptr) : M unit :=
  match n with
  | 0 => ret tt
  | S k =>
      move_assign d_first first ;;;
      move_loop (ptr_add first 1) k (ptr_add d_first 1)
  end.

(** [std::move(first, last, d_first)] *)
Definition std_move (first last d_first : ptr) : M unit :=
  n <- ptr_diff last first ;; move_loop first n d_first.

Fixpoint move_backward_loop (last : ptr) (n : nat) (d_last : ptr) : M unit :=
  match n with
  | 0 => ret tt
  | S k =>
      move_assign (ptr_sub d_last 1) (ptr_sub last 1) ;;;
      move_backward_loop (ptr_sub last 1) k (ptr_sub d_last 1)
  end.

(** [std::move_backward(first, last, d_last)] *)
Definition std_move_backward (first last d_last : ptr) : M unit :=
  n <- ptr_diff last first ;; move_backward_loop last n d_last.

(** ** [RawMemory] *)

(** [Allocate(n)]: [n != 0 ? operator new(n * sizeof(T)) : nullptr]. *)
Definition Allocate (n : nat) : M ptr :=
  match n with
  | 0 => ret Null
  | S _ =>
      may_throw ;;;
      fun st =>
        let l := fresh (dom (heap st)) in
        Ok (Ptr l 0)
           (mkState (vecs st) (<[l:=replicate n None]> (heap st))
                    (faults st) (S (allocs st)))
  end.

(** [Deallocate(buf)]: [operator delete(buf)]. *)
Definition Deallocate (buf : ptr) : M unit :=
  match buf with
  | Null => ret tt
  | Ptr l 0 => fun st =>
      match heap st !! l with
      | Some _ => Ok tt (set_heap (delete l) st)
      | None => Fault
      end
  | Ptr _ (S _) => fault
  end.

(** [explicit RawMemory(size_t capacity)] *)
Definition RawMemory_new (capacity : nat) : M RawMemory :=
  buf <- Allocate capacity ;;
  ret {| buffer_ := buf; capacity_ := capacity |}.

(** [~RawMemory()] *)
Definition RawMemory_delete (r : RawMemory) : M unit :=
  Deallocate (buffer_ r).

Definition GetAddress (r : RawMemory) : ptr := buffer_ r.

Definition RawMemory_Capacity (r : RawMemory) : nat := capacity_ r.

(** [operator+(size_t offset)]: [assert(offset <= capacity_)]. *)
Definition RawMemory_plus (r : RawMemory) (offset : nat) : M ptr :=
  assert (bool_decide (offset ≤ capacity_ r)) ;;;
  ret (ptr_add (buffer_ r) offset).

(** [operator[](size_t index)]: [assert(index < capacity_)]. *)
Definition RawMemory_index (r : RawMemory) (index : nat) : M ptr :=
  assert (bool_decide (index < capacity_ r)) ;;;
  ret (ptr_add (buffer_ r) index).

(** [RawMemory(RawMemory&& other) noexcept], with the member initialisers
    [buffer_(std::move(other.buffer_))] and
    [capacity_(std::move(other.capacity_))]: [std::move] of a pointer or of a
    [size_t] copies it, and [other] keeps both members.  The result is the
    new object and [other] after the call. *)
Definition RawMemory_move (other : RawMemory) : RawMemory * RawMemory :=
  ({| buffer_ := buffer_ other; capacity_ := capacity_ other |}, other).

(** [operator=(RawMemory&& rhs) noexcept]:
    [buffer_ = std::move(rhs.buffer_); capacity_ = std::move(rhs.capacity_);].
    The result is the target and [rhs] after the call; the block the target
    had is not deallocated. *)
Definition RawMemory_assign_move (this rhs : RawMemory) : RawMemory * RawMemory :=
  ({| buffer_ := buffer_ rhs; capacity_ := capacity_ rhs |}, rhs).

(** ** [Vector] *)

Definition get_vec (this : nat) : M Vector := fun st =>
  match vecs st !! this with
  | Some v => Ok v st
  | None => Fault
  end.

Definition put_vec (this : nat) (v : Vector) : M unit := fun st =>
  Ok tt (set_vecs (insert this v) st).

Definition set_size (this : nat) (n : nat) : M unit :=
  v <- get_vec this ;; put_vec this {| size_ := n; data_ := data_ v |}.

Definition set_data (this : nat) (r : RawMemory) : M unit :=
  v <- get_vec this ;; put_vec this {| size_ := size_ v; data_ := r |}.

Definition begin (this : nat) : M ptr :=
  v <- get_vec this ;; ret (GetAddress (data_ v)).

Definition end_ (this : nat) : M ptr :=
  v <- get_vec this ;; ret (ptr_add (GetAddress (data_ v)) (size_ v)).

(** [cbegin() const { return begin(); }] and [cend() const { return end(); }];
    the [const] overloads of [begin] and [end] return the same addresses. *)
Definition cbegin (this : nat) : M ptr := begin this.

Definition cend (this : nat) : M ptr := end_ this.

Definition Size (this : nat) : M nat :=
  v <- get_vec this ;; ret (size_ v).

Definition Capacity (this : nat) : M nat :=
  v <- get_vec this ;; ret (RawMemory_Capacity (data_ v)).

(** [operator[](size_t index)]: [assert(index < size_); return data_[index];] *)
Definition operator_index (this : nat) (index : nat) : M ptr :=
  v <- get_vec this ;;
  assert (bool_decide (index < size_ v)) ;;;
  RawMemory_index (data_ v) index.

(** [Swap(Vector& other)]: [data_.Swap(other.data_); std::swap(size_, other.size_);] *)
Definition Swap (this other : nat) : M unit :=
  a <- get_vec this ;; b <- get_vec other ;;
  set_data this (data_ b) ;;; set_data other (data_ a) ;;;
  a <- get_vec this ;; b <- get_vec other ;;
  set_size this (size_ b) ;;; set_size other (size_ a).

(** [Vector() = default] *)
Definition Vector_default (this : nat) : M unit :=
  put_vec this {| size_ := 0; data_ := {| buffer_ := Null; capacity_ := 0 |} |}.

(** [explicit Vector(size_t size)] *)
Definition Vector_sized (this : nat) (size : nat) : M unit :=
  data <- RawMemory_new size ;;
  unwinding (RawMemory_delete data)
    (uninitialized_value_construct_n (GetAddress data) size) ;;;
  put_vec this {| size_ := size; data_ := data |}.

(** [Vector(const Vector& other)] *)
Definition Vector_copy (this other : nat) : M unit :=
  o <- get_vec other ;;
  data <- RawMemory_new (size_ o) ;;
  unwinding (RawMemory_delete data)
    (uninitialized_copy_n (GetAddress (data_ o)) (size_ o) (GetAddress data)) ;;;
  put_vec this {| size_ := size_ o; data_ := data |}.

(** [Vector(Vector&& other) noexcept { Swap(other); }] *)
Definition Vector_move (this other : nat) : M unit :=
  Vector_default this ;;; Swap this other.

(** [~Vector()], followed by the destructor of the member [data_]. *)
Definition Vector_delete (this : nat) : M unit :=
  v <- get_vec this ;;
  destroy_n (GetAddress (data_ v)) (size_ v) ;;;
  RawMemory_delete (data_ v) ;;;
  fun st => Ok tt (set_vecs (delete this) st).

(** The address of a local [Vector]. *)
Definition local_vec : M nat := fun st => Ok (fresh (dom (vecs st))) st.

(** [operator=(const Vector& rhs)] *)
Definition assign_copy (this rhs : nat) : M nat :=
  if decide (this ≠ rhs) then
    r <- get_vec rhs ;; t <- get_vec this ;;
    (if decide (RawMemory_Capacity (data_ t) < size_ r) then
       rhs_copy <- local_vec ;;
       Vector_copy rhs_copy rhs ;;;
       Swap this rhs_copy ;;;
       Vector_delete rhs_copy
     else
       (if decide (size_ r < size_ t) then
          std_copy (GetAddress (data_ r)) (ptr_add (GetAddress (data_ r)) (size_ r))
                   (GetAddress (data_ t)) ;;;
          destroy_n (ptr_add (GetAddress (data_ t)) (size_ r)) (size_ t - size_ r)
        else
          std_copy (GetAddress (data_ r)) (ptr_add (GetAddress (data_ r)) (size_ t))
                   (GetAddress (data_ t)) ;;;
          uninitialized_copy_n (ptr_add (GetAddress (data_ r)) (size_ t))
                               (size_ r - size_ t)
                               (ptr_add (GetAddress (data_ t)) (size_ t))) ;;;
       set_size this (size_ r)) ;;;
    ret this
  else ret this.

(** [operator=(Vector&& rhs) noexcept] *)
Definition assign_move (this rhs : nat) : M nat :=
  if decide (this ≠ rhs) then Swap this rhs ;;; ret this else ret this.

(** [PopBack() noexcept] *)
Definition PopBack (this : nat) : M unit :=
  v <- get_vec this ;;
  if decide (0 < size_ v) then
    destroy_at (ptr_sub (ptr_add (GetAddress (data_ v)) (size_ v)) 1) ;;;
    set_size this (size_ v - 1)
  else ret tt.

(** The migration of the live elements into new storage, chosen by
    [if constexpr (std::is_nothrow_move_constructible_v<T> ||
    !std::is_copy_constructible_v<T>)].

    In the three growing functions the local [RawMemory new_data] is a
    value; [unwinding (RawMemory_delete new_data)] is its destructor on the
    exceptional exits, which all come before [data_.Swap(new_data)].  The
    swap itself is [set_data this new_data]: it leaves the old block in
    [new_data], whose destructor at the end of the scope is the final
    [RawMemory_delete (data_ v)]. *)
Definition moves_on_growth : bool :=
  is_nothrow_move_constructible T || negb (is_copy_constructible T).

(** [Reserve(size_t new_capacity)] *)
Definition Reserve (this : nat) (new_capacity : nat) : M unit :=
  v <- get_vec this ;;
  if decide (new_capacity ≤ RawMemory_Capacity (data_ v)) then ret tt
  else
    new_data <- RawMemory_new new_capacity ;;
    unwinding (RawMemory_delete new_data)
      ((if moves_on_growth
        then uninitialized_move_n (GetAddress (data_ v)) (size_ v) (GetAddress new_data)
        else uninitialized_copy_n (GetAddress (data_ v)) (size_ v) (GetAddress new_data)) ;;;
       destroy_n (GetAddress (data_ v)) (size_ v)) ;;;
    set_data this new_data ;;;
    RawMemory_delete (data_ v).

(** [Resize(size_t new_size)] *)
Definition Resize (this : nat) (new_size : nat) : M unit :=
  v <- get_vec this ;;
  if decide (new_size ≠ size_ v) then
    if decide (new_size < size_ v) then
      destroy_n (ptr_add (GetAddress (data_ v)) new_size) (size_ v - new_size) ;;;
      set_size this new_size
    else
      Reserve this new_size ;;;
      v <- get_vec this ;;
      uninitialized_value_construct_n
        (ptr_add (GetAddress (data_ v)) (size_ v)) (new_size - size_ v) ;;;
      set_size this new_size
  else ret tt.

(** [EmplaceBack(Args&&... args)] *)
Definition EmplaceBack (this : nat) (args : Args V) : M ptr :=
  v <- get_vec this ;;
  (if decide (size_ v < RawMemory_Capacity (data_ v)) then
     p <- RawMemory_plus (data_ v) (size_ v) ;;
     construct p args
   else
     new_data <- RawMemory_new (if decide (size_ v = 0) then 1 else size_ v * 2) ;;
     unwinding (RawMemory_delete new_data)
       (p <- RawMemory_plus new_data (size_ v) ;;
        construct p args ;;;
        if moves_on_growth
        then uninitialized_move_n (GetAddress (data_ v)) (size_ v) (GetAddress new_data)
        else uninitialized_copy_n (GetAddress (data_ v)) (size_ v) (GetAddress new_data)) ;;;
     destroy_n (GetAddress (data_ v)) (size_ v) ;;;
     set_data this new_data ;;;
     RawMemory_delete (data_ v)) ;;;
  v <- get_vec this ;;
  set_size this (size_ v + 1) ;;;
  v <- get_vec this ;;
  RawMemory_index (data_ v) (size_ v - 1).

(** [PushBack(const T& value)] and [PushBack(T&& value)] *)
Definition PushBack_copy (this : nat) (value : V) : M unit :=
  EmplaceBack this (ConstRef value) ;;; ret tt.

Definition PushBack_move (this : nat) (value : V) : M unit :=
  EmplaceBack this (Rvalue value) ;;; ret tt.

(** [Emplace(const_iterator pos, Args&&... args)] *)
Definition Emplace (this : nat) (pos : ptr) (args : Args V) : M ptr :=
  b <- begin this ;;
  index <- ptr_diff pos b ;;
  v <- get_vec this ;;
  result <-
    (if decide (size_ v ≠ RawMemory_Capacity (data_ v)) then
       (if decide (size_ v ≠ 0) then
          p <- RawMemory_plus (data_ v) (size_ v) ;;
          move_construct p (ptr_sub (ptr_add (GetAddress (data_ v)) (size_ v)) 1) ;;;
          unwinding (destroy_n (ptr_add (GetAddress (data_ v)) (size_ v)) 1)
            (std_move_backward (ptr_add b index)
               (ptr_add (GetAddress (data_ v)) (size_ v))
               (ptr_add (ptr_add (GetAddress (data_ v)) (size_ v)) 1)) ;;;
          destroy_at (ptr_add b index)
        else ret tt) ;;;
       p <- RawMemory_plus (data_ v) index ;;
       construct p args ;;;
       ret p
     else
       new_data <- RawMemory_new (if decide (size_ v = 0) then 1 else size_ v * 2) ;;
       result <-
         unwinding (RawMemory_delete new_data)
           (p <- RawMemory_plus new_data index ;;
            construct p args ;;;
            (if moves_on_growth then
               uninitialized_move_n (GetAddress (data_ v)) index (GetAddress new_data) ;;;
               uninitialized_move_n (ptr_add (GetAddress (data_ v)) index)
                 (size_ v - index)
                 (ptr_add (ptr_add (GetAddress new_data) index) 1)
             else
               unwinding (destroy_n (ptr_add (GetAddress new_data) index) 1)
                 (uninitialized_copy_n (GetAddress (data_ v)) index (GetAddress new_data) ;;;
                  uninitialized_copy_n (ptr_add (GetAddress (data_ v)) index)
                    (size_ v - index)
                    (ptr_add (ptr_add (GetAddress new_data) index) 1))) ;;;
            ret p) ;;
       destroy_n b (size_ v) ;;;
       set_data this new_data ;;;
       RawMemory_delete (data_ v) ;;;
       ret result) ;;
  v <- get_vec this ;;
  set_size this (size_ v + 1) ;;;
  ret result.

(** [Insert(const_iterator pos, const T& value)] and
    [Insert(const_iterator pos, T&& value)] *)
Definition Insert_copy (this : nat) (pos : ptr) (value : V) : M ptr :=
  Emplace this pos (ConstRef value).

Definition Insert_move (this : nat) (pos : ptr) (value : V) : M ptr :=
  Emplace this pos (Rvalue value).

(** [Erase(const_iterator pos)] *)
Definition Erase (this : nat) (pos : ptr) : M ptr :=
  b <- begin this ;;
  index <- ptr_diff pos b ;;
  e <- end_ this ;;
  std_move (ptr_add (ptr_add b index) 1) e (ptr_add b index) ;;;
  PopBack this ;;;
  b <- begin this ;;
  ret (ptr_add b index).

(** ** Callers *)

(** The three ways of appending one element. *)
Definition append (this : nat) (a : Args V) : M unit :=
  match a with
  | ConstRef v => PushBack_copy this v
  | Rvalue v => PushBack_move this v
  | Pack v => EmplaceBack this a ;;; ret tt
  end.

(** A caller that appends one element after the other. *)
Fixpoint append_all (this : nat) (ops : list (Args V)) : M unit :=
  match ops with
  | [] => ret tt
  | a :: ops => append this a ;;; append_all this ops
  end.

(** Reading [v[index]]. *)
Definition read (this : nat) (index : nat) : M V :=
  p <- operator_index this index ;; load p.

(** [v.Emplace(v.begin() + index, args...)] and [v.Erase(v.begin() + index)]. *)
Definition Emplace_at (this index : nat) (args : Args V) : M ptr :=
  b <- begin this ;; Emplace this (ptr_add b index) args.

Definition Erase_at (this index : nat) : M ptr :=
  b <- begin this ;; Erase this (ptr_add b index).

(** [for (auto it = first; it != first + n; ++it) { x = *it; out.push_back(x); }] *)
Fixpoint read_range (first : ptr) (n : nat) : M (list V) :=
  match n with
  | 0 => ret []
  | S k =>
      x <- load first ;;
      xs <- read_range (ptr_add first 1) k ;;
      ret (x :: xs)
  end.

(** A caller that walks the vector from [cbegin()] to [cend()] and collects
    what it reads. *)
Definition iterate (this : nat) : M (list V) :=
  b <- cbegin this ;; e <- cend this ;;
  n <- ptr_diff e b ;;
  read_range b n.

(** The public operations that change a vector, other than those that
    exchange its storage with another vector ([Swap], move assignment). *)
Inductive op : Type :=
  | OpReserve (new_capacity : nat)
  | OpResize (new_size : nat)
  | OpPushBackCopy (value : V)
  | OpPushBackMove (value : V)
  | OpEmplaceBack (args : Args V)
  | OpEmplace (pos : ptr) (args : Args V)
  | OpInsertCopy (pos : ptr) (value : V)
  | OpInsertMove (pos : ptr) (value : V)
  | OpErase (pos : ptr)
  | OpPopBack
  | OpAssignCopy (rhs : nat).

Definition run_op (this : nat) (o : op) : M unit :=
  match o with
  | OpReserve n => Reserve this n
  | OpResize n => Resize this n
  | OpPushBackCopy v => PushBack_copy this v
  | OpPushBackMove v => PushBack_move this v
  | OpEmplaceBack a => EmplaceBack this a ;;; ret tt
  | OpEmplace pos a => Emplace this pos a ;;; ret tt
  | OpInsertCopy pos v => Insert_copy this pos v ;;; ret tt
  | OpInsertMove pos v => Insert_move this pos v ;;; ret tt
  | OpErase pos => Erase this pos ;;; ret tt
  | OpPopBack => PopBack this
  | OpAssignCopy rhs => assign_copy this rhs ;;; ret tt
  end.

(** A caller that runs one operation after the other. *)
Fixpoint run_ops (this : nat) (os : list op) : M unit :=
  match os with
  | [] => ret tt
  | o :: os => run_op this o ;;; run_ops this os
  end.

(** [{ Vector<T> v; body(v); }]: a block with a local vector, whose
    destructor runs when the block is left, normally or by an exception. *)
Definition scope (body : nat → M unit) : M unit :=
  this <- local_vec ;;
  Vector_default this ;;;
  unwinding (Vector_delete this) (body this) ;;;
  Vector_delete this.

End vector.
Arguments op V : clear implicits.

Arguments ret {V A} a _ /.
Arguments fault {V A} _ /.
Arguments ptr_diff {V} last first _ : simpl never.

(** * Specification vocabulary *)
Section assertions.
Context {V : Type}.

(** [wp m st Q E]: run from [st], the operation [m] is not a fault; when it
    returns [a] in [st'] then [Q a st'], and when it throws in [st'] then
    [E st']. *)
Definition wp {A} (m : M A) (st : State (V:=V))
    (Q : A → State (V:=V) → Prop) (E : State (V:=V) → Prop) : Prop :=
  match m st with
  | Ok a st' => Q a st'
  | Threw st' => E st'
  | Fault => False
  end.

(** The slots of a block of [cap] slots whose first [length xs] slots hold
    live objects of values [xs], the rest being raw memory. *)
Definition block_of (xs : list V) (cap : nat) : list (option V) :=
  (Some <$> xs) ++ replicate (cap - length xs) None.

(** The invariant of section 3 for the vector at [this], with its storage
    pointer, element values and capacity exposed. *)
Definition owns (st : State (V:=V)) (this : nat) (p : ptr) (xs : list V)
    (cap : nat) : Prop :=
  vecs st !! this =
    Some {| size_ := length xs; data_ := {| buffer_ := p; capacity_ := cap |} |} ∧
  length xs ≤ cap ∧
  match p with
  | Null => cap = 0
  | Ptr l off => off = 0 ∧ 0 < cap ∧ heap st !! l = Some (block_of xs cap)
  end.

Definition Invariant (st : State (V:=V)) (this : nat) : Prop :=
  ∃ p xs cap, owns st this p xs cap.

(** [wlp m st Q E]: as [wp], but nothing is said when [m] is a fault. *)
Definition wlp {A} (m : M A) (st : State (V:=V))
    (Q : A → State (V:=V) → Prop) (E : State (V:=V) → Prop) : Prop :=
  match m st with
  | Ok a st' => Q a st'
  | Threw st' => E st'
  | Fault => True
  end.

(** Operations that leave every [Vector] object as it is. *)
Definition keeps_vecs {A} (m : M (V:=V) A) : Prop :=
  ∀ st, wlp m st (λ _ st', vecs st' = vecs st) (λ st', vecs st' = vecs st).

(** The vector at [this] exists and has at least capacity [c]. *)
Definition cap_ge (st : State (V:=V)) (this : nat) (c : nat) : Prop :=
  ∃ v, vecs st !! this = Some v ∧ c ≤ capacity_ (data_ v).

End assertions.

(** ** Which operations a statement is about *)
Section attempts.
Context {V : Type}.

(** [o] appends, or inserts at a position of the vector whose storage is [p]
    and whose values are [xs]. *)
Definition inserts_at (p : ptr) (xs : list V) (o : op V) : Prop :=
  match o with
  | OpPushBackCopy _ | OpPushBackMove _ | OpEmplaceBack _ => True
  | OpEmplace pos _ | OpInsertCopy pos _ | OpInsertMove pos _ =>
      ∃ index, index ≤ length xs ∧ pos = ptr_add p index
  | _ => False
  end.

(** [o] is a growth or insertion attempt with all-or-nothing behaviour:
    [Reserve], an append, or an insertion into a vector that is full or
    empty. *)
Definition all_or_nothing (p : ptr) (xs : list V) (cap : nat) (o : op V) : Prop :=
  match o with
  | OpReserve _ | OpPushBackCopy _ | OpPushBackMove _ | OpEmplaceBack _ => True
  | OpEmplace pos _ | OpInsertCopy pos _ | OpInsertMove pos _ =>
      (length xs = cap ∨ xs = []) ∧
      ∃ index, index ≤ length xs ∧ pos = ptr_add p index
  | _ => False
  end.

(** [o] gets arguments that respect its preconditions: positions inside the
    vector, and for copy assignment a source that satisfies the invariant
    with storage of its own. *)
Definition well_posed (st : State (V:=V)) (this : nat) (p : ptr) (xs : list V)
    (o : op V) : Prop :=
  match o with
  | OpEmplace pos _ | OpInsertCopy pos _ | OpInsertMove pos _ =>
      ∃ index, index ≤ length xs ∧ pos = ptr_add p index
  | OpErase pos => ∃ index, index < length xs ∧ pos = ptr_add p index
  | OpAssignCopy rhs =>
      this = rhs ∨ ∃ pb ys cb, owns st rhs pb ys cb ∧ (p = Null ∨ p ≠ pb)
  | _ => True
  end.

(** [o] inserts into a non-empty vector that has spare capacity. *)
Definition spare_insertion (xs : list V) (cap : nat) (o : op V) : Prop :=
  match o with
  | OpEmplace _ _ | OpInsertCopy _ _ | OpInsertMove _ _ => xs ≠ [] ∧ length xs < cap
  | _ => False
  end.

(** The state an operation ends in, [st] itself for a fault. *)
Definition final_state {A} (o : outcome (V:=V) A) (st : State (V:=V)) : State (V:=V) :=
  match o with
  | Ok _ st' | Threw st' => st'
  | Fault => st
  end.

(** The operations that take no position and no other vector. *)
Definition position_free (o : op V) : Prop :=
  match o with
  | OpReserve _ | OpResize _ | OpPushBackCopy _ | OpPushBackMove _
  | OpEmplaceBack _ | OpPopBack => True
  | _ => False
  end.

End attempts.

(** ** Storage accounting *)
Section storage.
Context {V : Type}.
Implicit Types (st : State (V:=V)) (hp F : gmap nat (list (option V)))
  (G : gmap nat Vector) (B L : gset nat).

(** The block a pointer points into. *)
Definition blocks (p : ptr) : gset nat :=
  match p with
  | Null => ∅
  | Ptr l _ => {[l]}
  end.

(** The heap without the block [p] points into. *)
Definition release (p : ptr) hp : gmap nat (list (option V)) :=
  match p with
  | Null => hp
  | Ptr l _ => delete l hp
  end.

(** From [st] to [st'] the vector at [this], whose storage was [p], is
    the only vector object that may have changed, and its storage block is
    the only block that may have been written, allocated or deallocated:
    apart from the one block of the vector, the heap is what it was. *)
Definition accounted st (this : nat) (p : ptr) st' : Prop :=
  (∀ k, k ≠ this → vecs st' !! k = vecs st !! k) ∧
  ∃ v', vecs st' !! this = Some v' ∧
        release (buffer_ (data_ v')) (heap st') = release p (heap st).

(** From [st] to [st'] no vector object changed, no block was allocated or
    deallocated, and only blocks in [B] were written. *)
Definition modifies B st st' : Prop :=
  vecs st' = vecs st ∧ dom (heap st') = dom (heap st) ∧
  ∀ l, l ∉ B → heap st' !! l = heap st !! l.

Definition writes B {A} (m : M (V:=V) A) : Prop :=
  ∀ st, wlp m st (λ _ st', modifies B st st') (λ st', modifies B st st').

(** The heap [hp] consists of [F] and of the blocks [L]. *)
Definition heap_is F L hp : Prop :=
  dom hp = dom F ∪ L ∧ dom F ## L ∧ ∀ l, l ∉ L → hp !! l = F !! l.

(** The vector at [this] exists, the other vector objects are those of
    [G], and the heap is [F] and the storage block of the vector. *)
Definition framed F G (this : nat) st : Prop :=
  (∀ k, k ≠ this → vecs st !! k = G !! k) ∧
  ∃ v, vecs st !! this = Some v ∧ heap_is F (blocks (buffer_ (data_ v))) (heap st).

(** The capacity [cap] that [len] appends to an empty vector lead to, and
    the number [al] of allocations, counted from [al0], that they take. *)
Definition grown (len cap al0 al : nat) : Prop :=
  (len = 0 ∧ cap = 0 ∧ al = al0) ∨
  (∃ k, cap = 2 ^ k ∧ cap < 2 * len ∧ al = al0 + S k).

(** Operations that do not leave by an exception, whatever the state. *)
Definition never_throws {A} (m : M (V:=V) A) : Prop :=
  ∀ st st', m st ≠ Threw st'.

End storage.

(** ** Element types and states used in examples *)

(** [int]: nothing throws unless the schedule says so, moving is copying. *)
Definition int_like : ElemType nat := {|
  is_nothrow_move_constructible := true;
  is_copy_constructible := true;
  is_nothrow_move_assignable := true;
  moved_from := id;
  value_init := 0
|}.

(** [std::unique_ptr<int>]: move-only, [noexcept] moves, a moved-from
    pointer is null ([None]). *)
Definition unique_ptr_like : ElemType (option nat) := {|
  is_nothrow_move_constructible := true;
  is_copy_constructible := false;
  is_nothrow_move_assignable := true;
  moved_from := λ _, None;
  value_init := None
|}.

(** A move-only type whose move operations may throw. *)
Definition throwing_move_only : ElemType (option nat) := {|
  is_nothrow_move_constructible := false;
  is_copy_constructible := false;
  is_nothrow_move_assignable := false;
  moved_from := λ _, None;
  value_init := None
|}.

(** One vector at address [0] with storage block [0]. *)
Definition one_vector {V} (xs : list V) (cap : nat) (fs : list bool) : State (V:=V) :=
  mkState
    {[ 0 := {| size_ := length xs;
               data_ := {| buffer_ := Ptr 0 0; capacity_ := cap |} |} ]}
    {[ 0 := block_of xs cap ]} fs 0.

(** Vectors at addresses [0] and [1] with storage blocks [0] and [1]. *)
Definition two_vectors {V} (xs : list V) (ca : nat) (ys : list V) (cb : nat)
    (fs : list bool) : State (V:=V) :=
  mkState
    {[ 0 := {| size_ := length xs;
               data_ := {| buffer_ := Ptr 0 0; capacity_ := ca |} |};
       1 := {| size_ := length ys;
               data_ := {| buffer_ := Ptr 1 0; capacity_ := cb |} |} ]}
    {[ 0 := block_of xs ca; 1 := block_of ys cb ]} fs 0.

(** No vector, no block, no exception scheduled. *)
Definition st_init {V} : State (V:=V) := mkState ∅ ∅ [] 0.

(** The first scenario of the specification: append 1, 2, 3; insert 99 at
    position 1; erase position 0; resize to 1; resize to 3. *)
Definition scenario : M (V:=nat) unit :=
  Vector_default 0 ;;;
  PushBack_copy int_like 0 1 ;;; PushBack_copy int_like 0 2 ;;;
  PushBack_copy int_like 0 3 ;;;
  Emplace_at int_like 0 1 (ConstRef 99) ;;;
  Erase_at int_like 0 0 ;;;
  Resize int_like 0 1 ;;;
  Resize int_like 0 3.

(** A caller that default-constructs the vector at [this] and appends. *)
Definition build {V} (T : ElemType V) (this : nat) (ops : list (Args V)) : M unit :=
  Vector_default this ;;; append_all T this ops.

(** [Vector<int> v; v.PushBack(1); v.PushBack(2); v.PushBack(3);] where the
    seventh operation that may throw, the copy constructor that [Insert]
    runs afterwards, does throw. *)
Definition st_before_throwing_insert : State (V:=nat) :=
  final_state
    (build int_like 0 [ConstRef 1; ConstRef 2; ConstRef 3]
       (mkState ∅ ∅ [false; false; false; false; false; false; true] 0))
    st_init.

(** [Vector<std::unique_ptr<int>> v] after three [PushBack]s of pointers
    to 1, 2 and 3. *)
Definition st_unique_ptrs : State (V:=option nat) :=
  final_state
    (build unique_ptr_like 0 [Rvalue (Some 1); Rvalue (Some 2); Rvalue (Some 3)] st_init)
    st_init.

(** A vector of two elements of a move-only type with throwing moves, after
    two [PushBack]s; the second move constructor that [Reserve] runs
    afterwards throws. *)
Definition st_before_throwing_reserve : State (V:=option nat) :=
  final_state
    (build throwing_move_only 0 [Rvalue (Some 1); Rvalue (Some 2)]
       (mkState ∅ ∅ [false; false; false; false; false; false; false; true] 0))
    st_init.

(** [Vector<int> a, b;] where [a] got 7, 7, 7 and [b] got 8. *)
Definition st_two_ints : State (V:=nat) :=
  final_state
    ((build int_like 0 [ConstRef 7; ConstRef 7; ConstRef 7] ;;;
      build int_like 1 [ConstRef 8]) st_init)
    st_init.

(** States for instances of the theorems. *)
Definition st_full_throwing : State (V:=nat) := one_vector [1; 2] 2 [false; true].

Definition st_full : State (V:=nat) := one_vector [1; 2] 2 [].

Definition st_three : State (V:=nat) := one_vector [1; 2; 3] 4 [].

Definition st_three_and_five : State (V:=nat) :=
  two_vectors [1; 1; 1] 3 [2; 2; 2; 2; 2] 5 [].

Definition st_empty : State (V:=nat) := one_vector [] 2 [].

Definition st_one_each : State (V:=nat) := two_vectors [7] 1 [8] 1 [].

Definition st_nothing : State (V:=nat) := st_init.

(* ================================================================== *)
(** * Proofs *)

Section logic.
Context {V : Type}.
Implicit Types (st : State (V:=V)) (hp : gmap nat (list (option V)))
  (vs : gmap nat Vector) (fs : list bool) (b pre post : list (option V)).

Lemma wp_ret {A} (a : A) st Q E : Q a st → wp (ret a) st Q E.
Proof. done. Qed.

Lemma wp_bind {A B} (m : M A) (k : A → M B) st Q E :
  wp m st (λ a st', wp (k a) st' Q E) E → wp (bind m k) st Q E.
Proof. unfold wp, bind. by destruct (m st). Qed.

Lemma wp_mono {A} (m : M A) st (Q Q' : A → State → Prop) (E E' : State → Prop) :
  wp m st Q E →
  (∀ a st', Q a st' → Q' a st') → (∀ st', E st' → E' st') →
  wp m st Q' E'.
Proof. unfold wp. destruct (m st); auto. Qed.

Lemma wp_unwinding {A} (cleanup : M unit) (body : M A) st Q E :
  wp body st Q (λ st', wp cleanup st' (λ _ st'', E st'') (λ _, False)) →
  wp (unwinding cleanup body) st Q E.
Proof.
  unfold wp, unwinding. destruct (body st) as [a st'|st'|]; [done| |done].
  by destruct (cleanup st').
Qed.

Lemma wp_assert (c : bool) st Q E : c = true → Q tt st → wp (assert c) st Q E.
Proof. by intros ->. Qed.

Lemma wp_may_throw vs hp fs al Q E :
  (∀ fs', (fs = [] → fs' = []) → Q tt (mkState vs hp fs' al)) →
  (∀ fs', fs ≠ [] → E (mkState vs hp fs' al)) →
  wp may_throw (mkState vs hp fs al) Q E.
Proof.
  intros HQ HE. unfold wp, may_throw; simpl.
  destruct fs as [|[] fs]; [by apply HQ|by apply HE|by apply HQ].
Qed.

Lemma wp_may_throw_unless (nothrow : bool) vs hp fs al Q E :
  (∀ fs', (fs = [] → fs' = []) → (nothrow = true → fs' = fs) →
          Q tt (mkState vs hp fs' al)) →
  (∀ fs', fs ≠ [] → nothrow = false → E (mkState vs hp fs' al)) →
  wp (may_throw_unless nothrow) (mkState vs hp fs al) Q E.
Proof.
  intros HQ HE. destruct nothrow; simpl.
  - by apply HQ.
  - apply wp_may_throw; intros; [apply HQ|apply HE]; done.
Qed.

Lemma wp_load vs hp fs al l off b v Q E :
  hp !! l = Some b → b !! off = Some (Some v) →
  Q v (mkState vs hp fs al) →
  wp (load (Ptr l off)) (mkState vs hp fs al) Q E.
Proof. intros Hl Hb HQ. unfold wp, load; simpl. by rewrite Hl, Hb. Qed.

Lemma wp_store vs hp fs al l off b s Q E :
  hp !! l = Some b → off < length b →
  Q tt (mkState vs (<[l:=<[off:=s]> b]> hp) fs al) →
  wp (store (Ptr l off) s) (mkState vs hp fs al) Q E.
Proof.
  intros Hl Hb HQ. unfold wp, store; simpl. rewrite Hl.
  by destruct (decide (off < length b)).
Qed.

Lemma wp_destroy_at vs hp fs al l off b v Q E :
  hp !! l = Some b → b !! off = Some (Some v) →
  Q tt (mkState vs (<[l:=<[off:=None]> b]> hp) fs al) →
  wp (destroy_at (Ptr l off)) (mkState vs hp fs al) Q E.
Proof.
  intros Hl Hb HQ. unfold destroy_at.
  apply wp_bind. eapply wp_load; [done..|].
  eapply wp_store; [done| |done]. by eapply lookup_lt_Some.
Qed.

Lemma wp_get_vec vs hp fs al this v Q E :
  vs !! this = Some v →
  Q v (mkState vs hp fs al) →
  wp (get_vec this) (mkState vs hp fs al) Q E.
Proof. intros Hv HQ. unfold wp, get_vec; simpl. by rewrite Hv. Qed.

Lemma wp_put_vec vs hp fs al this v Q E :
  Q tt (mkState (<[this:=v]> vs) hp fs al) →
  wp (put_vec this v) (mkState vs hp fs al) Q E.
Proof. done. Qed.

End logic.

(** ** Lists as blocks *)
Section blocks.
Context {A : Type}.
Implicit Types (l pre post : list A).

Lemma insert_middle pre x y post n :
  n = length pre → <[n:=y]> (pre ++ x :: post) = pre ++ y :: post.
Proof.
  intros ->. rewrite insert_app_r_alt by lia.
  by replace (length pre - length pre) with 0 by lia.
Qed.

Lemma snoc_app pre x l : (pre ++ [x]) ++ l = pre ++ x :: l.
Proof. by rewrite <- app_assoc. Qed.

End blocks.

(** ** Rules for the operations of the element type and the algorithms *)
Section rules.
Context {V : Type} (T : ElemType V).
Implicit Types (st : State (V:=V)) (hp : gmap nat (list (option V)))
  (vs : gmap nat Vector) (fs : list bool) (b pre post : list (option V))
  (xs ys : list V).

Lemma wp_destroy_n vs hp fs al l off n pre xs post Q E :
  hp !! l = Some (pre ++ (Some <$> xs) ++ post) →
  off = length pre → n = length xs →
  Q tt (mkState vs (<[l:=pre ++ replicate n None ++ post]> hp) fs al) →
  wp (destroy_n (Ptr l off) n) (mkState vs hp fs al) Q E.
Proof.
  revert hp off n pre. induction xs as [|x xs IH]; intros hp off n pre Hl -> -> HQ.
  - simpl in *. by rewrite insert_id in HQ.
  - simpl in Hl, HQ. simpl. apply wp_bind.
    eapply wp_destroy_at; [done|by apply list_lookup_middle|].
    rewrite (insert_middle pre) by done.
    eapply (IH _ _ _ (pre ++ [None])).
    + by rewrite lookup_insert_eq, snoc_app.
    + rewrite length_app; simpl; lia.
    + done.
    + by rewrite insert_insert_eq, snoc_app.
Qed.

Lemma wp_construct vs hp fs al l off b (a : Args V) Q E :
  hp !! l = Some b → off < length b →
  (∀ fs', (fs = [] → fs' = []) →
          Q tt (mkState vs (<[l:=<[off:=Some (args_value a)]> b]> hp) fs' al)) →
  (∀ fs', fs ≠ [] → E (mkState vs hp fs' al)) →
  wp (construct T (Ptr l off) a) (mkState vs hp fs al) Q E.
Proof.
  intros Hl Hb HQ HE. destruct a as [v|v|v]; simpl; apply wp_bind.
  - apply wp_may_throw; [|done]. intros fs' Hfs.
    eapply wp_store; [done..|]. by apply HQ.
  - apply wp_may_throw_unless; [|by intros; apply HE]. intros fs' Hfs _.
    eapply wp_store; [done..|]. by apply HQ.
  - apply wp_may_throw; [|done]. intros fs' Hfs.
    eapply wp_store; [done..|]. by apply HQ.
Qed.

Lemma wp_value_construct vs hp fs al l off b Q E :
  hp !! l = Some b → off < length b →
  (∀ fs', (fs = [] → fs' = []) →
          Q tt (mkState vs (<[l:=<[off:=Some (value_init T)]> b]> hp) fs' al)) →
  (∀ fs', fs ≠ [] → E (mkState vs hp fs' al)) →
  wp (value_construct T (Ptr l off)) (mkState vs hp fs al) Q E.
Proof.
  intros Hl Hb HQ HE. unfold value_construct. apply wp_bind.
  apply wp_may_throw; [|done]. intros fs' Hfs.
  eapply wp_store; [done..|]. by apply HQ.
Qed.

Lemma wp_copy_construct vs hp fs al ls so bs ld do bd v Q E :
  hp !! ls = Some bs → bs !! so = Some (Some v) →
  hp !! ld = Some bd → do < length bd →
  (∀ fs', (fs = [] → fs' = []) →
          Q tt (mkState vs (<[ld:=<[do:=Some v]> bd]> hp) fs' al)) →
  (∀ fs', fs ≠ [] → E (mkState vs hp fs' al)) →
  wp (copy_construct (Ptr ld do) (Ptr ls so)) (mkState vs hp fs al) Q E.
Proof.
  intros Hs Hv Hd Hlt HQ HE. unfold copy_construct.
  apply wp_bind. eapply wp_load; [done..|].
  apply wp_bind. apply wp_may_throw; [|done]. intros fs' Hfs.
  eapply wp_store; [done..|]. by apply HQ.
Qed.

Lemma wp_copy_assign vs hp fs al ls so bs ld do bd v w Q E :
  hp !! ls = Some bs → bs !! so = Some (Some v) →
  hp !! ld = Some bd → bd !! do = Some (Some w) →
  (∀ fs', (fs = [] → fs' = []) →
          Q tt (mkState vs (<[ld:=<[do:=Some v]> bd]> hp) fs' al)) →
  (∀ fs', fs ≠ [] → E (mkState vs hp fs' al)) →
  wp (copy_assign (Ptr ld do) (Ptr ls so)) (mkState vs hp fs al) Q E.
Proof.
  intros Hs Hv Hd Hw HQ HE. unfold copy_assign.
  apply wp_bind. eapply wp_load; [done..|].
  apply wp_bind. eapply wp_load; [done..|].
  apply wp_bind. apply wp_may_throw; [|done]. intros fs' Hfs.
  eapply wp_store; [done|by eapply lookup_lt_Some|]. by apply HQ.
Qed.

(** Move construction between two different blocks. *)
Lemma wp_move_construct vs hp fs al ls so bs ld do bd v Q E :
  ls ≠ ld →
  hp !! ls = Some bs → bs !! so = Some (Some v) →
  hp !! ld = Some bd → do < length bd →
  (∀ fs', (fs = [] → fs' = []) →
          (is_nothrow_move_constructible T = true → fs' = fs) →
          Q tt (mkState vs (<[ls:=<[so:=Some (moved_from T v)]> bs]>
                              (<[ld:=<[do:=Some v]> bd]> hp)) fs' al)) →
  (∀ fs', fs ≠ [] → is_nothrow_move_constructible T = false →
          E (mkState vs hp fs' al)) →
  wp (move_construct T (Ptr ld do) (Ptr ls so)) (mkState vs hp fs al) Q E.
Proof.
  intros Hne Hs Hv Hd Hlt HQ HE. unfold move_construct.
  apply wp_bind. eapply wp_load; [done..|].
  apply wp_bind. apply wp_may_throw_unless; [|done]. intros fs' Hfs Hnt.
  apply wp_bind. eapply wp_store; [done..|].
  eapply wp_store; [by rewrite lookup_insert_ne|by eapply lookup_lt_Some|].
  by apply HQ.
Qed.

(** Move construction and move assignment inside one block. *)
Lemma wp_move_construct_within vs hp fs al l so do b v Q E :
  hp !! l = Some b → b !! so = Some (Some v) → do < length b → so ≠ do →
  (∀ fs', (fs = [] → fs' = []) →
          (is_nothrow_move_constructible T = true → fs' = fs) →
          Q tt (mkState vs (<[l:=<[so:=Some (moved_from T v)]> (<[do:=Some v]> b)]> hp)
                        fs' al)) →
  (∀ fs', fs ≠ [] → is_nothrow_move_constructible T = false →
          E (mkState vs hp fs' al)) →
  wp (move_construct T (Ptr l do) (Ptr l so)) (mkState vs hp fs al) Q E.
Proof.
  intros Hl Hv Hlt Hne HQ HE. unfold move_construct.
  apply wp_bind. eapply wp_load; [done..|].
  apply wp_bind. apply wp_may_throw_unless; [|done]. intros fs' Hfs Hnt.
  apply wp_bind. eapply wp_store; [done..|].
  eapply wp_store; [by rewrite lookup_insert_eq| |].
  - rewrite length_insert. by eapply lookup_lt_Some.
  - rewrite insert_insert_eq. by apply HQ.
Qed.

Lemma wp_move_assign_within vs hp fs al l so do b v w Q E :
  hp !! l = Some b → b !! so = Some (Some v) → b !! do = Some (Some w) →
  (∀ fs', (fs = [] → fs' = []) →
          (is_nothrow_move_assignable T = true → fs' = fs) →
          Q tt (mkState vs (<[l:=<[so:=Some (moved_from T v)]> (<[do:=Some v]> b)]> hp)
                        fs' al)) →
  (∀ fs', fs ≠ [] → is_nothrow_move_assignable T = false →
          E (mkState vs hp fs' al)) →
  wp (move_assign T (Ptr l do) (Ptr l so)) (mkState vs hp fs al) Q E.
Proof.
  intros Hl Hv Hw HQ HE. unfold move_assign.
  apply wp_bind. eapply wp_load; [done..|].
  apply wp_bind. eapply wp_load; [done..|].
  apply wp_bind. apply wp_may_throw_unless; [|done]. intros fs' Hfs Hnt.
  apply wp_bind. eapply wp_store; [done|by eapply lookup_lt_Some|].
  eapply wp_store; [by rewrite lookup_insert_eq| |].
  - rewrite length_insert. by eapply lookup_lt_Some.
  - rewrite insert_insert_eq. by apply HQ.
Qed.

(** [uninitialized_copy_n] into raw slots of another block: it fills the
    slots, or it throws and leaves the whole heap as it was. *)
Lemma wp_uninitialized_copy_n vs hp fs al ls so ld do n spre spost dpre dpost xs Q E :
  ls ≠ ld →
  hp !! ls = Some (spre ++ (Some <$> xs) ++ spost) →
  hp !! ld = Some (dpre ++ replicate n None ++ dpost) →
  so = length spre → n = length xs → do = length dpre →
  (∀ fs', (fs = [] → fs' = []) →
          Q tt (mkState vs (<[ld:=dpre ++ (Some <$> xs) ++ dpost]> hp) fs' al)) →
  (∀ fs', fs ≠ [] → E (mkState vs hp fs' al)) →
  wp (uninitialized_copy_n (Ptr ls so) n (Ptr ld do)) (mkState vs hp fs al) Q E.
Proof.
  intros Hne. revert hp fs so do n spre dpre Q E.
  induction xs as [|x xs IH]; intros hp fs so do n spre dpre Q E Hs Hd -> -> -> HQ HE.
  - simpl in *. apply wp_ret. rewrite <- (insert_id hp ld _ Hd). by apply HQ.
  - simpl in Hs, Hd. simpl. apply wp_bind.
    eapply wp_copy_construct; [done|by apply list_lookup_middle|done| | |done].
    { eapply lookup_lt_Some. by apply list_lookup_middle. }
    intros fs1 Hfs1. rewrite (insert_middle dpre) by done.
    apply wp_unwinding.
    eapply (IH _ _ _ _ _ (spre ++ [Some x]) (dpre ++ [Some x])).
    + by rewrite lookup_insert_ne, snoc_app.
    + by rewrite lookup_insert_eq, snoc_app.
    + rewrite length_app; simpl; lia.
    + done.
    + rewrite length_app; simpl; lia.
    + intros fs' Hfs'. rewrite insert_insert_eq, snoc_app. apply HQ. auto.
    + intros fs' Hfs'.
      eapply wp_destroy_at; [by rewrite lookup_insert_eq|by apply list_lookup_middle|].
      rewrite insert_insert_eq, (insert_middle dpre) by done.
      rewrite insert_id by done. apply HE. intros ->. auto.
Qed.

(** [uninitialized_move_n] into raw slots of another block: it fills the
    slots and leaves the sources moved-from; when a move constructor throws,
    the destination is raw again and the source block holds as many live
    objects as before, some of them moved-from. *)
Lemma wp_uninitialized_move_n vs hp fs al ls so ld do n spre spost dpre dpost xs Q E :
  ls ≠ ld →
  hp !! ls = Some (spre ++ (Some <$> xs) ++ spost) →
  hp !! ld = Some (dpre ++ replicate n None ++ dpost) →
  so = length spre → n = length xs → do = length dpre →
  (∀ fs', (fs = [] → fs' = []) →
          (is_nothrow_move_constructible T = true → fs' = fs) →
          Q tt (mkState vs (<[ld:=dpre ++ (Some <$> xs) ++ dpost]>
                              (<[ls:=spre ++ (Some <$> (moved_from T <$> xs)) ++ spost]> hp))
                        fs' al)) →
  (∀ fs' ys, length ys = length xs → fs ≠ [] →
             is_nothrow_move_constructible T = false →
             E (mkState vs (<[ls:=spre ++ (Some <$> ys) ++ spost]> hp) fs' al)) →
  wp (uninitialized_move_n T (Ptr ls so) n (Ptr ld do)) (mkState vs hp fs al) Q E.
Proof.
  intros Hne. revert hp fs so do n spre dpre Q E.
  induction xs as [|x xs IH]; intros hp fs so do n spre dpre Q E Hs Hd -> -> -> HQ HE.
  - simpl in *. apply wp_ret.
    specialize (HQ fs (λ H, H) (λ _, eq_refl)).
    by rewrite (insert_id hp ls), (insert_id hp ld) in HQ.
  - simpl in Hs, Hd. simpl. apply wp_bind.
    eapply wp_move_construct; [done|done|by apply list_lookup_middle|done| | |].
    { eapply lookup_lt_Some. by apply list_lookup_middle. }
    2:{ intros fs' Hfs Hnt. rewrite <- (insert_id hp ls _ Hs).
        by apply (HE fs' (x :: xs)). }
    intros fs1 Hfs1 Hnt1.
    rewrite (insert_middle dpre), (insert_middle spre) by done.
    apply wp_unwinding.
    eapply (IH _ _ _ _ _ (spre ++ [Some (moved_from T x)]) (dpre ++ [Some x])).
    + by rewrite lookup_insert_eq, snoc_app.
    + by rewrite lookup_insert_ne, lookup_insert_eq, snoc_app.
    + rewrite length_app; simpl; lia.
    + done.
    + rewrite length_app; simpl; lia.
    + intros fs' Hfs' Hnt'.
      rewrite insert_insert_eq, (insert_insert_ne _ ls ld), insert_insert_eq by done.
      rewrite !snoc_app. apply HQ; [auto|]. intros Ht. by rewrite Hnt', Hnt1.
    + intros fs' ys Hys Hfs' Hnt'.
      eapply wp_destroy_at.
      { by rewrite lookup_insert_ne, lookup_insert_ne, lookup_insert_eq. }
      { by apply list_lookup_middle. }
      rewrite (insert_middle dpre) by done.
      rewrite insert_insert_eq, (insert_insert_ne _ ls ld), insert_insert_eq by done.
      rewrite (insert_insert_ne _ ld ls), (insert_id hp ld) by done.
      rewrite snoc_app. apply (HE fs' (moved_from T x :: ys)); simpl; [lia| |done].
      intros ->. auto.
Qed.

(** *** Raw memory *)

Lemma fresh_block_None hp : hp !! fresh (dom hp) = None.
Proof. apply not_elem_of_dom, is_fresh. Qed.

Lemma wp_RawMemory_new vs hp fs al n Q E :
  n ≠ 0 →
  (∀ fs' l, (fs = [] → fs' = []) → hp !! l = None →
     Q {| buffer_ := Ptr l 0; capacity_ := n |}
       (mkState vs (<[l:=replicate n None]> hp) fs' (S al))) →
  (∀ fs', fs ≠ [] → E (mkState vs hp fs' al)) →
  wp (RawMemory_new n) (mkState vs hp fs al) Q E.
Proof.
  intros Hn HQ HE. unfold RawMemory_new, Allocate.
  destruct n as [|n]; [done|]. apply wp_bind, wp_bind.
  apply wp_may_throw; [|done]. intros fs' Hfs.
  unfold wp; simpl. apply HQ; [done|apply fresh_block_None].
Qed.

Lemma wp_RawMemory_new_0 st Q E :
  Q {| buffer_ := Null; capacity_ := 0 |} st → wp (RawMemory_new 0) st Q E.
Proof. done. Qed.

Lemma wp_Deallocate vs hp fs al l b Q E :
  hp !! l = Some b →
  Q tt (mkState vs (delete l hp) fs al) →
  wp (Deallocate (Ptr l 0)) (mkState vs hp fs al) Q E.
Proof. intros Hl HQ. unfold wp; simpl. by rewrite Hl. Qed.

(** *** Blocks of a vector *)

Lemma block_of_length xs cap : length xs ≤ cap → length (block_of xs cap) = cap.
Proof.
  intros. unfold block_of. rewrite length_app, length_fmap, length_replicate. lia.
Qed.

Lemma block_of_lookup xs cap i x :
  xs !! i = Some x → block_of xs cap !! i = Some (Some x).
Proof.
  intros Hi. unfold block_of. rewrite lookup_app_l.
  - by rewrite list_lookup_fmap, Hi.
  - rewrite length_fmap. by eapply lookup_lt_Some.
Qed.

Lemma block_of_snoc xs cap v :
  length xs < cap →
  <[length xs:=Some v]> (block_of xs cap) = block_of (xs ++ [v]) cap.
Proof.
  intros Hlt. unfold block_of.
  replace (cap - length xs) with (S (cap - length (xs ++ [v])))
    by (rewrite length_app; simpl; lia).
  simpl. rewrite insert_middle by by rewrite length_fmap.
  by rewrite fmap_app, <- app_assoc.
Qed.

Lemma block_of_full xs : block_of xs (length xs) = Some <$> xs.
Proof. unfold block_of. by rewrite Nat.sub_diag, app_nil_r. Qed.

Lemma replicate_insert_split n i (s : option V) :
  i < n →
  <[i:=s]> (replicate n None) = replicate i None ++ s :: replicate (n - i - 1) None.
Proof.
  intros Hi. replace n with (i + S (n - i - 1)) at 1 by lia.
  rewrite replicate_add. simpl. apply insert_middle. by rewrite length_replicate.
Qed.

(** The migration used on growth, whichever branch of the [if constexpr]
    is compiled: on success the destination holds the values and the source
    slots are still live; on failure the destination is raw again and the
    source block is unchanged unless a throwing move constructor was used. *)
Lemma wp_migrate (mv : bool) vs hp fs al ls so ld do n spre spost dpre dpost xs Q E :
  ls ≠ ld →
  hp !! ls = Some (spre ++ (Some <$> xs) ++ spost) →
  hp !! ld = Some (dpre ++ replicate n None ++ dpost) →
  so = length spre → n = length xs → do = length dpre →
  (∀ fs' xs', length xs' = length xs → (fs = [] → fs' = []) →
     Q tt (mkState vs (<[ld:=dpre ++ (Some <$> xs) ++ dpost]>
                         (<[ls:=spre ++ (Some <$> xs') ++ spost]> hp)) fs' al)) →
  (∀ fs' ys, length ys = length xs → fs ≠ [] →
     mv && negb (is_nothrow_move_constructible T) = true ∨ ys = xs →
     E (mkState vs (<[ls:=spre ++ (Some <$> ys) ++ spost]> hp) fs' al)) →
  wp (if mv then uninitialized_move_n T (Ptr ls so) n (Ptr ld do)
      else uninitialized_copy_n (Ptr ls so) n (Ptr ld do))
     (mkState vs hp fs al) Q E.
Proof.
  intros Hne Hs Hd -> -> -> HQ HE. destruct mv.
  - eapply wp_uninitialized_move_n; [done..| |].
    + intros fs' Hfs _. apply HQ; [by rewrite length_fmap|done].
    + intros fs' ys Hys Hfs Hnt. apply HE; [done..|]. left. by rewrite Hnt.
  - eapply wp_uninitialized_copy_n; [done..| |].
    + intros fs' Hfs. rewrite <- (insert_id hp ls _ Hs) at 1. by apply HQ.
    + intros fs' Hfs. rewrite <- (insert_id hp ls _ Hs). apply HE; auto.
Qed.

Lemma wp_migrate_0 (mv : bool) (p q : ptr) (st : State (V:=V)) Q E :
  Q tt st →
  wp (if mv then uninitialized_move_n T p 0 q else uninitialized_copy_n p 0 q) st Q E.
Proof. by destruct mv. Qed.

Lemma safe_growth_no_throwing_move :
  is_nothrow_move_constructible T || is_copy_constructible T = true →
  moves_on_growth T && negb (is_nothrow_move_constructible T) = false.
Proof.
  unfold moves_on_growth.
  by destruct (is_nothrow_move_constructible T), (is_copy_constructible T).
Qed.

Lemma wp_set_size vs hp fs al this v n Q E :
  vs !! this = Some v →
  Q tt (mkState (<[this:={| size_ := n; data_ := data_ v |}]> vs) hp fs al) →
  wp (set_size this n) (mkState vs hp fs al) Q E.
Proof.
  intros Hv HQ. unfold set_size. apply wp_bind.
  eapply wp_get_vec; [done|]. by apply wp_put_vec.
Qed.

Lemma wp_set_data vs hp fs al this v r Q E :
  vs !! this = Some v →
  Q tt (mkState (<[this:={| size_ := size_ v; data_ := r |}]> vs) hp fs al) →
  wp (set_data this r) (mkState vs hp fs al) Q E.
Proof.
  intros Hv HQ. unfold set_data. apply wp_bind.
  eapply wp_get_vec; [done|]. by apply wp_put_vec.
Qed.

Lemma wp_RawMemory_plus (r : RawMemory) (offset : nat) (st : State (V:=V)) Q E :
  offset ≤ capacity_ r →
  Q (ptr_add (buffer_ r) offset) st →
  wp (RawMemory_plus r offset) st Q E.
Proof.
  intros Hle HQ. unfold RawMemory_plus. apply wp_bind.
  apply wp_assert; [by apply bool_decide_eq_true|]. by apply wp_ret.
Qed.

Lemma wp_RawMemory_index (r : RawMemory) (index : nat) (st : State (V:=V)) Q E :
  index < capacity_ r →
  Q (ptr_add (buffer_ r) index) st →
  wp (RawMemory_index r index) st Q E.
Proof.
  intros Hlt HQ. unfold RawMemory_index. apply wp_bind.
  apply wp_assert; [by apply bool_decide_eq_true|]. by apply wp_ret.
Qed.

(** *** [EmplaceBack] *)

Lemma EmplaceBack_spec st this p xs cap (a : Args V) :
  owns st this p xs cap →
  wp (EmplaceBack T this a) st
    (λ r st', ∃ p' cap',
       owns st' this p' (xs ++ [args_value a]) cap' ∧
       r = ptr_add p' (length xs) ∧
       (length xs < cap → p' = p ∧ cap' = cap ∧ allocs st' = allocs st) ∧
       (length xs = cap →
        cap' = (if decide (cap = 0) then 1 else cap * 2) ∧
        allocs st' = S (allocs st)) ∧
       (faults st = [] → faults st' = []))
    (λ st', faults st ≠ [] ∧ vecs st' = vecs st ∧
       (length xs < cap ∨
        is_nothrow_move_constructible T || is_copy_constructible T = true →
        heap st' = heap st) ∧
       ∃ ys, length ys = length xs ∧ owns st' this p ys cap).
Proof.
  destruct st as [vs hp fs al]. intros (Hv & Hle & Hp); simpl in Hv.
  unfold EmplaceBack. apply wp_bind. eapply wp_get_vec; [done|]. simpl.
  unfold RawMemory_Capacity, GetAddress; simpl.
  destruct (decide (length xs < cap)) as [Hlt|Hfull].
  - destruct p as [|l off]; [lia|]. destruct Hp as (-> & _ & Hl); simpl in Hl.
    apply wp_bind, wp_bind. unfold RawMemory_plus; simpl.
    apply wp_bind. apply wp_assert; [apply bool_decide_eq_true; lia|].
    apply wp_ret.
    eapply wp_construct; [done|rewrite block_of_length; lia| |].
    + intros fs' Hfs. rewrite block_of_snoc by done.
      apply wp_bind. eapply wp_get_vec; [done|].
      apply wp_bind. unfold set_size. apply wp_bind.
      eapply wp_get_vec; [done|]. apply wp_put_vec.
      apply wp_bind. eapply wp_get_vec; [by rewrite lookup_insert_eq|].
      unfold RawMemory_index; simpl. apply wp_bind.
      apply wp_assert; [apply bool_decide_eq_true; lia|]. apply wp_ret.
      exists (Ptr l 0), cap. repeat split; simpl; try done; try lia.
      * rewrite lookup_insert_eq, length_app. simpl. done.
      * rewrite length_app; simpl; lia.
      * by rewrite lookup_insert_eq.
      * f_equal. lia.
    + intros fs' Hfs. repeat split; try done.
      exists xs. repeat split; try done. lia.
  - assert (length xs = cap) as Hcap by lia.
    set (c := if decide (length xs = 0) then 1 else length xs * 2).
    assert (length xs < c) as Hc by (unfold c; case_decide; lia).
    apply wp_bind, wp_bind.
    apply wp_RawMemory_new; [lia| |].
    2:{ intros fs' Hfs. repeat split; try done. exists xs. repeat split; try done. }
    intros fs1 l' Hfs1 Hl'. apply wp_bind, wp_unwinding.
    unfold RawMemory_plus; simpl.
    apply wp_bind, wp_bind. apply wp_assert; [apply bool_decide_eq_true; lia|].
    apply wp_ret. apply wp_bind.
    eapply wp_construct; [by rewrite lookup_insert_eq|by rewrite length_replicate| |].
    2:{ intros fs' Hfs. unfold RawMemory_delete; simpl.
        eapply wp_Deallocate; [by rewrite lookup_insert_eq|].
        rewrite delete_insert_id by done.
        repeat split; try done; [intros ->; auto|].
        exists xs. repeat split; try done. }
    intros fs2 Hfs2. rewrite insert_insert_eq, replicate_insert_split by done.
    destruct p as [|l off].
    + (* the vector owned no storage *)
      assert (xs = []) as -> by (apply length_zero_iff_nil; lia).
      apply wp_migrate_0. simpl. apply wp_bind, wp_ret. apply wp_bind.
      eapply wp_set_data; [done|]. apply wp_ret.
      apply wp_bind. eapply wp_get_vec; [by rewrite lookup_insert_eq|]. simpl.
      apply wp_bind. eapply wp_set_size; [by rewrite lookup_insert_eq|].
      apply wp_bind. eapply wp_get_vec; [by rewrite lookup_insert_eq|]. simpl.
      apply wp_RawMemory_index; [simpl; lia|].
      rewrite insert_insert_eq. exists (Ptr l' 0), c. repeat split; simpl; try done; try lia.
      * by rewrite lookup_insert_eq.
      * by rewrite lookup_insert_eq.
      * subst c cap. done.
      * auto.
    + destruct Hp as (-> & Hpos & Hl); simpl in Hl.
      assert (l ≠ l') as Hne by (intros ->; congruence).
      unfold block_of in Hl.
      eapply (wp_migrate _ _ _ _ _ l 0 l' 0 _ [] _ []); simpl;
        [done|by rewrite lookup_insert_ne|by rewrite lookup_insert_eq|done..| |].
      2:{ intros fs' ys Hys Hfs Hsafe. unfold RawMemory_delete; simpl.
          eapply wp_Deallocate; [by rewrite lookup_insert_ne, lookup_insert_eq|].
          rewrite (insert_insert_ne _ l l'), delete_insert_id by
            (done || by rewrite lookup_insert_ne).
          repeat split; simpl; try done.
          - intros ->. auto.
          - intros [?|Hs]; [lia|]. destruct Hsafe as [Ht| ->].
            + by rewrite safe_growth_no_throwing_move in Ht.
            + by apply insert_id.
          - exists ys. repeat split; simpl; try done; try lia.
            + by rewrite Hys.
            + rewrite lookup_insert_eq. unfold block_of. by rewrite Hys. }
      intros fs3 xs' Hxs' Hfs3.
      apply wp_bind.
      eapply (wp_destroy_n _ _ _ _ l 0 _ [] xs');
        [by rewrite lookup_insert_ne, lookup_insert_eq|done..|].
      simpl. apply wp_bind. eapply wp_set_data; [done|]. simpl.
      unfold RawMemory_delete; simpl.
      eapply wp_Deallocate; [by rewrite lookup_insert_eq|].
      apply wp_bind. eapply wp_get_vec; [by rewrite lookup_insert_eq|]. simpl.
      apply wp_bind. eapply wp_set_size; [by rewrite lookup_insert_eq|].
      apply wp_bind. eapply wp_get_vec; [by rewrite lookup_insert_eq|]. simpl.
      apply wp_RawMemory_index; [simpl; lia|].
      rewrite insert_insert_eq. exists (Ptr l' 0), c. repeat split; simpl; try done; try lia.
      * rewrite lookup_insert_eq, length_app. done.
      * rewrite length_app; simpl; lia.
      * rewrite lookup_delete_ne, lookup_insert_ne, lookup_insert_eq by done.
        f_equal. unfold block_of. rewrite fmap_app, <- app_assoc. simpl.
        do 3 f_equal. rewrite length_app; simpl. lia.
      * f_equal. lia.
      * subst c. repeat case_decide; lia.
      * auto.
Qed.

(** *** Observing a vector *)

Lemma Size_owns st this p xs cap :
  owns st this p xs cap → Size this st = Ok (length xs) st.
Proof. intros (Hv & _). unfold Size, bind, get_vec. by rewrite Hv. Qed.

Lemma Capacity_owns st this p xs cap :
  owns st this p xs cap → Capacity this st = Ok cap st.
Proof. intros (Hv & _). unfold Capacity, bind, get_vec. by rewrite Hv. Qed.

Lemma read_owns st this p xs cap i x :
  owns st this p xs cap → xs !! i = Some x → read this i st = Ok x st.
Proof.
  intros (Hv & Hle & Hp) Hi. pose proof (lookup_lt_Some _ _ _ Hi) as Hlt.
  unfold read, operator_index, RawMemory_index, bind, get_vec, assert.
  rewrite Hv; simpl.
  rewrite !bool_decide_eq_true_2 by lia. simpl.
  destruct p as [|l off]; [lia|]. destruct Hp as (-> & _ & Hl).
  unfold load; simpl. rewrite Hl. by rewrite (block_of_lookup _ _ _ _ Hi).
Qed.

Lemma Vector_default_owns vs hp fs al this :
  owns (mkState (<[this:={| size_ := 0; data_ := {| buffer_ := Null; capacity_ := 0 |} |}]> vs)
                hp fs al) this Null [] 0.
Proof. repeat split; simpl; [by rewrite lookup_insert_eq|lia]. Qed.

(** *** Appending *)

Lemma append_spec st this p xs cap (a : Args V) :
  owns st this p xs cap →
  wp (append T this a) st
    (λ _ st', ∃ p' cap', owns st' this p' (xs ++ [args_value a]) cap' ∧
                         (faults st = [] → faults st' = []))
    (λ _, faults st ≠ []).
Proof.
  intros Ho.
  assert (wp (EmplaceBack T this a ;;; ret tt) st
    (λ _ st', ∃ p' cap', owns st' this p' (xs ++ [args_value a]) cap' ∧
                         (faults st = [] → faults st' = []))
    (λ _, faults st ≠ [])) as H.
  { apply wp_bind. eapply wp_mono; [by apply EmplaceBack_spec| |].
    - intros r st' (p' & cap' & Ho' & _ & _ & _ & Hfs). apply wp_ret. eauto.
    - by intros st' (? & _). }
  by destruct a.
Qed.

Lemma append_all_spec st this p xs cap (ops : list (Args V)) :
  owns st this p xs cap →
  wp (append_all T this ops) st
    (λ _ st', ∃ p' cap', owns st' this p' (xs ++ (args_value <$> ops)) cap' ∧
                         (faults st = [] → faults st' = []))
    (λ _, faults st ≠ []).
Proof.
  revert st p xs cap. induction ops as [|a ops IH]; intros st p xs cap Ho.
  - apply wp_ret. exists p, cap. by rewrite app_nil_r.
  - simpl. apply wp_bind. eapply wp_mono; [by eapply append_spec| |done].
    intros _ st1 (p1 & cap1 & Ho1 & Hfs1).
    eapply wp_mono; [by eapply IH| |].
    + intros _ st2 (p2 & cap2 & Ho2 & Hfs2). exists p2, cap2.
      rewrite <- app_assoc in Ho2. auto.
    + intros st2 Hfs2 Hfs. auto.
Qed.

(** *** [Reserve] *)

Lemma Reserve_spec st this p xs cap n :
  owns st this p xs cap →
  wp (Reserve T this n) st
    (λ _ st', ∃ p', owns st' this p' xs (cap `max` n) ∧
                    (n ≤ cap → st' = st) ∧
                    (cap < n → allocs st' = S (allocs st)) ∧
                    (faults st = [] → faults st' = []))
    (λ st', faults st ≠ [] ∧ vecs st' = vecs st ∧
       (is_nothrow_move_constructible T || is_copy_constructible T = true →
        heap st' = heap st) ∧
       ∃ ys, length ys = length xs ∧ owns st' this p ys cap).
Proof.
  destruct st as [vs hp fs al]. intros (Hv & Hle & Hp); simpl in Hv.
  unfold Reserve. apply wp_bind. eapply wp_get_vec; [done|]. simpl.
  unfold RawMemory_Capacity, GetAddress; simpl.
  destruct (decide (n ≤ cap)) as [Hn|Hn].
  { apply wp_ret. exists p. rewrite Nat.max_l by done.
    repeat split; try done. lia. }
  rewrite Nat.max_r by lia.
  apply wp_bind. apply wp_RawMemory_new; [lia| |].
  2:{ intros fs' Hfs. repeat split; try done. exists xs. repeat split; try done. }
  intros fs1 l' Hfs1 Hl'. apply wp_bind, wp_unwinding, wp_bind.
  destruct p as [|l off].
  - assert (xs = []) as -> by (apply length_zero_iff_nil; lia).
    apply wp_migrate_0. simpl. apply wp_ret. apply wp_bind.
    eapply wp_set_data; [done|]. apply wp_ret.
    exists (Ptr l' 0). repeat split; simpl; try done; try lia; try by auto.
    + by rewrite lookup_insert_eq.
    + rewrite lookup_insert_eq. unfold block_of; simpl. by rewrite Nat.sub_0_r.
  - destruct Hp as (-> & Hpos & Hl); simpl in Hl.
    assert (l ≠ l') as Hne by (intros ->; congruence).
    unfold block_of in Hl.
    simpl.
    replace (replicate n None) with
      (replicate (length xs) (@None V) ++ replicate (n - length xs) None)
      by (rewrite <- replicate_add; f_equal; lia).
    eapply (wp_migrate _ _ _ _ _ l 0 l' 0 _ [] _ []); simpl;
      [done|by rewrite lookup_insert_ne|by rewrite lookup_insert_eq|done..| |].
    2:{ intros fs' ys Hys Hfs Hsafe. unfold RawMemory_delete; simpl.
        eapply wp_Deallocate; [by rewrite lookup_insert_ne, lookup_insert_eq|].
        rewrite (insert_insert_ne _ l l'), delete_insert_id by
          (done || by rewrite lookup_insert_ne).
        repeat split; simpl; try done.
        - intros ->. auto.
        - intros Hs. destruct Hsafe as [Ht| ->].
          + by rewrite safe_growth_no_throwing_move in Ht.
          + by apply insert_id.
        - exists ys. repeat split; simpl; try done; try lia.
          + by rewrite Hys.
          + rewrite lookup_insert_eq. unfold block_of. by rewrite Hys. }
    intros fs3 xs' Hxs' Hfs3.
    eapply (wp_destroy_n _ _ _ _ l 0 _ [] xs');
      [by rewrite lookup_insert_ne, lookup_insert_eq|done..|].
    simpl. apply wp_bind. eapply wp_set_data; [done|]. simpl.
    unfold RawMemory_delete; simpl.
    eapply wp_Deallocate; [by rewrite lookup_insert_eq|].
    exists (Ptr l' 0). repeat split; simpl; try done; try lia; try by auto.
    + by rewrite lookup_insert_eq.
    + by rewrite lookup_delete_ne, lookup_insert_ne, lookup_insert_eq by done.
Qed.

(** *** [Emplace] into a full vector *)

Lemma wp_ptr_diff (l i j d : nat) (st : State (V:=V)) Q E :
  i = j + d → Q d st → wp (ptr_diff (Ptr l i) (Ptr l j)) st Q E.
Proof.
  intros -> HQ. unfold ptr_diff. rewrite decide_True by (split; [done|lia]).
  apply wp_ret. by replace (j + d - j) with d by lia.
Qed.

Lemma wp_begin vs hp fs al this v Q E :
  vs !! this = Some v →
  Q (buffer_ (data_ v)) (mkState vs hp fs al) →
  wp (begin this) (mkState vs hp fs al) Q E.
Proof.
  intros Hv HQ. unfold begin. apply wp_bind.
  eapply wp_get_vec; [done|]. by apply wp_ret.
Qed.

Lemma insert_pair_twice hp (l l' : nat) (s1 s2 d1 d2 : list (option V)) :
  l ≠ l' →
  <[l':=d2]> (<[l:=s2]> (<[l':=d1]> (<[l:=s1]> hp))) = <[l':=d2]> (<[l:=s2]> hp).
Proof.
  intros Hne. by rewrite (insert_insert_ne _ l l'), !insert_insert_eq by done.
Qed.

(** The two-part migration around the new element. *)
Lemma wp_migrate_around (mv : bool) vs hp fs al l l' oi oj index n v xs spost dpost Q E :
  l ≠ l' → index ≤ length xs → n = length xs → oi = index → oj = index + 1 →
  hp !! l = Some ((Some <$> xs) ++ spost) →
  hp !! l' = Some (replicate index None ++ Some v :: replicate (n - index) None ++ dpost) →
  (∀ fs' xs', length xs' = length xs → (fs = [] → fs' = []) →
     Q tt (mkState vs
             (<[l':=(Some <$> take index xs) ++ Some v :: (Some <$> drop index xs) ++ dpost]>
                (<[l:=(Some <$> xs') ++ spost]> hp)) fs' al)) →
  (∀ fs' ys b', length ys = length xs → fs ≠ [] →
     mv && negb (is_nothrow_move_constructible T) = true ∨ ys = xs →
     E (mkState vs (<[l':=b']> (<[l:=(Some <$> ys) ++ spost]> hp)) fs' al)) →
  wp (if mv then
        uninitialized_move_n T (Ptr l 0) index (Ptr l' 0) ;;;
        uninitialized_move_n T (Ptr l oi) (n - index) (Ptr l' oj)
      else
        unwinding (destroy_n (Ptr l' oi) 1)
          (uninitialized_copy_n (Ptr l 0) index (Ptr l' 0) ;;;
           uninitialized_copy_n (Ptr l oi) (n - index) (Ptr l' oj)))
     (mkState vs hp fs al) Q E.
Proof.
  intros Hne Hidx -> -> -> Hs Hd HQ HE.
  assert (length (take index xs) = index) as Htake by (rewrite length_take; lia).
  assert (length (drop index xs) = length xs - index) as Hdrop by apply length_drop.
  rewrite <- (take_drop index xs), fmap_app, <- app_assoc in Hs.
  destruct mv.
  - apply wp_bind.
    eapply (wp_uninitialized_move_n _ _ _ _ l 0 l' 0 _ [] _ []); simpl; [done..| |].
    2:{ intros fs' ys Hys Hfs Hnt.
        rewrite <- (insert_id (<[l:=_]> hp) l' _) by (by rewrite lookup_insert_ne).
        rewrite (app_assoc (Some <$> ys)), <- fmap_app.
        apply HE; [|done|].
        - rewrite length_app, Hys, Htake, Hdrop. lia.
        - left. by rewrite Hnt. }
    intros fs1 Hfs1 _.
    eapply (wp_uninitialized_move_n _ _ _ _ l index l' (index + 1) _
              (Some <$> (moved_from T <$> take index xs)) _
              ((Some <$> take index xs) ++ [Some v]) _ (drop index xs)).
    + done.
    + by rewrite lookup_insert_ne, lookup_insert_eq.
    + by rewrite lookup_insert_eq, snoc_app.
    + rewrite !length_fmap. lia.
    + done.
    + rewrite length_app, length_fmap; simpl. lia.
    + intros fs2 Hfs2 _. rewrite insert_pair_twice by done.
      rewrite snoc_app, app_assoc, <- fmap_app. apply HQ; [|auto].
      rewrite length_app, !length_fmap. lia.
    + intros fs2 ys Hys Hfs2 Hnt.
      rewrite (insert_insert_ne _ l l'), insert_insert_eq by done.
      rewrite (app_assoc (Some <$> _)), <- fmap_app. apply HE.
      * rewrite length_app, length_fmap. lia.
      * intros ->. auto.
      * left. by rewrite Hnt.
  - apply wp_unwinding, wp_bind.
    eapply (wp_uninitialized_copy_n _ _ _ _ l 0 l' 0 _ [] _ []); simpl; [done..| |].
    2:{ intros fs' Hfs.
        eapply (wp_destroy_n _ _ _ _ l' index 1 _ [v]); simpl;
          [done|by rewrite length_replicate|done|].
        rewrite <- (insert_id hp l _ Hs) at 1.
        rewrite (app_assoc (Some <$> _)), <- fmap_app, take_drop.
        apply HE; auto. }
    intros fs1 Hfs1.
    eapply (wp_uninitialized_copy_n _ _ _ _ l index l' (index + 1) _
              (Some <$> take index xs) _
              ((Some <$> take index xs) ++ [Some v]) _ (drop index xs)).
    + done.
    + by rewrite lookup_insert_ne.
    + by rewrite lookup_insert_eq, snoc_app.
    + rewrite length_fmap. lia.
    + done.
    + rewrite length_app, length_fmap; simpl. lia.
    + intros fs2 Hfs2. rewrite insert_insert_eq.
      rewrite <- (insert_id hp l _ Hs) at 1.
      rewrite snoc_app, (app_assoc (Some <$> _)), <- fmap_app.
      apply HQ; [|auto]. rewrite length_app. lia.
    + intros fs2 Hfs2.
      eapply (wp_destroy_n _ _ _ _ l' index 1 (Some <$> take index xs) [v]); simpl;
        [by rewrite lookup_insert_eq|by rewrite length_fmap|done|].
      rewrite insert_insert_eq.
      rewrite <- (insert_id hp l _ Hs) at 1.
      rewrite (app_assoc (Some <$> _)), <- fmap_app, take_drop.
      apply HE; [done| |auto]. intros ->. auto.
Qed.


Lemma length_insert_at {A} (l : list A) (i : nat) (x : A) :
  length (take i l ++ x :: drop i l) = S (length l).
Proof.
  rewrite length_app; simpl. rewrite length_take, length_drop. lia.
Qed.

Lemma Emplace_full_spec st this p xs cap index (a : Args V) :
  owns st this p xs cap → length xs = cap → index ≤ length xs →
  wp (Emplace T this (ptr_add p index) a) st
    (λ r st', ∃ p',
       owns st' this p' (take index xs ++ args_value a :: drop index xs)
            (if decide (cap = 0) then 1 else cap * 2) ∧
       r = ptr_add p' index ∧
       allocs st' = S (allocs st) ∧
       (faults st = [] → faults st' = []))
    (λ st', faults st ≠ [] ∧ vecs st' = vecs st ∧
       (is_nothrow_move_constructible T || is_copy_constructible T = true →
        heap st' = heap st) ∧
       ∃ ys, length ys = length xs ∧ owns st' this p ys cap).
Proof.
  destruct st as [vs hp fs al]. intros (Hv & Hle & Hp) Hcap Hidx; simpl in Hv.
  set (c := if decide (cap = 0) then 1 else cap * 2).
  assert (length xs < c) as Hc by (unfold c; case_decide; lia).
  unfold Emplace. apply wp_bind. eapply wp_begin; [done|]. simpl.
  apply wp_bind.
  assert (wp (ptr_diff (ptr_add p index) p)
             (mkState vs hp fs al)
             (λ d st', d = index ∧ st' = mkState vs hp fs al) (λ _, False)) as Hdiff.
  { destruct p as [|l off]; simpl.
    - split; [lia|done].
    - eapply wp_ptr_diff; [done|]. done. }
  eapply wp_mono; [exact Hdiff| |done]. clear Hdiff.
  intros ? ? (-> & ->).
  apply wp_bind. eapply wp_get_vec; [done|]. simpl.
  unfold RawMemory_Capacity, GetAddress; simpl.
  rewrite decide_False by lia.
  replace (if decide (length xs = 0) then 1 else length xs * 2) with c
    by (unfold c; rewrite Hcap; done).
  apply wp_bind, wp_bind.
  apply wp_RawMemory_new; [lia| |].
  2:{ intros fs' Hfs. repeat split; try done. exists xs. repeat split; try done. }
  intros fs1 l' Hfs1 Hl'. apply wp_bind, wp_unwinding.
  apply wp_bind. apply wp_RawMemory_plus; [simpl; lia|]. simpl.
  apply wp_bind.
  eapply wp_construct; [by rewrite lookup_insert_eq|rewrite length_replicate; lia| |].
  2:{ intros fs' Hfs. unfold RawMemory_delete; simpl.
      eapply wp_Deallocate; [by rewrite lookup_insert_eq|].
      rewrite delete_insert_id by done.
      repeat split; try done; [intros ->; auto|].
      exists xs. repeat split; try done. }
  intros fs2 Hfs2. rewrite insert_insert_eq, replicate_insert_split by lia.
  apply wp_bind.
  destruct p as [|l off].
  - assert (xs = []) as -> by (apply length_zero_iff_nil; lia).
    assert (index = 0) as -> by (simpl in Hidx; lia).
    assert (wp (if moves_on_growth T
       then uninitialized_move_n T Null 0 (Ptr l' 0);;;
            uninitialized_move_n T (ptr_add Null 0) (length (@nil V) - 0) (Ptr l' (0 + 1))
       else unwinding (destroy_n (Ptr l' 0) 1)
              (uninitialized_copy_n Null 0 (Ptr l' 0);;;
               uninitialized_copy_n (ptr_add Null 0) (length (@nil V) - 0) (Ptr l' (0 + 1))))
      (mkState vs (<[l':=replicate 0 None ++ Some (args_value a) :: replicate (c - 0 - 1) None]> hp)
               fs2 (S al))
      (λ _ st', st' = mkState vs
          (<[l':=replicate 0 None ++ Some (args_value a) :: replicate (c - 0 - 1) None]> hp)
          fs2 (S al)) (λ _, False)) as Hmig by (by destruct (moves_on_growth T)).
    eapply wp_mono; [exact Hmig| |done]. clear Hmig. intros _ ? ->.
    apply wp_ret. simpl. apply wp_bind, wp_ret. apply wp_bind.
    eapply wp_set_data; [done|]. apply wp_bind, wp_ret, wp_ret.
    apply wp_bind. eapply wp_get_vec; [by rewrite lookup_insert_eq|]. simpl.
    apply wp_bind. eapply wp_set_size; [by rewrite lookup_insert_eq|]. apply wp_ret.
    rewrite insert_insert_eq. exists (Ptr l' 0).
    repeat split; simpl; try done; try lia; try by auto.
    + by rewrite lookup_insert_eq.
    + rewrite lookup_insert_eq. unfold block_of. simpl. by rewrite Nat.sub_0_r.
  - destruct Hp as (-> & Hpos & Hl); simpl in Hl.
    assert (l ≠ l') as Hne by (intros ->; congruence).
    unfold block_of in Hl. simpl.
    replace (replicate (c - index - 1) None) with
      (replicate (length xs - index) (@None V) ++ replicate (c - length xs - 1) None)
      by (rewrite <- replicate_add; f_equal; lia).
    eapply (wp_migrate_around _ _ _ _ _ l l' index (index + 1) index (length xs));
      [done|done|done|done|done|by rewrite lookup_insert_ne|by rewrite lookup_insert_eq| |].
    2:{ intros fs' ys b' Hys Hfs Hsafe. unfold RawMemory_delete; simpl.
        eapply wp_Deallocate; [by rewrite lookup_insert_eq|].
        rewrite delete_insert_eq, (insert_insert_ne _ l l'), delete_insert_id by
          (done || by rewrite lookup_insert_ne).
        repeat split; simpl; try done.
        - intros ->. auto.
        - intros Hs. destruct Hsafe as [Ht| ->].
          + by rewrite safe_growth_no_throwing_move in Ht.
          + by apply insert_id.
        - exists ys. repeat split; simpl; try done; try lia.
          + by rewrite Hys.
          + rewrite lookup_insert_eq. unfold block_of. by rewrite Hys. }
    intros fs3 xs' Hxs' Hfs3. apply wp_ret. apply wp_bind.
    eapply (wp_destroy_n _ _ _ _ l 0 _ [] xs');
      [by rewrite lookup_insert_ne, lookup_insert_eq|done..|].
    simpl. apply wp_bind. eapply wp_set_data; [done|]. simpl.
    apply wp_bind. unfold RawMemory_delete; simpl.
    eapply wp_Deallocate; [by rewrite lookup_insert_eq|]. apply wp_ret.
    apply wp_bind. eapply wp_get_vec; [by rewrite lookup_insert_eq|]. simpl.
    apply wp_bind. eapply wp_set_size; [by rewrite lookup_insert_eq|]. apply wp_ret.
    rewrite insert_insert_eq. exists (Ptr l' 0).
    repeat split; simpl; try done; try lia; try by auto.
    + rewrite lookup_insert_eq, length_insert_at. do 2 f_equal. lia.
    + rewrite length_insert_at. lia.
    + rewrite lookup_delete_ne, lookup_insert_ne, lookup_insert_eq by done.
      f_equal. unfold block_of. rewrite fmap_app, <- app_assoc. simpl.
      rewrite length_insert_at. do 4 f_equal. lia.
Qed.

(** *** [Emplace] into an empty vector with spare capacity *)

Lemma Emplace_empty_spec st this p cap (a : Args V) :
  owns st this p [] cap → 0 < cap →
  wp (Emplace T this p a) st
    (λ r st', owns st' this p [args_value a] cap ∧ r = p ∧
              allocs st' = allocs st ∧ (faults st = [] → faults st' = []))
    (λ st', faults st ≠ [] ∧ vecs st' = vecs st ∧ heap st' = heap st).
Proof.
  destruct st as [vs hp fs al]. intros (Hv & Hle & Hp) Hcap; simpl in Hv.
  destruct p as [|l off]; [lia|]. destruct Hp as (-> & _ & Hl); simpl in Hl.
  unfold Emplace. apply wp_bind. eapply wp_begin; [done|]. simpl.
  apply wp_bind. eapply (wp_ptr_diff _ _ _ 0); [done|].
  apply wp_bind. eapply wp_get_vec; [done|]. simpl.
  unfold RawMemory_Capacity; simpl. rewrite decide_True by lia.
  apply wp_bind, wp_bind, wp_ret.
  apply wp_bind. apply wp_RawMemory_plus; [simpl; lia|]. simpl.
  apply wp_bind.
  eapply wp_construct; [done|rewrite block_of_length; lia| |done].
  intros fs' Hfs. apply wp_ret.
  apply wp_bind. eapply wp_get_vec; [done|]. simpl.
  apply wp_bind. eapply wp_set_size; [done|]. apply wp_ret.
  rewrite (block_of_snoc [] cap) by done.
  repeat split; simpl; try done; try lia.
  - by rewrite lookup_insert_eq.
  - by rewrite lookup_insert_eq.
Qed.

(** *** [Erase] *)

(** The forward [std::move] of [Erase]: the objects after the erased one
    move one slot down; the last of these slots keeps a live object. *)
Lemma wp_move_loop vs hp fs al l so do n pre w xs post Q E :
  hp !! l = Some (pre ++ Some w :: (Some <$> xs) ++ post) →
  do = length pre → so = S do → n = length xs →
  (∀ fs' z, (fs = [] → fs' = []) →
     (is_nothrow_move_assignable T = true → fs' = fs) →
     Q tt (mkState vs (<[l:=pre ++ (Some <$> xs) ++ Some z :: post]> hp) fs' al)) →
  (∀ fs' ys, length ys = S (length xs) → fs ≠ [] →
     is_nothrow_move_assignable T = false →
     E (mkState vs (<[l:=pre ++ (Some <$> ys) ++ post]> hp) fs' al)) →
  wp (move_loop T (Ptr l so) n (Ptr l do)) (mkState vs hp fs al) Q E.
Proof.
  revert hp fs so do n pre w Q E.
  induction xs as [|x xs IH]; intros hp fs so do n pre w Q E Hl -> -> -> HQ HE.
  - simpl in *. apply wp_ret.
    specialize (HQ fs w (λ H, H) (λ _, eq_refl)). by rewrite insert_id in HQ.
  - simpl in Hl. simpl. apply wp_bind.
    eapply wp_move_assign_within; [done| |by apply list_lookup_middle| |].
    { rewrite (cons_middle (Some w)), app_assoc.
      apply list_lookup_middle. rewrite length_app; simpl; lia. }
    2:{ intros fs' Hfs Hnt. rewrite <- (insert_id hp l _ Hl).
        by apply (HE fs' (w :: x :: xs)). }
    intros fs1 Hfs1 Hnt1.
    rewrite (insert_middle pre) by done.
    rewrite (cons_middle (Some x) pre), app_assoc.
    rewrite (insert_middle (pre ++ [Some x])) by (rewrite length_app; simpl; lia).
    eapply (IH _ _ _ _ _ (pre ++ [Some x]) (moved_from T x)).
    + by rewrite lookup_insert_eq.
    + rewrite length_app; simpl. lia.
    + done.
    + done.
    + intros fs' z Hfs' Hnt'. rewrite insert_insert_eq, snoc_app.
      apply HQ; [auto|]. intros Ht. by rewrite Hnt', Hnt1.
    + intros fs' ys Hys Hfs' Hnt'. rewrite insert_insert_eq, snoc_app.
      apply (HE fs' (x :: ys)); [simpl; lia| |done]. intros ->. auto.
Qed.

Lemma block_of_pop xs z cap :
  length xs < cap →
  <[length xs:=None]> (block_of (xs ++ [z]) cap) = block_of xs cap.
Proof.
  intros Hlt. unfold block_of. rewrite fmap_app, <- app_assoc. simpl.
  rewrite insert_middle by by rewrite length_fmap.
  rewrite length_app. simpl.
  replace (cap - length xs) with (S (cap - (length xs + 1))) by lia. done.
Qed.

Lemma PopBack_spec st this p xs z cap :
  owns st this p (xs ++ [z]) cap →
  wp (PopBack this) st
    (λ _ st', owns st' this p xs cap ∧ allocs st' = allocs st ∧
              faults st' = faults st)
    (λ _, False).
Proof.
  destruct st as [vs hp fs al]. intros (Hv & Hle & Hp); simpl in Hv.
  rewrite length_app in Hv, Hle; simpl in Hv, Hle.
  destruct p as [|l off]; [lia|]. destruct Hp as (-> & Hpos & Hl); simpl in Hl.
  unfold PopBack. apply wp_bind. eapply wp_get_vec; [done|]. simpl.
  rewrite decide_True by lia. apply wp_bind.
  replace (length xs + 1 - 1) with (length xs) by lia.
  eapply wp_destroy_at; [done| |].
  { apply block_of_lookup. by apply list_lookup_middle. }
  eapply wp_set_size; [done|]. simpl.
  rewrite block_of_pop by lia.
  repeat split; simpl; try done; try lia; by rewrite lookup_insert_eq.
Qed.

Lemma Erase_spec st this p xs cap index :
  owns st this p xs cap → index < length xs →
  wp (Erase T this (ptr_add p index)) st
    (λ r st', owns st' this p (delete index xs) cap ∧ r = ptr_add p index ∧
              allocs st' = allocs st ∧
              (is_nothrow_move_assignable T = true → faults st' = faults st) ∧
              (faults st = [] → faults st' = []))
    (λ st', faults st ≠ [] ∧ is_nothrow_move_assignable T = false ∧
            ∃ ys, length ys = length xs ∧ owns st' this p ys cap).
Proof.
  destruct st as [vs hp fs al]. intros (Hv & Hle & Hp) Hidx; simpl in Hv.
  destruct p as [|l off]; [lia|]. destruct Hp as (-> & Hpos & Hl); simpl in Hl.
  destruct (lookup_lt_is_Some_2 xs index Hidx) as [w Hw].
  unfold Erase. apply wp_bind. eapply wp_begin; [done|]. simpl.
  apply wp_bind. eapply (wp_ptr_diff _ _ _ index); [done|].
  apply wp_bind. unfold end_. apply wp_bind. eapply wp_get_vec; [done|].
  apply wp_ret. simpl.
  apply wp_bind. unfold std_move. apply wp_bind.
  eapply (wp_ptr_diff _ _ _ (length (drop (S index) xs))).
  { rewrite length_drop. lia. }
  unfold block_of in Hl.
  rewrite <- (take_drop_middle xs index w Hw) in Hl at 1.
  rewrite fmap_app, <- app_assoc in Hl. simpl in Hl.
  eapply (wp_move_loop _ _ _ _ l _ index _ (Some <$> take index xs));
    [done|rewrite length_fmap, length_take; lia|lia|done| |].
  2:{ intros fs' ys Hys Hfs Hnt. repeat split; try done.
      exists (take index xs ++ ys).
      assert (length (take index xs ++ ys) = length xs) as Hlen.
      { rewrite length_app, length_take, Hys, length_drop. lia. }
      repeat split; simpl; try done; try lia.
      - by rewrite Hlen.
      - rewrite lookup_insert_eq. unfold block_of.
        by rewrite Hlen, fmap_app, <- app_assoc. }
  intros fs1 z Hfs1 Hnt1.
  assert (length (delete index xs) = length xs - 1) as Hlen.
  { rewrite length_delete by eauto. done. }
  apply wp_bind.
  eapply wp_mono; [eapply (PopBack_spec _ this (Ptr l 0) (delete index xs) z cap)| |done].
  - repeat split; simpl; try done; try lia.
    + rewrite length_app, Hlen. simpl. rewrite Hv. do 2 f_equal. lia.
    + rewrite length_app, Hlen. simpl. lia.
    + rewrite lookup_insert_eq. unfold block_of.
      rewrite length_app, Hlen. simpl.
      rewrite delete_take_drop, !fmap_app, <- !app_assoc. simpl.
      do 5 f_equal. lia.
  - intros _ [vs' hp' fs' al'] (Ho & Hal & Hfs'); simpl in *.
    apply wp_bind. eapply wp_begin; [apply Ho|]. apply wp_ret. simpl.
    subst. repeat split; try apply Ho; auto.
Qed.

(** *** Copy assignment *)

(** [std::copy] onto live objects of another block. *)
Lemma wp_copy_loop vs hp fs al ls so ld do n spre spost dpre dpost xs ws Q E :
  ls ≠ ld →
  hp !! ls = Some (spre ++ (Some <$> xs) ++ spost) →
  hp !! ld = Some (dpre ++ (Some <$> ws) ++ dpost) →
  length ws = length xs →
  so = length spre → n = length xs → do = length dpre →
  (∀ fs', (fs = [] → fs' = []) →
     Q tt (mkState vs (<[ld:=dpre ++ (Some <$> xs) ++ dpost]> hp) fs' al)) →
  (∀ fs' zs, length zs = length xs → fs ≠ [] →
     E (mkState vs (<[ld:=dpre ++ (Some <$> zs) ++ dpost]> hp) fs' al)) →
  wp (copy_loop (Ptr ls so) n (Ptr ld do)) (mkState vs hp fs al) Q E.
Proof.
  intros Hne. revert hp fs so do n spre dpre ws Q E.
  induction xs as [|x xs IH];
    intros hp fs so do n spre dpre ws Q E Hs Hd Hlen -> -> -> HQ HE.
  - destruct ws; [|done]. simpl in *. apply wp_ret.
    rewrite <- (insert_id hp ld _ Hd). by apply HQ.
  - destruct ws as [|w ws]; [done|]. simpl in Hs, Hd, Hlen. simpl. apply wp_bind.
    eapply wp_copy_assign;
      [done|by apply list_lookup_middle|done|by apply list_lookup_middle| |].
    2:{ intros fs' Hfs. rewrite <- (insert_id hp ld _ Hd).
        apply (HE fs' (w :: ws)); [simpl; lia|done]. }
    intros fs1 Hfs1. rewrite (insert_middle dpre) by done.
    eapply (IH _ _ _ _ _ (spre ++ [Some x]) (dpre ++ [Some x]) ws).
    + by rewrite lookup_insert_ne, snoc_app.
    + by rewrite lookup_insert_eq, snoc_app.
    + lia.
    + rewrite length_app; simpl; lia.
    + done.
    + rewrite length_app; simpl; lia.
    + intros fs' Hfs'. rewrite insert_insert_eq, snoc_app. apply HQ. auto.
    + intros fs' zs Hzs Hfs'. rewrite insert_insert_eq, snoc_app.
      apply (HE fs' (x :: zs)); [simpl; lia|]. intros ->. auto.
Qed.

Lemma wp_std_copy vs hp fs al ls so eo ld do spre spost dpre dpost xs ws Q E :
  ls ≠ ld →
  hp !! ls = Some (spre ++ (Some <$> xs) ++ spost) →
  hp !! ld = Some (dpre ++ (Some <$> ws) ++ dpost) →
  length ws = length xs →
  so = length spre → eo = so + length xs → do = length dpre →
  (∀ fs', (fs = [] → fs' = []) →
     Q tt (mkState vs (<[ld:=dpre ++ (Some <$> xs) ++ dpost]> hp) fs' al)) →
  (∀ fs' zs, length zs = length xs → fs ≠ [] →
     E (mkState vs (<[ld:=dpre ++ (Some <$> zs) ++ dpost]> hp) fs' al)) →
  wp (std_copy (Ptr ls so) (Ptr ls eo) (Ptr ld do)) (mkState vs hp fs al) Q E.
Proof.
  intros Hne Hs Hd Hlen -> -> -> HQ HE. unfold std_copy. apply wp_bind.
  eapply wp_ptr_diff; [done|]. by eapply wp_copy_loop.
Qed.

(** [Swap] of two different vectors exchanges the two objects. *)
Lemma wp_Swap vs hp fs al this other (va vb : Vector) Q E :
  this ≠ other → vs !! this = Some va → vs !! other = Some vb →
  Q tt (mkState (<[other:=va]> (<[this:=vb]> vs)) hp fs al) →
  wp (Swap this other) (mkState vs hp fs al) Q E.
Proof.
  intros Hne Ha Hb HQ. unfold Swap.
  apply wp_bind. eapply wp_get_vec; [done|].
  apply wp_bind. eapply wp_get_vec; [done|].
  apply wp_bind. eapply wp_set_data; [done|].
  apply wp_bind. eapply wp_set_data; [by rewrite lookup_insert_ne|].
  apply wp_bind. eapply wp_get_vec; [by rewrite lookup_insert_ne, lookup_insert_eq|].
  apply wp_bind. eapply wp_get_vec; [by rewrite lookup_insert_eq|].
  apply wp_bind.
  eapply wp_set_size; [by rewrite lookup_insert_ne, lookup_insert_eq|].
  eapply wp_set_size; [by rewrite lookup_insert_ne, lookup_insert_eq|].
  simpl. destruct va as [sa da], vb as [sb db]; simpl.
  by rewrite (insert_insert_ne _ this other), !insert_insert_eq by done.
Qed.

Lemma wp_std_copy_0 (p q : ptr) (st : State (V:=V)) Q E :
  Q tt st → wp (std_copy p (ptr_add p 0) q) st Q E.
Proof.
  intros HQ. unfold std_copy. apply wp_bind. destruct p as [|l off]; simpl.
  - by apply wp_ret.
  - eapply (wp_ptr_diff _ _ _ 0); [lia|]. by apply wp_ret.
Qed.

Lemma fresh_vec_None vs : vs !! fresh (dom vs) = None.
Proof. apply not_elem_of_dom, is_fresh. Qed.

(** The reallocating branch: [Vector rhs_copy(rhs); Swap(rhs_copy);]. *)
Lemma assign_copy_realloc vs hp fs al this rhs pa lb xs ys ca cb Q E :
  let st := mkState vs hp fs al in
  let tmp := fresh (dom vs) in
  this ≠ rhs → owns st this pa xs ca → owns st rhs (Ptr lb 0) ys cb →
  pa ≠ Ptr lb 0 → ca < length ys →
  (∀ fs' l', (fs = [] → fs' = []) → hp !! l' = None →
     Q tt (mkState
             (<[this:={| size_ := length ys;
                         data_ := {| buffer_ := Ptr l' 0; capacity_ := length ys |} |}]> vs)
             (<[l':=Some <$> ys]>
                (match pa with Null => hp | Ptr la _ => delete la hp end))
             fs' (S al))) →
  (∀ fs' al', fs ≠ [] → E (mkState vs hp fs' al')) →
  wp (Vector_copy tmp rhs ;;; Swap this tmp ;;; Vector_delete tmp) st Q E.
Proof.
  intros st tmp Hne (Ha & Hlea & Hpa) (Hb & Hleb & _ & Hposb & Hlb) Hsep Hlt HQ HE.
  simpl in Ha, Hb, Hlb. unfold block_of in Hlb.
  assert (vs !! tmp = None) as Htmp by apply fresh_vec_None.
  assert (this ≠ tmp) as Hat by (intros Heq; rewrite <- Heq in Htmp; congruence).
  assert (rhs ≠ tmp) as Hbt by (intros Heq; rewrite <- Heq in Htmp; congruence).
  subst st. apply wp_bind. unfold Vector_copy.
  apply wp_bind. eapply wp_get_vec; [done|]. simpl.
  apply wp_bind. apply wp_RawMemory_new; [lia| |by intros; apply HE].
  intros fs1 l' Hfs1 Hl'. unfold GetAddress; simpl.
  assert (lb ≠ l') as Hlbl by (intros ->; congruence).
  apply wp_bind, wp_unwinding.
  eapply (wp_uninitialized_copy_n _ _ _ _ lb 0 l' 0 _ [] _ [] [] ys); simpl;
    [done|by rewrite lookup_insert_ne|by rewrite lookup_insert_eq, app_nil_r|done..| |].
  2:{ intros fs' Hfs. unfold RawMemory_delete; simpl.
      eapply wp_Deallocate; [by rewrite lookup_insert_eq|].
      rewrite delete_insert_id by done. apply HE. intros ->. auto. }
  intros fs2 Hfs2. rewrite insert_insert_eq, app_nil_r.
  apply wp_put_vec. apply wp_bind.
  eapply wp_Swap; [done|by rewrite lookup_insert_ne|by rewrite lookup_insert_eq|].
  unfold Vector_delete. apply wp_bind.
  eapply wp_get_vec; [by rewrite lookup_insert_eq|]. simpl.
  unfold GetAddress, RawMemory_delete; simpl.
  destruct pa as [|la off].
  - assert (xs = []) as -> by (apply length_zero_iff_nil; lia).
    simpl. apply wp_bind, wp_ret. apply wp_bind, wp_ret.
    unfold wp, set_vecs; simpl.
    rewrite delete_insert_eq, delete_insert_ne, delete_insert_id by done.
    apply HQ; auto.
  - destruct Hpa as (-> & Hposa & Hla); simpl in Hla.
    assert (la ≠ l') as Hlal by (intros ->; congruence).
    apply wp_bind.
    eapply (wp_destroy_n _ _ _ _ la 0 _ [] xs); simpl;
      [by rewrite lookup_insert_ne|done..|].
    apply wp_bind.
    eapply wp_Deallocate; [by rewrite lookup_insert_eq|].
    unfold wp, set_vecs; simpl.
    rewrite delete_insert_eq, delete_insert_ne, delete_insert_id by done.
    rewrite delete_insert_eq, delete_insert_ne by done.
    apply HQ; auto.
Qed.

Lemma assign_copy_spec st this rhs pa pb xs ys ca cb :
  this ≠ rhs → owns st this pa xs ca → owns st rhs pb ys cb →
  (pa = Null ∨ pa ≠ pb) →
  wp (assign_copy this rhs) st
    (λ r st', r = this ∧ ∃ pa' ca',
       owns st' this pa' ys ca' ∧ owns st' rhs pb ys cb ∧
       (length ys ≤ ca → pa' = pa ∧ ca' = ca ∧ allocs st' = allocs st) ∧
       (ca < length ys → ca' = length ys ∧ allocs st' = S (allocs st)) ∧
       (faults st = [] → faults st' = []))
    (λ st', faults st ≠ [] ∧ owns st' rhs pb ys cb ∧
       (ca < length ys → vecs st' = vecs st ∧ heap st' = heap st) ∧
       ∃ zs, length zs = length xs ∧ owns st' this pa zs ca).
Proof.
  destruct st as [vs hp fs al]. intros Hne Ha Hb Hsep.
  pose proof Ha as (Hva & Hlea & Hpa). pose proof Hb as (Hvb & Hleb & Hpb).
  simpl in Hva, Hvb.
  unfold assign_copy. rewrite decide_True by done.
  apply wp_bind. eapply wp_get_vec; [done|].
  apply wp_bind. eapply wp_get_vec; [done|]. simpl.
  unfold RawMemory_Capacity, GetAddress; simpl. apply wp_bind.
  destruct (decide (ca < length ys)) as [Hgrow|Hfit].
  - (* a new buffer is built and swapped in *)
    destruct pb as [|lb offb]; [lia|]. destruct Hpb as (-> & Hposb & Hlb).
    apply wp_bind. unfold wp at 1, local_vec.
    eapply assign_copy_realloc; [done..| |lia| |].
    + destruct Hsep as [->|]; done.
    + intros fs' l' Hfs Hl'. apply wp_ret. split; [done|].
      exists (Ptr l' 0), (length ys).
      assert (lb ≠ l') as Hlbl by (intros ->; simpl in Hlb; congruence).
      repeat split; simpl; try done; try lia.
      * by rewrite lookup_insert_eq.
      * by rewrite lookup_insert_eq, block_of_full.
      * by rewrite lookup_insert_ne.
      * rewrite lookup_insert_ne by done.
        destruct pa as [|la offa]; [done|].
        destruct Hpa as (-> & _ & Hla).
        rewrite lookup_delete_ne; [done|]. intros ->.
        destruct Hsep; done.
    + intros fs' al' Hfs. repeat split; try done.
      exists xs. split; [done|]. apply Ha.
  - (* the existing storage is reused *)
    assert (length ys ≤ ca) as Hle by lia. apply wp_bind.
    destruct (decide (length ys < length xs)) as [Hshrink|Hgrow].
    + destruct pa as [|la offa]; [lia|]. destruct Hpa as (-> & Hposa & Hla).
      simpl in Hla. unfold block_of in Hla.
      rewrite <- (take_drop (length ys) xs) in Hla at 1.
      rewrite fmap_app, <- app_assoc in Hla.
      assert (length (take (length ys) xs) = length ys) as Htake
        by (rewrite length_take; lia).
      assert (length (drop (length ys) xs) = length xs - length ys) as Hdrop
        by apply length_drop.
      assert (∀ fs' E1 E2 E3, (fs = [] → fs' = []) →
        wp (destroy_n (Ptr la (length ys)) (length xs - length ys))
          (mkState vs (<[la:=(Some <$> ys) ++ (Some <$> drop (length ys) xs) ++
                              replicate (ca - length xs) None]> hp) fs' al)
          (λ _ st', wp (set_size this (length ys)) st'
             (λ _ st'', wp (ret this) st''
                (λ r st', r = this ∧ ∃ pa' ca',
                   owns st' this pa' ys ca' ∧ owns st' rhs pb ys cb ∧
                   (length ys ≤ ca → pa' = Ptr la 0 ∧ ca' = ca ∧ allocs st' = al) ∧
                   (ca < length ys → ca' = length ys ∧ allocs st' = S al) ∧
                   (fs = [] → faults st' = []))
                E3) E2) E1) as Hrest.
      { intros fs' E1 E2 E3 Hfs.
        eapply (wp_destroy_n _ _ _ _ la _ _ (Some <$> ys) (drop (length ys) xs));
          [by rewrite lookup_insert_eq|by rewrite length_fmap|done|].
        rewrite insert_insert_eq.
        eapply wp_set_size; [done|]. apply wp_ret. split; [done|].
        exists (Ptr la 0), ca. repeat split; simpl; try done; try lia.
        - by rewrite lookup_insert_eq.
        - rewrite lookup_insert_eq. unfold block_of.
          rewrite <- replicate_add. do 3 f_equal. lia.
        - by rewrite lookup_insert_ne.
        - destruct pb as [|lb offb]; [done|]. destruct Hpb as (-> & ? & Hlb).
          rewrite lookup_insert_ne; [done|]. intros ->. destruct Hsep; done. }
      destruct pb as [|lb offb].
      * assert (ys = []) as -> by (apply length_zero_iff_nil; lia).
        apply wp_bind. apply (wp_std_copy_0 Null).
        rewrite <- (insert_id hp la _ Hla).
        by apply Hrest.
      * destruct Hpb as (-> & Hposb & Hlb). simpl in Hlb. unfold block_of in Hlb.
        assert (lb ≠ la) as Hll by (intros ->; destruct Hsep; done).
        apply wp_bind.
        eapply (wp_std_copy _ _ _ _ lb 0 _ la 0 [] _ [] _ ys (take (length ys) xs));
          simpl; [done..|lia|done|done|done| |].
        -- intros fs' Hfs. by apply Hrest.
        -- intros fs' zs Hzs Hfs. repeat split; simpl; try done; try lia.
           ++ by rewrite lookup_insert_ne.
           ++ exists (zs ++ drop (length ys) xs).
              assert (length (zs ++ drop (length ys) xs) = length xs) as Hlen
                by (rewrite length_app; lia).
              repeat split; simpl; try done; try lia.
              ** by rewrite Hlen.
              ** rewrite lookup_insert_eq. unfold block_of.
                 by rewrite Hlen, fmap_app, <- app_assoc.
    + assert (length xs ≤ length ys) as Hxy by lia.
      assert (pa = Null ∨ pb = Null → xs = [] ∧ ys = []) as Hnull.
      { intros [->| ->]; split; apply length_zero_iff_nil; lia. }
      destruct (decide (pa = Null ∨ pb = Null)) as [Hdeg|Hptr].
      * destruct (Hnull Hdeg) as (-> & ->); simpl.
        apply wp_bind. apply wp_std_copy_0. apply wp_ret.
        eapply wp_set_size; [done|]. apply wp_ret. split; [done|].
        exists pa, ca. repeat split; simpl; try done; try lia.
        -- by rewrite lookup_insert_eq.
        -- by rewrite lookup_insert_ne.
      * destruct pa as [|la offa]; [by destruct Hptr; left|].
        destruct pb as [|lb offb]; [by destruct Hptr; right|]. clear Hnull Hptr.
        destruct Hpa as (-> & Hposa & Hla). destruct Hpb as (-> & Hposb & Hlb).
        simpl in Hla, Hlb. unfold block_of in Hla, Hlb.
        assert (lb ≠ la) as Hll by (intros ->; destruct Hsep; done).
        assert (length (take (length xs) ys) = length xs) as Htake
          by (rewrite length_take; lia).
        assert (length (drop (length xs) ys) = length ys - length xs) as Hdrop
          by apply length_drop.
        pose proof Hlb as Hlb'.
        rewrite <- (take_drop (length xs) ys) in Hlb at 1.
        rewrite fmap_app, <- app_assoc in Hlb.
        apply wp_bind.
        eapply (wp_std_copy _ _ _ _ lb 0 _ la 0 [] _ [] _ (take (length xs) ys) xs);
          simpl; [done..|lia|done|done|done| |].
        2:{ intros fs' zs Hzs Hfs. repeat split; simpl; try done; try lia.
            - by rewrite lookup_insert_ne.
            - exists zs. repeat split; simpl; try done; try lia.
              + by rewrite Hzs, Htake.
              + rewrite lookup_insert_eq. unfold block_of. by rewrite Hzs, Htake. }
        intros fs1 Hfs1.
        replace (replicate (ca - length xs) None) with
          (replicate (length ys - length xs) (@None V) ++ replicate (ca - length ys) None)
          by (rewrite <- replicate_add; f_equal; lia).
        eapply (wp_uninitialized_copy_n _ _ _ _ lb _ la _ _
                  (Some <$> take (length xs) ys) _ (Some <$> take (length xs) ys) _
                  (drop (length xs) ys)).
        -- done.
        -- by rewrite lookup_insert_ne.
        -- by rewrite lookup_insert_eq.
        -- by rewrite length_fmap.
        -- done.
        -- by rewrite length_fmap.
        -- intros fs2 Hfs2. rewrite insert_insert_eq.
           rewrite (app_assoc (Some <$> _)), <- fmap_app, take_drop.
           eapply wp_set_size; [done|]. apply wp_ret. split; [done|].
           exists (Ptr la 0), ca. repeat split; simpl; try done; try lia; try by auto.
           ++ by rewrite lookup_insert_eq.
           ++ by rewrite lookup_insert_eq.
           ++ by rewrite lookup_insert_ne.
           ++ by rewrite lookup_insert_ne.
        -- intros fs2 Hfs2. repeat split; simpl; try done; try lia.
           ++ intros ->. auto.
           ++ by rewrite lookup_insert_ne.
           ++ exists (take (length xs) ys). repeat split; simpl; try done; try lia.
              ** by rewrite Htake.
              ** rewrite lookup_insert_eq. unfold block_of.
                 rewrite Htake, <- replicate_add. do 3 f_equal. lia.
Qed.

(** *** [Emplace] into a non-empty vector with spare capacity *)

(** The [std::move_backward] of [Emplace]: the objects of the range move one
    slot up, onto the slot after the range; the first slot of the range
    keeps a live object. *)
Lemma wp_move_backward_loop vs hp fs al l lo dlo n pre mid w post Q E :
  hp !! l = Some (pre ++ (Some <$> mid) ++ Some w :: post) →
  n = length mid → lo = length pre + n → dlo = S lo →
  (∀ fs' u, (fs = [] → fs' = []) →
     (is_nothrow_move_assignable T = true → fs' = fs) →
     Q tt (mkState vs (<[l:=pre ++ Some u :: (Some <$> mid) ++ post]> hp) fs' al)) →
  (∀ fs' zs, length zs = S (length mid) → fs ≠ [] →
     is_nothrow_move_assignable T = false →
     E (mkState vs (<[l:=pre ++ (Some <$> zs) ++ post]> hp) fs' al)) →
  wp (move_backward_loop T (Ptr l lo) n (Ptr l dlo)) (mkState vs hp fs al) Q E.
Proof.
  revert hp fs lo dlo n w post Q E.
  induction mid as [|m mid IH] using rev_ind;
    intros hp fs lo dlo n w post Q E Hl -> -> -> HQ HE.
  - simpl in *. apply wp_ret.
    specialize (HQ fs w (λ H, H) (λ _, eq_refl)). by rewrite insert_id in HQ.
  - rewrite fmap_app, <- app_assoc in Hl. simpl in Hl.
    rewrite app_assoc in Hl.
    assert (length (pre ++ (Some <$> mid)) = length pre + length mid) as Hlen
      by (by rewrite length_app, length_fmap).
    rewrite length_app, Nat.add_1_r. simpl.
    replace (length pre + S (length mid) - 0) with (S (length pre + length mid)) by lia.
    replace (length pre + S (length mid) - 1) with (length pre + length mid) by lia.
    apply wp_bind.
    eapply wp_move_assign_within; [done|by apply list_lookup_middle| | |].
    { rewrite (cons_middle (Some m)), app_assoc.
      apply list_lookup_middle. rewrite length_app; simpl; lia. }
    2:{ intros fs' Hfs Hnt. rewrite <- (insert_id hp l _ Hl).
        replace ((pre ++ (Some <$> mid)) ++ Some m :: Some w :: post)
          with (pre ++ (Some <$> (mid ++ [m; w])) ++ post)
          by (by rewrite fmap_app, <- !app_assoc).
        apply HE; [|done..]. rewrite !length_app; simpl. lia. }
    intros fs1 Hfs1 Hnt1.
    rewrite (cons_middle (Some m)), app_assoc.
    rewrite (insert_middle (_ ++ [Some m])) by (rewrite length_app; simpl; lia).
    rewrite <- app_assoc. simpl.
    rewrite (insert_middle (pre ++ (Some <$> mid))) by done.
    rewrite <- app_assoc.
    eapply (IH _ _ _ _ _ (moved_from T m) (Some m :: post)).
    + by rewrite lookup_insert_eq.
    + done.
    + done.
    + done.
    + intros fs' u Hfs' Hnt'. rewrite insert_insert_eq.
      replace ((Some <$> mid) ++ Some m :: post) with ((Some <$> (mid ++ [m])) ++ post)
        by (by rewrite fmap_app, <- app_assoc).
      apply HQ; [auto|]. intros Ht. by rewrite Hnt', Hnt1.
    + intros fs' zs Hzs Hfs' Hnt'. rewrite insert_insert_eq.
      replace ((Some <$> zs) ++ Some m :: post) with ((Some <$> (zs ++ [m])) ++ post)
        by (by rewrite fmap_app, <- app_assoc).
      apply HE; [rewrite !length_app; simpl; lia| |done]. intros ->. auto.
Qed.

Lemma wp_std_move_backward vs hp fs al l fo lo dlo pre mid w post Q E :
  hp !! l = Some (pre ++ (Some <$> mid) ++ Some w :: post) →
  fo = length pre → lo = fo + length mid → dlo = S lo →
  (∀ fs' u, (fs = [] → fs' = []) →
     (is_nothrow_move_assignable T = true → fs' = fs) →
     Q tt (mkState vs (<[l:=pre ++ Some u :: (Some <$> mid) ++ post]> hp) fs' al)) →
  (∀ fs' zs, length zs = S (length mid) → fs ≠ [] →
     is_nothrow_move_assignable T = false →
     E (mkState vs (<[l:=pre ++ (Some <$> zs) ++ post]> hp) fs' al)) →
  wp (std_move_backward T (Ptr l fo) (Ptr l lo) (Ptr l dlo)) (mkState vs hp fs al) Q E.
Proof.
  intros Hl -> -> -> HQ HE. unfold std_move_backward. apply wp_bind.
  eapply wp_ptr_diff; [done|]. by eapply wp_move_backward_loop.
Qed.

Lemma block_of_snoc_spare ys z cap :
  length ys + 1 < cap →
  block_of (ys ++ [z]) cap =
    (Some <$> ys) ++ Some z :: None :: replicate (cap - length ys - 2) None.
Proof.
  intros Hlt. unfold block_of. rewrite fmap_app, <- app_assoc, length_app. simpl.
  replace (cap - (length ys + 1)) with (S (cap - length ys - 2)) by lia. done.
Qed.

(** What [Emplace] does with spare capacity: the last element is first
    moved to the new trailing slot, and then its moved-from remains are
    shifted over it, so the sequence afterwards is built from
    [ys ++ [moved_from z]] instead of [ys ++ [z]]. *)
Lemma Emplace_spare_spec st this p ys z cap index (a : Args V) :
  owns st this p (ys ++ [z]) cap → length ys + 1 < cap → index ≤ length ys + 1 →
  wp (Emplace T this (ptr_add p index) a) st
    (λ r st',
       owns st' this p
         (take index (ys ++ [moved_from T z]) ++
          args_value a :: drop index (ys ++ [moved_from T z])) cap ∧
       r = ptr_add p index ∧ allocs st' = allocs st ∧
       (faults st = [] → faults st' = []))
    (λ st', faults st ≠ []).
Proof.
  destruct st as [vs hp fs al]. intros (Hv & Hle & Hp) Hspare Hidx; simpl in Hv.
  destruct p as [|l off]; [lia|]. destruct Hp as (-> & Hpos & Hl); simpl in Hl.
  rewrite block_of_snoc_spare in Hl by done.
  rewrite length_app in Hv; simpl in Hv.
  set (xs' := ys ++ [moved_from T z]).
  assert (length xs' = length ys + 1) as Hxs' by (unfold xs'; rewrite length_app; done).
  set (rest := replicate (cap - length ys - 2) (@None V)).
  unfold Emplace. apply wp_bind. eapply wp_begin; [done|]. simpl.
  apply wp_bind. eapply (wp_ptr_diff _ _ _ index); [done|].
  apply wp_bind. eapply wp_get_vec; [done|]. simpl.
  unfold RawMemory_Capacity, GetAddress; simpl.
  rewrite !decide_True by lia.
  apply wp_bind, wp_bind, wp_bind.
  apply wp_RawMemory_plus; [simpl; lia|]. simpl.
  replace (length ys + 1 - 1) with (length ys) by lia.
  apply wp_bind.
  eapply wp_move_construct_within;
    [done|apply list_lookup_middle; by rewrite length_fmap| |lia| |done].
  { rewrite length_app, length_fmap; simpl. unfold rest. rewrite length_replicate. lia. }
  intros fs1 Hfs1 _.
  rewrite (cons_middle (Some z)), app_assoc.
  rewrite (insert_middle (_ ++ [Some z])) by (rewrite length_app, length_fmap; simpl; lia).
  rewrite <- app_assoc. simpl.
  rewrite (insert_middle (Some <$> ys)) by by rewrite length_fmap.
  replace ((Some <$> ys) ++ Some (moved_from T z) :: Some z :: rest)
    with ((Some <$> take index xs') ++ (Some <$> drop index xs') ++ Some z :: rest).
  2:{ rewrite app_assoc, <- fmap_app, take_drop. unfold xs'.
      by rewrite fmap_app, <- app_assoc. }
  assert (length (take index xs') = index) as Htake by (rewrite length_take; lia).
  assert (length (drop index xs') = length ys + 1 - index) as Hdrop
    by (rewrite length_drop; lia).
  apply wp_bind, wp_unwinding.
  eapply (wp_std_move_backward _ _ _ _ l _ _ _ (Some <$> take index xs') (drop index xs'));
    [by rewrite lookup_insert_eq|by rewrite length_fmap, Htake|lia|lia| |].
  2:{ intros fs' zs Hzs Hfs Hnt. rewrite insert_insert_eq.
      destruct zs as [|zl zs _] using rev_ind; [done|].
      rewrite length_app in Hzs; simpl in Hzs.
      rewrite fmap_app, <- app_assoc, app_assoc.
      eapply (wp_destroy_n _ _ _ _ l _ 1 _ [zl]);
        [by rewrite lookup_insert_eq| |done|].
      - rewrite length_app, !length_fmap. lia.
      - intros ->. auto. }
  intros fs2 u Hfs2 _. rewrite insert_insert_eq.
  eapply wp_destroy_at;
    [by rewrite lookup_insert_eq|apply list_lookup_middle; by rewrite length_fmap|].
  rewrite insert_insert_eq, insert_middle by by rewrite length_fmap.
  apply wp_bind. apply wp_RawMemory_plus; [simpl; lia|]. simpl.
  apply wp_bind.
  eapply wp_construct; [by rewrite lookup_insert_eq| | |].
  { rewrite length_app, length_fmap; simpl. lia. }
  2:{ intros fs' Hfs. intros ->. auto. }
  intros fs3 Hfs3. rewrite insert_insert_eq, insert_middle by by rewrite length_fmap.
  apply wp_ret.
  apply wp_bind. eapply wp_get_vec; [done|]. simpl.
  apply wp_bind. eapply wp_set_size; [done|]. apply wp_ret.
  assert (length (take index xs' ++ args_value a :: drop index xs') = length ys + 1 + 1)
    as Hlen by (rewrite length_insert_at; lia).
  repeat split; simpl; try done; try lia; try by auto.
  - by rewrite lookup_insert_eq, Hlen.
  - rewrite lookup_insert_eq. f_equal. unfold block_of.
    rewrite fmap_app, <- app_assoc, Hlen. simpl. do 3 f_equal.
    unfold rest. f_equal. lia.
Qed.

(** *** [Resize] *)

Lemma wp_uninitialized_value_construct_n vs hp fs al l off n dpre dpost Q E :
  hp !! l = Some (dpre ++ replicate n None ++ dpost) → off = length dpre →
  (∀ fs', (fs = [] → fs' = []) →
     Q tt (mkState vs (<[l:=dpre ++ replicate n (Some (value_init T)) ++ dpost]> hp)
                   fs' al)) →
  (∀ fs', fs ≠ [] → E (mkState vs hp fs' al)) →
  wp (uninitialized_value_construct_n T (Ptr l off) n) (mkState vs hp fs al) Q E.
Proof.
  revert hp fs off dpre Q E.
  induction n as [|n IH]; intros hp fs off dpre Q E Hl -> HQ HE.
  - simpl in *. apply wp_ret. rewrite <- (insert_id hp l _ Hl). by apply HQ.
  - simpl in Hl. simpl. apply wp_bind.
    eapply wp_value_construct; [done| | |done].
    { eapply lookup_lt_Some. by apply list_lookup_middle. }
    intros fs1 Hfs1. rewrite (insert_middle dpre) by done.
    apply wp_unwinding.
    eapply (IH _ _ _ (dpre ++ [Some (value_init T)])).
    + by rewrite lookup_insert_eq, snoc_app.
    + rewrite length_app; simpl; lia.
    + intros fs' Hfs'. rewrite insert_insert_eq, snoc_app. apply HQ. auto.
    + intros fs' Hfs'.
      eapply wp_destroy_at; [by rewrite lookup_insert_eq|by apply list_lookup_middle|].
      rewrite insert_insert_eq, (insert_middle dpre) by done.
      rewrite insert_id by done. apply HE. intros ->. auto.
Qed.

Lemma Resize_spec st this p xs cap n :
  owns st this p xs cap →
  wp (Resize T this n) st
    (λ _ st', ∃ p',
       owns st' this p' (take n xs ++ replicate (n - length xs) (value_init T))
            (cap `max` n) ∧
       (faults st = [] → faults st' = []) ∧
       (n ≤ cap → p' = p ∧ allocs st' = allocs st) ∧
       (n ≤ length xs → faults st' = faults st))
    (λ st', faults st ≠ [] ∧
            ∃ p' ys cap', length ys = length xs ∧ owns st' this p' ys cap' ∧
              length xs < n ∧ cap ≤ cap' ∧
              (is_nothrow_move_constructible T || is_copy_constructible T = true →
               ys = xs)).
Proof.
  intros Ho. unfold Resize. apply wp_bind.
  destruct st as [vs hp fs al]. pose proof Ho as (Hv & Hle & Hp); simpl in Hv.
  eapply wp_get_vec; [done|]. simpl. unfold GetAddress; simpl.
  destruct (decide (n ≠ length xs)) as [Hn|Hn].
  2:{ apply wp_ret. exists p. assert (n = length xs) as -> by lia.
      rewrite Nat.sub_diag, firstn_all, app_nil_r, Nat.max_l by done. done. }
  destruct (decide (n < length xs)) as [Hshrink|Hgrow].
  - destruct p as [|l off]; [lia|]. destruct Hp as (-> & Hpos & Hl); simpl in Hl.
    unfold block_of in Hl.
    rewrite <- (take_drop n xs) in Hl at 1.
    rewrite fmap_app, <- app_assoc in Hl.
    assert (length (take n xs) = n) as Htake by (rewrite length_take; lia).
    apply wp_bind.
    eapply (wp_destroy_n _ _ _ _ l _ _ (Some <$> take n xs) (drop n xs));
      [done|by rewrite length_fmap, Htake|by rewrite length_drop|].
    eapply wp_set_size; [done|]. simpl.
    exists (Ptr l 0). replace (n - length xs) with 0 by lia.
    rewrite app_nil_r, Nat.max_l by lia.
    repeat split; simpl; try done; try lia.
    + by rewrite lookup_insert_eq, Htake.
    + rewrite lookup_insert_eq. unfold block_of.
      rewrite Htake, <- replicate_add. do 3 f_equal. lia.
  - apply wp_bind. eapply wp_mono; [by apply (Reserve_spec _ _ _ _ _ n Ho)| |].
    2:{ intros st' (Hfs & Hvs & Hhp & ys & Hys & Ho'). split; [done|].
        destruct (is_nothrow_move_constructible T || is_copy_constructible T) eqn:Hsafe.
        - exists p, xs, cap. split; [done|].
          split; [unfold owns; rewrite Hvs, Hhp by done; exact Ho|]. split; [lia|]. done.
        - exists p, ys, cap. split; [done|]. split; [done|]. split; [lia|]. done. }
    intros _ [vs1 hp1 fs1 al1] (p1 & Ho1 & Hsame & _ & Hfs1). simpl in Hfs1.
    set (c := cap `max` n) in *.
    assert (n ≤ c) as Hnc by (unfold c; lia).
    pose proof Ho1 as (Hv1 & Hle1 & Hp1); simpl in Hv1.
    apply wp_bind. eapply wp_get_vec; [done|]. simpl. unfold GetAddress; simpl.
    destruct p1 as [|l off]; [lia|]. destruct Hp1 as (-> & Hpos1 & Hl1); simpl in Hl1.
    unfold block_of in Hl1.
    replace (replicate (c - length xs) None) with
      (replicate (n - length xs) (@None V) ++ replicate (c - n) None) in Hl1
      by (rewrite <- replicate_add; f_equal; lia).
    apply wp_bind.
    eapply (wp_uninitialized_value_construct_n _ _ _ _ l _ _ (Some <$> xs));
      [done|by rewrite length_fmap| |].
    2:{ intros fs' Hfs. split; [intros ->; auto|].
        exists (Ptr l 0), xs, c. split; [done|]. split; [exact Ho1|].
        split; [lia|]. split; [unfold c; lia|done]. }
    intros fs2 Hfs2. eapply wp_set_size; [done|]. simpl.
    exists (Ptr l 0).
    assert (length (take n xs ++ replicate (n - length xs) (value_init T)) = n) as Hlen.
    { rewrite length_app, length_take, length_replicate. lia. }
    assert (n ≤ cap → Ptr l 0 = p ∧ al1 = al) as Hstay.
    { intros Hnc'. specialize (Hsame Hnc'). injection Hsame as -> _ _ ->.
      rewrite Hv in Hv1. by injection Hv1 as ->. }
    repeat split; simpl; try done; try lia; try (by auto); try (by apply Hstay).
    + by rewrite lookup_insert_eq, Hlen.
    + rewrite lookup_insert_eq. unfold block_of.
      rewrite Hlen, firstn_all2 by lia.
      by rewrite fmap_app, fmap_replicate, <- app_assoc.
Qed.

End rules.

(** ** Capacity never shrinks *)
Section capacity.
Context {V : Type} (T : ElemType V).
Implicit Types (st : State (V:=V)).

Lemma wlp_of_wp {A} (m : M A) st Q E : wp m st Q E → wlp m st Q E.
Proof. unfold wp, wlp. by destruct (m st). Qed.

Lemma wlp_ret {A} (a : A) st Q E : Q a st → wlp (ret a) st Q E.
Proof. done. Qed.

Lemma wlp_bind {A B} (m : M A) (k : A → M B) st Q E :
  wlp m st (λ a st', wlp (k a) st' Q E) E → wlp (bind m k) st Q E.
Proof. unfold wlp, bind. by destruct (m st). Qed.

Lemma wlp_mono {A} (m : M A) st (Q Q' : A → State → Prop) (E E' : State → Prop) :
  wlp m st Q E →
  (∀ a st', Q a st' → Q' a st') → (∀ st', E st' → E' st') →
  wlp m st Q' E'.
Proof. unfold wlp. destruct (m st); auto. Qed.

Lemma wlp_unwinding {A} (cleanup : M unit) (body : M A) st Q E :
  wlp body st Q (λ st', wlp cleanup st' (λ _ st'', E st'') (λ _, True)) →
  wlp (unwinding cleanup body) st Q E.
Proof.
  unfold wlp, unwinding. destruct (body st) as [a st'|st'|]; [done| |done].
  by destruct (cleanup st').
Qed.

Lemma wlp_keeps {A} (m : M A) st Q E :
  keeps_vecs m →
  (∀ a st', vecs st' = vecs st → Q a st') →
  (∀ st', vecs st' = vecs st → E st') →
  wlp m st Q E.
Proof.
  intros Hm HQ HE. specialize (Hm st). unfold wlp in *.
  destruct (m st); auto.
Qed.

Lemma wlp_get_vec (this : nat) st Q E :
  (∀ v, vecs st !! this = Some v → Q v st) → wlp (get_vec this) st Q E.
Proof.
  intros HQ. unfold wlp, get_vec. destruct (vecs st !! this) eqn:Hv; auto.
Qed.

Lemma wlp_put_vec (this : nat) (v : Vector) st Q E :
  Q tt (set_vecs (insert this v) st) → wlp (put_vec this v) st Q E.
Proof. done. Qed.

Lemma wlp_set_size (this n : nat) st Q E :
  (∀ v, vecs st !! this = Some v →
        Q tt (set_vecs (insert this {| size_ := n; data_ := data_ v |}) st)) →
  wlp (set_size this n) st Q E.
Proof.
  intros HQ. unfold set_size. apply wlp_bind, wlp_get_vec. intros v Hv.
  by apply wlp_put_vec, HQ.
Qed.

Lemma wlp_set_data (this : nat) (r : RawMemory) st Q E :
  (∀ v, vecs st !! this = Some v →
        Q tt (set_vecs (insert this {| size_ := size_ v; data_ := r |}) st)) →
  wlp (set_data this r) st Q E.
Proof.
  intros HQ. unfold set_data. apply wlp_bind, wlp_get_vec. intros v Hv.
  by apply wlp_put_vec, HQ.
Qed.

(** *** Operations that keep the vector objects *)

Lemma keeps_ret {A} (a : A) : keeps_vecs (V:=V) (ret a).
Proof. by intros st. Qed.

Lemma keeps_fault {A} : keeps_vecs (V:=V) (@fault V A).
Proof. by intros st. Qed.

Lemma keeps_bind {A B} (m : M A) (k : A → M B) :
  keeps_vecs (V:=V) m → (∀ a, keeps_vecs (k a)) → keeps_vecs (bind m k).
Proof.
  intros Hm Hk st. apply wlp_bind. apply wlp_keeps; [done| |done].
  intros a st' Hst'. eapply wlp_mono; [apply Hk|..]; simpl; congruence.
Qed.

Lemma keeps_unwinding {A} (cleanup : M unit) (body : M A) :
  keeps_vecs (V:=V) cleanup → keeps_vecs body → keeps_vecs (unwinding cleanup body).
Proof.
  intros Hc Hb st. apply wlp_unwinding. apply wlp_keeps; [done|done|].
  intros st' Hst'. eapply wlp_mono; [apply Hc|..]; simpl; [congruence|done].
Qed.

Lemma keeps_assert (c : bool) : keeps_vecs (V:=V) (assert c).
Proof. destruct c; [apply keeps_ret|apply keeps_fault]. Qed.

Lemma keeps_may_throw : keeps_vecs (V:=V) may_throw.
Proof. intros [vs hp fs al]. unfold wlp, may_throw; simpl. by destruct fs as [|[] fs]. Qed.

Lemma keeps_may_throw_unless (c : bool) : keeps_vecs (V:=V) (may_throw_unless c).
Proof. destruct c; [apply keeps_ret|apply keeps_may_throw]. Qed.

Lemma keeps_load (p : ptr) : keeps_vecs (V:=V) (load p).
Proof.
  intros st. unfold wlp, load. destruct p as [|l off]; [done|].
  destruct (heap st !! l) as [b|]; [|done]. by destruct (b !! off) as [[v|]|].
Qed.

Lemma keeps_store (p : ptr) (s : option V) : keeps_vecs (store p s).
Proof.
  intros st. unfold wlp, store. destruct p as [|l off]; [done|].
  destruct (heap st !! l) as [b|]; [|done]. by case_decide.
Qed.

Lemma keeps_get_vec (this : nat) : keeps_vecs (V:=V) (get_vec this).
Proof. intros st. unfold wlp, get_vec. by destruct (vecs st !! this). Qed.

Lemma keeps_ptr_diff (p q : ptr) : keeps_vecs (V:=V) (ptr_diff p q).
Proof.
  unfold ptr_diff. destruct p, q; try apply keeps_ret; try apply keeps_fault.
  case_decide; [apply keeps_ret|apply keeps_fault].
Qed.

End capacity.

Create HintDb keeps discriminated.
#[export] Hint Resolve keeps_ret keeps_fault keeps_bind keeps_unwinding keeps_assert
  keeps_may_throw keeps_may_throw_unless keeps_load keeps_store keeps_get_vec
  keeps_ptr_diff : keeps.

Ltac keeps :=
  repeat first
    [ progress intros
    | apply keeps_bind
    | apply keeps_unwinding
    | match goal with
      | |- keeps_vecs (if ?c then _ else _) => destruct c
      | |- keeps_vecs (match ?x with _ => _ end) => destruct x
      end
    | solve [eauto with keeps] ].

Section capacity_ops.
Context {V : Type} (T : ElemType V).
Implicit Types (st : State (V:=V)).

Lemma keeps_destroy_at (p : ptr) : keeps_vecs (V:=V) (destroy_at p).
Proof. unfold destroy_at. keeps. Qed.

Lemma keeps_copy_construct (p q : ptr) : keeps_vecs (V:=V) (copy_construct p q).
Proof. unfold copy_construct. keeps. Qed.

Lemma keeps_move_construct (p q : ptr) : keeps_vecs (move_construct T p q).
Proof. unfold move_construct. keeps. Qed.

Lemma keeps_copy_assign (p q : ptr) : keeps_vecs (V:=V) (copy_assign p q).
Proof. unfold copy_assign. keeps. Qed.

Lemma keeps_move_assign (p q : ptr) : keeps_vecs (move_assign T p q).
Proof. unfold move_assign. keeps. Qed.

Lemma keeps_value_construct (p : ptr) : keeps_vecs (value_construct T p).
Proof. unfold value_construct. keeps. Qed.

Lemma keeps_construct (p : ptr) (a : Args V) : keeps_vecs (construct T p a).
Proof. unfold construct. keeps. Qed.

Hint Resolve keeps_destroy_at keeps_copy_construct keeps_move_construct
  keeps_copy_assign keeps_move_assign keeps_value_construct keeps_construct : keeps.

Lemma keeps_destroy_n (p : ptr) (n : nat) : keeps_vecs (V:=V) (destroy_n p n).
Proof. revert p. induction n; simpl; keeps. Qed.

Lemma keeps_uninitialized_copy_n (p : ptr) (n : nat) (q : ptr) :
  keeps_vecs (V:=V) (uninitialized_copy_n p n q).
Proof. revert p q. induction n; simpl; keeps. Qed.

Lemma keeps_uninitialized_move_n (p : ptr) (n : nat) (q : ptr) :
  keeps_vecs (uninitialized_move_n T p n q).
Proof. revert p q. induction n; simpl; keeps. Qed.

Lemma keeps_uninitialized_value_construct_n (p : ptr) (n : nat) :
  keeps_vecs (uninitialized_value_construct_n T p n).
Proof. revert p. induction n; simpl; keeps. Qed.

Lemma keeps_copy_loop (p : ptr) (n : nat) (q : ptr) :
  keeps_vecs (V:=V) (copy_loop p n q).
Proof. revert p q. induction n; simpl; keeps. Qed.

Lemma keeps_move_loop (p : ptr) (n : nat) (q : ptr) :
  keeps_vecs (move_loop T p n q).
Proof. revert p q. induction n; simpl; keeps. Qed.

Lemma keeps_move_backward_loop (p : ptr) (n : nat) (q : ptr) :
  keeps_vecs (move_backward_loop T p n q).
Proof. revert p q. induction n; simpl; keeps. Qed.

Hint Resolve keeps_destroy_n keeps_uninitialized_copy_n keeps_uninitialized_move_n
  keeps_uninitialized_value_construct_n keeps_copy_loop keeps_move_loop
  keeps_move_backward_loop : keeps.

Lemma keeps_std_copy (p e q : ptr) : keeps_vecs (V:=V) (std_copy p e q).
Proof. unfold std_copy. keeps. Qed.

Lemma keeps_std_move (p e q : ptr) : keeps_vecs (std_move T p e q).
Proof. unfold std_move. keeps. Qed.

Lemma keeps_std_move_backward (p e q : ptr) : keeps_vecs (std_move_backward T p e q).
Proof. unfold std_move_backward. keeps. Qed.

Lemma keeps_Allocate (n : nat) : keeps_vecs (V:=V) (Allocate n).
Proof.
  unfold Allocate. destruct n; [apply keeps_ret|].
  apply keeps_bind; [apply keeps_may_throw|]. by intros _ st.
Qed.

Lemma keeps_Deallocate (p : ptr) : keeps_vecs (V:=V) (Deallocate p).
Proof.
  unfold Deallocate. destruct p as [|l [|off]]; [apply keeps_ret| |apply keeps_fault].
  intros st. unfold wlp. by destruct (heap st !! l).
Qed.

Hint Resolve keeps_std_copy keeps_std_move keeps_std_move_backward keeps_Allocate
  keeps_Deallocate : keeps.

Lemma keeps_RawMemory_delete (r : RawMemory) : keeps_vecs (V:=V) (RawMemory_delete r).
Proof. unfold RawMemory_delete. keeps. Qed.

Lemma keeps_RawMemory_plus (r : RawMemory) (n : nat) : keeps_vecs (V:=V) (RawMemory_plus r n).
Proof. unfold RawMemory_plus. keeps. Qed.

Lemma keeps_RawMemory_index (r : RawMemory) (n : nat) : keeps_vecs (V:=V) (RawMemory_index r n).
Proof. unfold RawMemory_index. keeps. Qed.

Lemma keeps_begin (this : nat) : keeps_vecs (V:=V) (begin this).
Proof. unfold begin. keeps. Qed.

Lemma keeps_end (this : nat) : keeps_vecs (V:=V) (end_ this).
Proof. unfold end_. keeps. Qed.

Hint Resolve keeps_RawMemory_delete keeps_RawMemory_plus keeps_RawMemory_index
  keeps_begin keeps_end : keeps.

Lemma wlp_RawMemory_new (n : nat) st Q E :
  (∀ r st', capacity_ r = n → vecs st' = vecs st → Q r st') →
  (∀ st', vecs st' = vecs st → E st') →
  wlp (RawMemory_new n) st Q E.
Proof.
  intros HQ HE. unfold RawMemory_new. apply wlp_bind.
  apply wlp_keeps; [apply keeps_Allocate| |done].
  intros buf st' Hst'. apply wlp_ret. by apply HQ.
Qed.

Lemma cap_ge_keep st st' (this c : nat) :
  vecs st' = vecs st → cap_ge st this c → cap_ge st' this c.
Proof. unfold cap_ge. by intros ->. Qed.

Lemma cap_ge_insert st (this c : nat) (v : Vector) :
  c ≤ capacity_ (data_ v) → cap_ge (set_vecs (insert this v) st) this c.
Proof. intros Hc. exists v. simpl. by rewrite lookup_insert_eq. Qed.

Lemma cap_ge_lookup st (this c : nat) (v : Vector) :
  cap_ge st this c → vecs st !! this = Some v → c ≤ capacity_ (data_ v).
Proof. intros (v' & Hv' & Hc) Hv. congruence. Qed.

End capacity_ops.

#[export] Hint Resolve keeps_destroy_at keeps_copy_construct keeps_move_construct
  keeps_copy_assign keeps_move_assign keeps_value_construct keeps_construct
  keeps_destroy_n keeps_uninitialized_copy_n keeps_uninitialized_move_n
  keeps_uninitialized_value_construct_n keeps_copy_loop keeps_move_loop
  keeps_move_backward_loop keeps_std_copy keeps_std_move keeps_std_move_backward
  keeps_Allocate keeps_Deallocate keeps_RawMemory_delete keeps_RawMemory_plus
  keeps_RawMemory_index keeps_begin keeps_end : keeps.

Section capacity_methods.
Context {V : Type} (T : ElemType V).
Implicit Types (st : State (V:=V)).

Lemma wlp_keeps_cap {A} (m : M A) (this c : nat) st Q E :
  keeps_vecs m → cap_ge st this c →
  (∀ a st', vecs st' = vecs st → cap_ge st' this c → Q a st') →
  (∀ st', cap_ge st' this c → E st') →
  wlp m st Q E.
Proof.
  intros Hm Hc HQ HE. apply wlp_keeps; [done|..].
  - intros a st' Hst'. apply HQ; [done|]. by eapply cap_ge_keep.
  - intros st' Hst'. apply HE. by eapply cap_ge_keep.
Qed.

Lemma set_size_cap (this n c : nat) st Q E :
  cap_ge st this c →
  (∀ st', cap_ge st' this c → Q tt st') →
  wlp (set_size this n) st Q E.
Proof.
  intros Hc HQ. apply wlp_set_size. intros v Hv. apply HQ.
  apply cap_ge_insert. simpl. by eapply cap_ge_lookup.
Qed.

Lemma Reserve_cap (this n c : nat) st :
  cap_ge st this c →
  wlp (Reserve T this n) st (λ _ st', cap_ge st' this c) (λ st', cap_ge st' this c).
Proof.
  intros Hc. unfold Reserve. apply wlp_bind, wlp_get_vec. intros v Hv.
  pose proof (cap_ge_lookup _ _ _ _ Hc Hv) as Hcv.
  unfold RawMemory_Capacity. case_decide; [by apply wlp_ret|].
  apply wlp_bind, wlp_RawMemory_new; [|intros; by eapply cap_ge_keep].
  intros r st1 Hr H1. apply wlp_bind.
  eapply (wlp_keeps_cap _ this c); [keeps|by eapply cap_ge_keep| |done].
  intros ? st2 _ Hc2. apply wlp_bind, wlp_set_data. intros v2 Hv2.
  eapply (wlp_keeps_cap _ this c); [keeps|apply cap_ge_insert; simpl; lia|done..].
Qed.

Lemma PopBack_cap (this c : nat) st :
  cap_ge st this c →
  wlp (PopBack this) st (λ _ st', cap_ge st' this c) (λ st', cap_ge st' this c).
Proof.
  intros Hc. unfold PopBack. apply wlp_bind, wlp_get_vec. intros v Hv.
  case_decide; [|by apply wlp_ret]. apply wlp_bind.
  eapply (wlp_keeps_cap _ this c); [keeps|done| |done].
  intros ? st1 _ Hc1. by eapply set_size_cap.
Qed.

Lemma Resize_cap (this n c : nat) st :
  cap_ge st this c →
  wlp (Resize T this n) st (λ _ st', cap_ge st' this c) (λ st', cap_ge st' this c).
Proof.
  intros Hc. unfold Resize. apply wlp_bind, wlp_get_vec. intros v Hv.
  case_decide; [|by apply wlp_ret]. case_decide.
  - apply wlp_bind. eapply (wlp_keeps_cap _ this c); [keeps|done| |done].
    intros ? st1 _ Hc1. by eapply set_size_cap.
  - apply wlp_bind. eapply wlp_mono; [by apply Reserve_cap| |done].
    intros ? st1 Hc1. apply wlp_bind, wlp_get_vec. intros v1 Hv1. apply wlp_bind.
    eapply (wlp_keeps_cap _ this c); [keeps|done| |done].
    intros ? st2 _ Hc2. by eapply set_size_cap.
Qed.

Lemma EmplaceBack_cap (this c : nat) (a : Args V) st :
  cap_ge st this c →
  wlp (EmplaceBack T this a) st (λ _ st', cap_ge st' this c) (λ st', cap_ge st' this c).
Proof.
  intros Hc. unfold EmplaceBack. apply wlp_bind, wlp_get_vec. intros v Hv.
  pose proof (cap_ge_lookup _ _ _ _ Hc Hv) as Hcv.
  unfold RawMemory_Capacity.
  assert (∀ st', cap_ge st' this c →
    wlp (v0 <- get_vec this;; set_size this (size_ v0 + 1);;;
         v1 <- get_vec this;; RawMemory_index (data_ v1) (size_ v1 - 1)) st'
      (λ _ st'', cap_ge st'' this c) (λ st'', cap_ge st'' this c)) as Htail.
  { intros st' Hc'. apply wlp_bind, wlp_get_vec. intros v0 Hv0. apply wlp_bind.
    eapply set_size_cap; [done|]. intros st2 Hc2.
    eapply (wlp_keeps_cap _ this c); [keeps|done..]. }
  apply wlp_bind. case_decide.
  - eapply (wlp_keeps_cap _ this c); [keeps|done| |done]. intros ? st1 _ Hc1. by apply Htail.
  - apply wlp_bind, wlp_RawMemory_new; [|intros; by eapply cap_ge_keep].
    intros r st1 Hr H1. apply wlp_bind.
    eapply (wlp_keeps_cap _ this c); [keeps|by eapply cap_ge_keep| |done].
    intros ? st2 _ Hc2. apply wlp_bind.
    eapply (wlp_keeps_cap _ this c); [keeps|done| |done].
    intros ? st3 _ Hc3. apply wlp_bind, wlp_set_data. intros v3 Hv3.
    eapply (wlp_keeps_cap _ this c); [keeps| | |done].
    + apply cap_ge_insert. simpl. rewrite Hr. case_decide; lia.
    + intros ? st4 _ Hc4. by apply Htail.
Qed.

Lemma Emplace_cap (this c : nat) (pos : ptr) (a : Args V) st :
  cap_ge st this c →
  wlp (Emplace T this pos a) st (λ _ st', cap_ge st' this c) (λ st', cap_ge st' this c).
Proof.
  intros Hc. unfold Emplace. apply wlp_bind.
  eapply (wlp_keeps_cap _ this c); [keeps|done| |done]. intros b st0 _ Hc0. apply wlp_bind.
  eapply (wlp_keeps_cap _ this c); [keeps|done| |done]. intros index st1 _ Hc1.
  apply wlp_bind, wlp_get_vec. intros v Hv.
  pose proof (cap_ge_lookup _ _ _ _ Hc1 Hv) as Hcv.
  unfold RawMemory_Capacity.
  assert (∀ (result : ptr) st', cap_ge st' this c →
    wlp (v0 <- get_vec this;; set_size this (size_ v0 + 1);;; ret result) st'
      (λ _ st'', cap_ge st'' this c) (λ st'', cap_ge st'' this c)) as Htail.
  { intros result st' Hc'. apply wlp_bind, wlp_get_vec. intros v0 Hv0. apply wlp_bind.
    eapply set_size_cap; [done|]. intros st2 Hc2. by apply wlp_ret. }
  apply wlp_bind. case_decide.
  - eapply (wlp_keeps_cap _ this c); [keeps|done| |done]. intros r st2 _ Hc2. by apply Htail.
  - apply wlp_bind, wlp_RawMemory_new; [|intros; by eapply cap_ge_keep].
    intros r st2 Hr H2. apply wlp_bind.
    eapply (wlp_keeps_cap _ this c); [keeps|by eapply cap_ge_keep| |done].
    intros result st3 _ Hc3. apply wlp_bind.
    eapply (wlp_keeps_cap _ this c); [keeps|done| |done].
    intros ? st4 _ Hc4. apply wlp_bind, wlp_set_data. intros v4 Hv4. apply wlp_bind.
    eapply (wlp_keeps_cap _ this c); [keeps| | |done].
    + apply cap_ge_insert. simpl. rewrite Hr. case_decide; lia.
    + intros ? st5 _ Hc5. apply wlp_ret. by apply Htail.
Qed.

Lemma Erase_cap (this c : nat) (pos : ptr) st :
  cap_ge st this c →
  wlp (Erase T this pos) st (λ _ st', cap_ge st' this c) (λ st', cap_ge st' this c).
Proof.
  intros Hc. unfold Erase. apply wlp_bind.
  eapply (wlp_keeps_cap _ this c); [keeps|done| |done]. intros b st0 _ Hc0. apply wlp_bind.
  eapply (wlp_keeps_cap _ this c); [keeps|done| |done]. intros index st1 _ Hc1. apply wlp_bind.
  eapply (wlp_keeps_cap _ this c); [keeps|done| |done]. intros e st2 _ Hc2. apply wlp_bind.
  eapply (wlp_keeps_cap _ this c); [keeps|done| |done]. intros ? st3 _ Hc3. apply wlp_bind.
  eapply wlp_mono; [by apply PopBack_cap| |done]. intros ? st4 Hc4.
  eapply (wlp_keeps_cap _ this c); [keeps|done..].
Qed.

Lemma wlp_Swap (this other : nat) (va vb : Vector) st Q E :
  this ≠ other → vecs st !! this = Some va → vecs st !! other = Some vb →
  Q tt (set_vecs (λ vs, <[other:=va]> (<[this:=vb]> vs)) st) →
  wlp (Swap this other) st Q E.
Proof.
  destruct st as [vs hp fs al]. intros Hne Ha Hb HQ.
  apply wlp_of_wp. by eapply wp_Swap.
Qed.

Lemma assign_copy_cap (this rhs c : nat) st :
  cap_ge st this c →
  wlp (assign_copy this rhs) st (λ _ st', cap_ge st' this c) (λ st', cap_ge st' this c).
Proof.
  intros Hc. unfold assign_copy. case_decide; [|by apply wlp_ret].
  apply wlp_bind, wlp_get_vec. intros r Hr.
  apply wlp_bind, wlp_get_vec. intros t Ht.
  pose proof (cap_ge_lookup _ _ _ _ Hc Ht) as Hct.
  unfold RawMemory_Capacity. apply wlp_bind. case_decide as Hgrow.
  - apply wlp_bind. unfold wlp at 1, local_vec.
    set (tmp := fresh (dom (vecs st))).
    assert (vecs st !! tmp = None) as Htmp by apply fresh_vec_None.
    assert (this ≠ tmp) as Hat by (intros Heq; rewrite <- Heq in Htmp; congruence).
    apply wlp_bind. unfold Vector_copy.
    apply wlp_bind, wlp_get_vec. intros o Ho.
    assert (o = r) as -> by congruence.
    apply wlp_bind, wlp_RawMemory_new; [|intros; by eapply cap_ge_keep].
    intros data st1 Hdata H1. apply wlp_bind.
    eapply (wlp_keeps_cap _ this c); [keeps|by eapply cap_ge_keep| |done].
    intros ? st2 H2 Hc2. apply wlp_put_vec. apply wlp_bind.
    eapply wlp_Swap; [done| |by simpl; rewrite lookup_insert_eq|].
    { simpl. rewrite lookup_insert_ne by done. by rewrite H2, H1. }
    unfold Vector_delete. apply wlp_bind, wlp_get_vec. intros d Hd. apply wlp_bind.
    eapply wlp_keeps; [keeps| |].
    + intros ? st3 H3. apply wlp_bind. eapply wlp_keeps; [keeps| |].
      * intros ? st4 H4. unfold wlp, cap_ge; simpl. rewrite H4, H3; simpl.
        eexists. rewrite lookup_delete_ne, lookup_insert_ne, lookup_insert_eq by done.
        split; [done|]. simpl. lia.
      * intros st4 H4. unfold cap_ge. rewrite H4, H3; simpl.
        eexists. rewrite lookup_insert_ne, lookup_insert_eq by done.
        split; [done|]. simpl. lia.
    + intros st3 H3. unfold cap_ge. rewrite H3; simpl.
      eexists. rewrite lookup_insert_ne, lookup_insert_eq by done.
      split; [done|]. simpl. lia.
  - apply wlp_bind.
    eapply (wlp_keeps_cap _ this c); [keeps|done| |done].
    intros ? st1 _ Hc1. eapply set_size_cap; [done|]. intros st2 Hc2.
    by apply wlp_ret.
Qed.

(** Every operation of [op] keeps a lower bound on the capacity, whether it
    returns or throws. *)
Lemma run_op_cap (this c : nat) (o : op V) st :
  cap_ge st this c →
  wlp (run_op T this o) st (λ _ st', cap_ge st' this c) (λ st', cap_ge st' this c).
Proof.
  intros Hc.
  assert (∀ {A} (m : M A),
    wlp m st (λ _ st', cap_ge st' this c) (λ st', cap_ge st' this c) →
    wlp (m ;;; ret tt) st (λ _ st', cap_ge st' this c) (λ st', cap_ge st' this c))
    as Hret.
  { intros A m Hm. apply wlp_bind. eapply wlp_mono; [exact Hm| |done].
    intros ? st' Hc'. by apply wlp_ret. }
  destruct o; simpl.
  - by apply Reserve_cap.
  - by apply Resize_cap.
  - by apply Hret, EmplaceBack_cap.
  - by apply Hret, EmplaceBack_cap.
  - by apply Hret, EmplaceBack_cap.
  - by apply Hret, Emplace_cap.
  - by apply Hret, Emplace_cap.
  - by apply Hret, Emplace_cap.
  - by apply Hret, Erase_cap.
  - by apply PopBack_cap.
  - by apply Hret, assign_copy_cap.
Qed.

End capacity_methods.

(* ================================================================== *)
(** * The claims *)

Section claims.
Context {V : Type} (T : ElemType V).
Implicit Types (st : State (V:=V)) (xs ys : list V).

Lemma wp_threw {A} (m : M A) st Q E st' : wp m st Q E → m st = Threw st' → E st'.
Proof. unfold wp. intros H Hrun. by rewrite Hrun in H. Qed.

Lemma wp_ok {A} (m : M A) st Q E a st' : wp m st Q E → m st = Ok a st' → Q a st'.
Proof. unfold wp. intros H Hrun. by rewrite Hrun in H. Qed.

Lemma PopBack_empty st (this : nat) (v : Vector) :
  vecs st !! this = Some v → size_ v = 0 → PopBack this st = Ok tt st.
Proof.
  intros Hv Hsize. unfold PopBack, bind, get_vec. rewrite Hv, Hsize.
  by rewrite decide_False by lia.
Qed.

Lemma bind_ret_threw {A} (m : M A) st st' :
  (m ;;; ret tt) st = Threw st' → m st = Threw st'.
Proof. unfold bind. destruct (m st); simpl; congruence. Qed.

Lemma bind_ret_ok {A} (m : M A) st st' :
  (m ;;; ret tt) st = Ok tt st' → ∃ a, m st = Ok a st'.
Proof.
  unfold bind. destruct (m st) as [a st1| |]; simpl; [|done..].
  intros [= ->]. eauto.
Qed.

Lemma owns_same st st' this p xs cap :
  vecs st' = vecs st → heap st' = heap st →
  owns st this p xs cap → owns st' this p xs cap.
Proof. unfold owns. by intros -> ->. Qed.

Lemma ptr_add_0_owns st this p xs cap : owns st this p xs cap → ptr_add p 0 = p.
Proof. intros (_ & _ & Hp). destruct p as [|l off]; [done|]. by destruct Hp as (-> & _). Qed.

(** An insertion at a valid position into a full or an empty vector leaves
    everything as it was when it throws. *)
Lemma Emplace_all_or_nothing st this p xs cap index (a : Args V) st' :
  owns st this p xs cap →
  is_nothrow_move_constructible T || is_copy_constructible T = true →
  length xs = cap ∨ xs = [] → index ≤ length xs →
  Emplace T this (ptr_add p index) a st = Threw st' →
  vecs st' = vecs st ∧ heap st' = heap st.
Proof.
  intros Ho Hsafe Hcase Hidx Hrun.
  destruct (decide (length xs = cap)) as [Hfull|Hspare].
  - pose proof (wp_threw _ _ _ _ _ (Emplace_full_spec T _ _ _ _ _ _ a Ho Hfull Hidx) Hrun)
      as (_ & Hvs & Hhp & _). auto.
  - destruct Hcase as [?| ->]; [done|]. simpl in Hidx, Hspare.
    assert (index = 0) as -> by lia.
    rewrite (ptr_add_0_owns _ _ _ _ _ Ho) in Hrun.
    assert (0 < cap) as Hcap by lia.
    pose proof (wp_threw _ _ _ _ _ (Emplace_empty_spec T _ _ _ _ a Ho Hcap) Hrun)
      as (_ & Hvs & Hhp). auto.
Qed.

(** *** Insertion followed by erasure *)

Lemma delete_insert_at xs (index : nat) (v : V) :
  index ≤ length xs → delete index (take index xs ++ v :: drop index xs) = xs.
Proof.
  intros Hidx.
  replace index with (length (take index xs)) at 1 by (rewrite length_take; lia).
  by rewrite delete_middle, take_drop.
Qed.

Lemma wp_Emplace_at st this p xs cap index (a : Args V) Q E :
  owns st this p xs cap →
  wp (Emplace T this (ptr_add p index) a) st Q E →
  wp (Emplace_at T this index a) st Q E.
Proof.
  destruct st as [vs hp fs al]. intros (Hv & _) H. unfold Emplace_at.
  apply wp_bind. by eapply wp_begin.
Qed.

Lemma wp_Erase_at st this p xs cap index Q E :
  owns st this p xs cap →
  wp (Erase T this (ptr_add p index)) st Q E →
  wp (Erase_at T this index) st Q E.
Proof.
  destruct st as [vs hp fs al]. intros (Hv & _) H. unfold Erase_at.
  apply wp_bind. by eapply wp_begin.
Qed.

(** What [Emplace] at a valid position gives when it returns, over its
    three paths: the values [xs'] it was inserted into are [xs], except that
    with spare capacity the last of them is the moved-from remains of the
    last element. *)
Lemma Emplace_at_spec st this p xs cap index (a : Args V) :
  owns st this p xs cap → index ≤ length xs →
  wp (Emplace_at T this index a) st
    (λ _ st', ∃ p' cap' xs',
       owns st' this p' (take index xs' ++ args_value a :: drop index xs') cap' ∧
       length xs' = length xs ∧
       (length xs = cap ∨ xs = [] → xs' = xs) ∧
       (∀ ys z, xs = ys ++ [z] → length xs < cap → xs' = ys ++ [moved_from T z]) ∧
       (faults st = [] → faults st' = []))
    (λ _, faults st ≠ []).
Proof.
  intros Ho Hidx. eapply wp_Emplace_at; [done|].
  destruct (decide (length xs = cap)) as [Hfull|Hspare].
  { eapply wp_mono; [by apply Emplace_full_spec| |by intros ? (? & _)].
    intros r st' (p' & Ho' & _ & _ & Hfs).
    exists p', (if decide (cap = 0) then 1 else cap * 2), xs.
    split; [done|]. split; [done|]. split; [done|]. split; [|done].
    intros ys z _ ?. lia. }
  assert (length xs < cap) as Hlt by (destruct Ho as (_ & ? & _); lia).
  destruct xs as [|x xs _] using rev_ind.
  { assert (index = 0) as -> by (simpl in Hidx; lia).
    rewrite (ptr_add_0_owns _ _ _ _ _ Ho).
    eapply wp_mono; [apply Emplace_empty_spec; [done|lia]| |by intros ? (? & _)].
    intros r st' (Ho' & _ & _ & Hfs). exists p, cap, [].
    split; [done|]. split; [done|]. split; [done|]. split; [|done].
    by intros [|] ? ?. }
  rewrite length_app in Hidx, Hlt; simpl in Hidx, Hlt.
  eapply wp_mono; [by apply Emplace_spare_spec| |done].
  intros r st' (Ho' & _ & _ & Hfs). exists p, cap, (xs ++ [moved_from T x]).
  split; [done|]. split; [by rewrite !length_app|]. split; [|split; [|done]].
  - intros [Hc|Hc]; [rewrite length_app in Hc; simpl in Hc; lia|].
    by destruct xs.
  - intros ys z Heq _. by apply app_inj_tail in Heq as [-> ->].
Qed.

(** [Emplace] at a valid position followed by [Erase] at that position:
    the sequence that comes back is the one [Emplace] inserted into. *)
Lemma Emplace_Erase_spec st this p xs cap index (a : Args V) :
  owns st this p xs cap → index ≤ length xs →
  wp (Emplace_at T this index a ;;; Erase_at T this index) st
    (λ _ st', ∃ p' cap' xs', owns st' this p' xs' cap' ∧
       length xs' = length xs ∧
       (length xs = cap ∨ xs = [] → xs' = xs) ∧
       (∀ ys z, xs = ys ++ [z] → length xs < cap → xs' = ys ++ [moved_from T z]))
    (λ _, faults st ≠ []).
Proof.
  intros Ho Hidx. apply wp_bind.
  eapply wp_mono; [by eapply Emplace_at_spec| |done].
  intros _ st1 (p1 & cap1 & xs' & Ho1 & Hlen & Hsame & Hspare & Hfs1).
  eapply wp_Erase_at; [done|].
  eapply wp_mono; [eapply Erase_spec; [done|]| |].
  - rewrite length_insert_at. lia.
  - intros r st2 (Ho2 & _). rewrite delete_insert_at in Ho2 by lia. eauto 10.
  - intros st2 (Hfs2 & _) Hfs. auto.
Qed.

(** For an element type whose moves leave the source value as it is, the
    round trip restores the sequence. *)
Lemma Emplace_Erase_roundtrip st this p xs cap index (a : Args V) :
  (∀ v, moved_from T v = v) →
  owns st this p xs cap → index ≤ length xs →
  wp (Emplace_at T this index a ;;; Erase_at T this index) st
    (λ _ st', ∃ p' cap', owns st' this p' xs cap') (λ _, faults st ≠ []).
Proof.
  intros Hid Ho Hidx. eapply wp_mono; [by eapply Emplace_Erase_spec| |done].
  intros _ st' (p' & cap' & xs' & Ho' & _ & Hsame & Hspare).
  exists p', cap'. replace xs with xs'; [done|].
  destruct (decide (length xs = cap)) as [?|Hne]; [by auto|].
  destruct xs as [|x xs _] using rev_ind; [by auto|].
  rewrite (Hspare xs x), Hid; [done..|].
  destruct Ho as (_ & ? & _). lia.
Qed.

(** *** The invariant *)

Lemma owns_Invariant st this p xs cap : owns st this p xs cap → Invariant st this.
Proof. intros Ho. by exists p, xs, cap. Qed.

Lemma wp_bind_ret {A} (m : M A) st Q E :
  wp m st (λ _ st', Q tt st') E → wp (m ;;; ret tt) st Q E.
Proof. intros H. apply wp_bind. eapply wp_mono; [exact H|..]; done. Qed.

(** Every operation on well-posed arguments keeps the invariant when it
    returns, and when it throws unless it is an insertion into a non-empty
    vector with spare capacity. *)
Lemma invariant_preserved st this p xs cap (o : op V) :
  owns st this p xs cap → well_posed st this p xs o →
  wp (run_op T this o) st
    (λ _ st', Invariant st' this)
    (λ st', spare_insertion xs cap o ∨ Invariant st' this).
Proof.
  intros Ho Hwp.
  assert (∀ pos (a : Args V),
    (∃ index, index ≤ length xs ∧ pos = ptr_add p index) →
    wp (Emplace T this pos a ;;; ret tt) st
      (λ _ st', Invariant st' this)
      (λ st', (xs ≠ [] ∧ length xs < cap) ∨ Invariant st' this)) as Hemplace.
  { intros pos a (index & Hidx & ->). apply wp_bind_ret.
    destruct (decide (length xs = cap)) as [Hfull|Hspare].
    { eapply wp_mono; [by eapply Emplace_full_spec|..].
      - intros r st' (p' & Ho' & _). by eapply owns_Invariant.
      - intros st' (_ & _ & _ & ys & _ & Ho'). right. by eapply owns_Invariant. }
    assert (length xs < cap) as Hlt by (destruct Ho as (_ & ? & _); lia).
    destruct xs as [|x xs' _] using rev_ind.
    { assert (index = 0) as -> by (simpl in Hidx; lia).
      rewrite (ptr_add_0_owns _ _ _ _ _ Ho).
      eapply wp_mono; [apply Emplace_empty_spec; [done|lia]|..].
      - intros r st' (Ho' & _). by eapply owns_Invariant.
      - intros st' (_ & Hvs & Hhp). right. eapply owns_Invariant. by eapply owns_same. }
    rewrite length_app in Hidx, Hlt; simpl in Hidx, Hlt.
    eapply wp_mono; [by eapply Emplace_spare_spec|..].
    - intros r st' (Ho' & _). by eapply owns_Invariant.
    - intros st' _. left. split; [by destruct xs'|]. rewrite length_app; simpl; lia. }
  assert (∀ (a : Args V),
    wp (EmplaceBack T this a ;;; ret tt) st
      (λ _ st', Invariant st' this) (λ st', False ∨ Invariant st' this)) as Hback.
  { intros a. apply wp_bind_ret. eapply wp_mono; [by eapply EmplaceBack_spec|..].
    - intros r st' (p' & cap' & Ho' & _). by eapply owns_Invariant.
    - intros st' (_ & _ & _ & ys & _ & Ho'). right. by eapply owns_Invariant. }
  destruct o; simpl in Hwp |- *; auto.
  - eapply wp_mono; [by eapply Reserve_spec|..].
    + intros r st' (p' & Ho' & _). by eapply owns_Invariant.
    + intros st' (_ & _ & _ & ys & _ & Ho'). right. by eapply owns_Invariant.
  - eapply wp_mono; [by eapply Resize_spec|..].
    + intros r st' (p' & Ho' & _). by eapply owns_Invariant.
    + intros st' (_ & p' & ys & cap' & _ & Ho' & _). right. by eapply owns_Invariant.
  - apply Hback.
  - apply Hback.
  - by apply Hemplace.
  - by apply Hemplace.
  - destruct Hwp as (index & Hidx & ->). apply wp_bind_ret.
    eapply wp_mono; [by eapply Erase_spec|..].
    + intros r st' (Ho' & _). by eapply owns_Invariant.
    + intros st' (_ & _ & ys & _ & Ho'). right. by eapply owns_Invariant.
  - destruct xs as [|x xs' _] using rev_ind.
    + destruct Ho as (Hv & ?). unfold wp.
      rewrite (PopBack_empty st this _ Hv eq_refl).
      by eapply owns_Invariant.
    + eapply wp_mono; [by eapply PopBack_spec|..]; [|done].
      intros r st' (Ho' & _). by eapply owns_Invariant.
  - apply wp_bind_ret. destruct Hwp as [<-|(pb & ys & cb & Hb & Hsep)].
    + unfold assign_copy. rewrite decide_False by (intros H; done).
      apply wp_ret. by eapply owns_Invariant.
    + destruct (decide (this = rhs)) as [<-|Hne].
      { unfold assign_copy. rewrite decide_False by (intros H; done).
        apply wp_ret. by eapply owns_Invariant. }
      eapply wp_mono; [by eapply assign_copy_spec|..].
      * intros r st' (_ & pa' & ca' & Ho' & _). by eapply owns_Invariant.
      * intros st' (_ & _ & _ & zs & _ & Ho'). right. by eapply owns_Invariant.
Qed.

(** C1 (amended): strong exception safety of growth and insertion.  For an
    element type that is nothrow-move-constructible or copy-constructible
    and a vector satisfying the invariant: when [Reserve], [PushBack],
    [EmplaceBack], or an [Insert]/[Emplace] at a valid position of a full
    or an empty vector throws, every vector object and every storage block
    is as it was before the call; the vector has the same size, capacity,
    storage and element values. *)
Theorem C1_strong_exception_safety st this p xs cap (o : op V) st' :
  owns st this p xs cap →
  is_nothrow_move_constructible T || is_copy_constructible T = true →
  all_or_nothing p xs cap o →
  run_op T this o st = Threw st' →
  vecs st' = vecs st ∧ heap st' = heap st ∧ owns st' this p xs cap.
Proof.
  intros Ho Hsafe Hop Hrun.
  assert (vecs st' = vecs st ∧ heap st' = heap st) as (Hvs & Hhp);
    [|by eauto using owns_same].
  destruct o; simpl in Hop, Hrun; try done.
  - pose proof (wp_threw _ _ _ _ _ (Reserve_spec T _ _ _ _ _ new_capacity Ho) Hrun)
      as (_ & Hvs & Hhp & _). auto.
  - apply bind_ret_threw in Hrun.
    pose proof (wp_threw _ _ _ _ _ (EmplaceBack_spec T _ _ _ _ _ (ConstRef value) Ho) Hrun)
      as (_ & Hvs & Hhp & _). auto.
  - apply bind_ret_threw in Hrun.
    pose proof (wp_threw _ _ _ _ _ (EmplaceBack_spec T _ _ _ _ _ (Rvalue value) Ho) Hrun)
      as (_ & Hvs & Hhp & _). auto.
  - apply bind_ret_threw in Hrun.
    pose proof (wp_threw _ _ _ _ _ (EmplaceBack_spec T _ _ _ _ _ args Ho) Hrun)
      as (_ & Hvs & Hhp & _). auto.
  - apply bind_ret_threw in Hrun. destruct Hop as (Hcase & index & Hidx & ->).
    by eapply Emplace_all_or_nothing.
  - apply bind_ret_threw in Hrun. destruct Hop as (Hcase & index & Hidx & ->).
    by eapply Emplace_all_or_nothing.
  - apply bind_ret_threw in Hrun. destruct Hop as (Hcase & index & Hidx & ->).
    by eapply Emplace_all_or_nothing.
Qed.

(** C2: starting from a default-constructed vector, a sequence of appends
    ([PushBack] of either kind, [EmplaceBack]) completes unless an exception
    is scheduled, and then [Size] is the number of appends and reading index
    [i] yields the value appended by the [i]-th append. *)
Theorem C2_appends_read_back (this : nat) (ops : list (Args V)) st :
  wp (Vector_default this ;;; append_all T this ops) st
    (λ _ st', Size this st' = Ok (length ops) st' ∧
              ∀ i x, (args_value <$> ops) !! i = Some x →
                     read this i st' = Ok x st')
    (λ _, faults st ≠ []).
Proof.
  destruct st as [vs hp fs al]. apply wp_bind. unfold Vector_default.
  apply wp_put_vec.
  eapply wp_mono; [eapply append_all_spec, Vector_default_owns| |done].
  intros _ st' (p' & cap' & Ho & _). simpl in Ho. split.
  - rewrite (Size_owns _ _ _ _ _ Ho). by rewrite length_fmap.
  - intros i x Hi. by eapply read_owns.
Qed.

Lemma wp_run_eq {A} (m : M A) st (a : A) st' :
  wp m st (λ r st1, r = a ∧ st1 = st') (λ _, False) → m st = Ok a st'.
Proof. unfold wp. destruct (m st); [|done..]. by intros [-> ->]. Qed.

(** C3 (amended): move construction and move assignment exchange the two
    vector objects and do nothing else, so neither allocates nor touches a
    storage block.  A vector move-constructed from [other] takes over
    [other]'s storage and size and leaves [other] with size 0, capacity 0
    and no storage; move assignment from a different vector [other] gives
    [other] the previous size and storage of the target, so [other] ends up
    empty only when the target was. *)
Theorem C3_move_exchanges_storage st (this other : nat) (b : Vector) :
  vecs st !! other = Some b → this ≠ other →
  Vector_move this other st =
    Ok tt (set_vecs (λ vs,
             <[other:={| size_ := 0; data_ := {| buffer_ := Null; capacity_ := 0 |} |}]>
               (<[this:=b]> vs)) st) ∧
  ∀ a, vecs st !! this = Some a →
       assign_move this other st =
         Ok this (set_vecs (λ vs, <[other:=a]> (<[this:=b]> vs)) st).
Proof.
  destruct st as [vs hp fs al]. simpl. intros Hb Hne. split.
  - apply wp_run_eq. unfold Vector_move, Vector_default. apply wp_bind, wp_put_vec.
    eapply wp_Swap; [done|by rewrite lookup_insert_eq|by rewrite lookup_insert_ne|].
    by rewrite insert_insert_eq.
  - intros a Ha. apply wp_run_eq. unfold assign_move. rewrite decide_True by done.
    apply wp_bind. by eapply wp_Swap.
Qed.

(** C4 (amended): capacity under every operation except [Swap] and the
    moves.  Whether the operation returns or throws, the capacity
    afterwards is at least the capacity before; and when the vector is full
    and an append or an insertion at a valid position returns, the capacity
    is exactly twice the previous one, or one if that was zero. *)
Theorem C4_capacity_growth st this p xs cap (o : op V) :
  owns st this p xs cap →
  wlp (run_op T this o) st
    (λ _ st', cap_ge st' this cap ∧
              (length xs = cap → inserts_at p xs o →
               Capacity this st' = Ok (if decide (cap = 0) then 1 else cap * 2) st'))
    (λ st', cap_ge st' this cap).
Proof.
  intros Ho.
  assert (cap_ge st this cap) as Hc.
  { destruct Ho as (Hv & _). eexists. split; [done|]. done. }
  pose proof (run_op_cap T this cap o st Hc) as Hmono. unfold wlp in *.
  destruct (run_op T this o st) as [[] st'|st'|] eqn:Hrun; [|done..].
  split; [done|]. intros Hfull Hins.
  assert (∀ (a : Args V) r, EmplaceBack T this a st = Ok r st' →
    Capacity this st' = Ok (if decide (cap = 0) then 1 else cap * 2) st') as Hback.
  { intros a r Hr.
    pose proof (wp_ok _ _ _ _ _ _ (EmplaceBack_spec T _ _ _ _ _ a Ho) Hr)
      as (p' & cap' & Ho' & _ & _ & Hgrow & _).
    destruct (Hgrow Hfull) as [-> _]. by eapply Capacity_owns. }
  assert (∀ (a : Args V) pos r, (∃ index, index ≤ length xs ∧ pos = ptr_add p index) →
    Emplace T this pos a st = Ok r st' →
    Capacity this st' = Ok (if decide (cap = 0) then 1 else cap * 2) st') as Hins'.
  { intros a pos r (index & Hidx & ->) Hr.
    pose proof (wp_ok _ _ _ _ _ _ (Emplace_full_spec T _ _ _ _ _ _ a Ho Hfull Hidx) Hr)
      as (p' & Ho' & _). by eapply Capacity_owns. }
  destruct o; simpl in Hins, Hrun; try done;
    apply bind_ret_ok in Hrun as [r Hrun]; eauto.
Qed.

(** C6: erasing at a position [index < size] of a vector satisfying the
    invariant completes unless a throwing move assignment is scheduled to
    fail; the values are then the original ones with the one at [index]
    removed, the size is one less, the capacity and the storage block are
    the same, nothing was allocated, and the returned iterator is
    [begin() + index].  When a move assignment throws, size, capacity and
    storage block are still the same. *)
Theorem C6_erase st this p xs cap index :
  owns st this p xs cap → index < length xs →
  wp (Erase T this (ptr_add p index)) st
    (λ r st', owns st' this p (delete index xs) cap ∧
              length (delete index xs) = length xs - 1 ∧
              r = ptr_add p index ∧ allocs st' = allocs st)
    (λ st', faults st ≠ [] ∧ is_nothrow_move_assignable T = false ∧
            ∃ ys, length ys = length xs ∧ owns st' this p ys cap).
Proof.
  intros Ho Hidx. eapply wp_mono; [by apply Erase_spec| |done].
  intros r st' (Ho' & -> & Hal & _). split; [done|]. split; [|done].
  rewrite length_delete; [done|]. by apply lookup_lt_is_Some_2.
Qed.

(** C7: copy assignment between two different vectors with separate
    storage completes unless an exception is scheduled; afterwards the
    target holds the values of the source and the source is as before.
    When the source has more elements than the target has capacity, the
    target gets newly allocated storage of exactly that many slots, and a
    failure leaves every vector and every block untouched. *)
Theorem C7_copy_assign st this rhs pa pb xs ys ca cb :
  this ≠ rhs → owns st this pa xs ca → owns st rhs pb ys cb →
  (pa = Null ∨ pa ≠ pb) →
  wp (assign_copy this rhs) st
    (λ r st', r = this ∧ ∃ pa' ca',
       owns st' this pa' ys ca' ∧ owns st' rhs pb ys cb ∧
       (length ys ≤ ca → pa' = pa ∧ ca' = ca ∧ allocs st' = allocs st) ∧
       (ca < length ys → ca' = length ys ∧ allocs st' = S (allocs st)))
    (λ st', faults st ≠ [] ∧ owns st' rhs pb ys cb ∧
       (ca < length ys → vecs st' = vecs st ∧ heap st' = heap st)).
Proof.
  intros Hne Ha Hb Hsep. eapply wp_mono; [by eapply assign_copy_spec| |].
  - intros r st' (-> & pa' & ca' & ? & ? & ? & ? & _). eauto 10.
  - intros st' (? & ? & ? & _). auto.
Qed.

(** C9: [PopBack] on a vector of size 0 returns normally and changes
    nothing. *)
Theorem C9_pop_back_empty st (this : nat) (v : Vector) :
  vecs st !! this = Some v → size_ v = 0 → PopBack this st = Ok tt st.
Proof. apply PopBack_empty. Qed.

(** C10: copy-assigning or move-assigning a vector to itself returns the
    vector and changes nothing. *)
Theorem C10_self_assignment st (this : nat) :
  assign_copy this this st = Ok this st ∧ assign_move this this st = Ok this st.
Proof.
  unfold assign_copy, assign_move. by rewrite !decide_False by (intros H; done).
Qed.

End claims.

(* ================================================================== *)
(** * Further properties of the header *)

(** ** Auxiliary facts *)
Section auxiliary.
Context {V : Type} (T : ElemType V).
Implicit Types (st : State (V:=V)) (xs ys : list V).

Lemma load_owns st this p xs cap i x :
  owns st this p xs cap → xs !! i = Some x → load (ptr_add p i) st = Ok x st.
Proof.
  intros (_ & Hle & Hp) Hi. pose proof (lookup_lt_Some _ _ _ Hi) as Hlt.
  destruct p as [|l off]; [lia|]. destruct Hp as (-> & _ & Hl).
  unfold load; simpl. rewrite Hl. by rewrite (block_of_lookup _ _ _ _ Hi).
Qed.

Lemma wp_wlp_conj {A} (m : M A) st Q1 Q2 E1 E2 :
  wp m st Q1 E1 → wlp m st Q2 E2 →
  wp m st (λ a st', Q1 a st' ∧ Q2 a st') (λ st', E1 st' ∧ E2 st').
Proof. unfold wp, wlp. by destruct (m st). Qed.

Lemma Reserve_noop st this (v : Vector) n :
  vecs st !! this = Some v → n ≤ capacity_ (data_ v) → Reserve T this n st = Ok tt st.
Proof.
  intros Hv Hn. unfold Reserve, bind, get_vec. rewrite Hv.
  unfold RawMemory_Capacity. by rewrite decide_True.
Qed.

Lemma load_inserted st this p xs cap index (v : V) :
  owns st this p (take index xs ++ v :: drop index xs) cap → index ≤ length xs →
  load (ptr_add p index) st = Ok v st.
Proof.
  intros Ho Hidx. eapply load_owns; [done|].
  rewrite lookup_app_r by (rewrite length_take; lia).
  rewrite length_take. by replace (index - index `min` length xs) with 0 by lia.
Qed.

Lemma append_EmplaceBack this (a : Args V) :
  append T this a = (EmplaceBack T this a ;;; ret tt).
Proof. by destruct a. Qed.

Lemma append_all_grown st this p xs cap (ops : list (Args V)) al0 :
  owns st this p xs cap → grown (length xs) cap al0 (allocs st) →
  wp (append_all T this ops) st
    (λ _ st', ∃ p' cap', owns st' this p' (xs ++ (args_value <$> ops)) cap' ∧
       grown (length (xs ++ (args_value <$> ops))) cap' al0 (allocs st') ∧
       (faults st = [] → faults st' = []))
    (λ _, faults st ≠ []).
Proof.
  revert st p xs cap. induction ops as [|a ops IH]; intros st p xs cap Ho Hg.
  { apply wp_ret. exists p, cap. by rewrite app_nil_r. }
  simpl. apply wp_bind. rewrite append_EmplaceBack. apply wp_bind_ret.
  eapply wp_mono; [by apply EmplaceBack_spec| |by intros ? (? & _)].
  intros r st1 (p1 & cap1 & Ho1 & _ & Hspare & Hfull & Hfs1).
  eapply wp_mono; [eapply (IH _ _ _ _ Ho1)| |].
  - rewrite length_app; simpl.
    destruct (decide (length xs < cap)) as [Hlt|Hge].
    + destruct (Hspare Hlt) as (_ & -> & ->). right.
      destruct Hg as [(? & ? & _)|(k & ? & ? & ?)]; [lia|]. exists k. lia.
    + assert (length xs = cap) as Hlen by (destruct Ho as (_ & ? & _); lia).
      destruct (Hfull Hlen) as (-> & ->). right.
      destruct Hg as [(? & -> & ->)|(k & -> & ? & ->)].
      * exists 0. simpl. lia.
      * exists (S k). rewrite decide_False by (pose proof (Nat.pow_nonzero 2 k); lia).
        rewrite Nat.pow_succ_r'. lia.
  - intros _ st2 (p2 & cap2 & Ho2 & Hg2 & Hfs2). exists p2, cap2.
    rewrite <- app_assoc in Ho2, Hg2. auto.
  - intros st2 Hfs2 Hfs. auto.
Qed.

Lemma read_range_block st l off (b : list (option V)) xs :
  heap st !! l = Some b →
  (∀ i x, xs !! i = Some x → b !! (off + i) = Some (Some x)) →
  read_range (Ptr l off) (length xs) st = Ok xs st.
Proof.
  intros Hl. revert off. induction xs as [|x xs IH]; intros off Hb; [done|].
  simpl. unfold bind, load. rewrite Hl.
  pose proof (Hb 0 x eq_refl) as H0. rewrite Nat.add_0_r in H0. rewrite H0.
  rewrite IH; [done|]. intros i y Hi.
  replace (off + 1 + i) with (off + S i) by lia. by apply Hb.
Qed.

Lemma Vector_copy_owns st this other pb ys cb :
  owns st other pb ys cb → this ≠ other →
  wp (Vector_copy this other) st
    (λ _ st', ∃ p,
       owns st' this p ys (length ys) ∧ owns st' other pb ys cb ∧
       (p = Null ∨ p ≠ pb) ∧
       (∀ k, k ≠ this → vecs st' !! k = vecs st !! k) ∧
       release p (heap st') = heap st ∧
       allocs st' = (if decide (ys = []) then allocs st else S (allocs st)))
    (λ st', faults st ≠ [] ∧ vecs st' = vecs st ∧ heap st' = heap st).
Proof.
  destruct st as [vs hp fs al]. intros Hb Hne.
  pose proof Hb as (Hv & Hle & Hp); simpl in Hv.
  unfold Vector_copy. apply wp_bind. eapply wp_get_vec; [done|]. simpl.
  apply wp_bind. unfold GetAddress; simpl.
  destruct ys as [|y ys'] eqn:Hys.
  { apply wp_RawMemory_new_0. apply wp_bind, wp_unwinding; simpl.
    apply wp_ret. apply wp_put_vec. exists Null.
    split; [|split; [|split; [by left|split; [|done]]]].
    - split; simpl; [by rewrite lookup_insert_eq|done].
    - destruct Hb as (? & ? & ?). split; simpl; [by rewrite lookup_insert_ne|done].
    - intros k Hk; simpl. by rewrite lookup_insert_ne. }
  rewrite <- Hys in *. assert (ys ≠ []) as Hnil by (by rewrite Hys).
  assert (0 < length ys) as Hpos by (rewrite Hys; simpl; lia).
  clear Hys y ys'.
  destruct pb as [|lb off]; [lia|]. destruct Hp as (-> & Hposb & Hlb); simpl in Hlb.
  apply wp_RawMemory_new; [lia| |by intros].
  intros fs1 l Hfs1 Hl. assert (lb ≠ l) as Hlbl by (intros ->; congruence).
  apply wp_bind, wp_unwinding. simpl. unfold block_of in Hlb.
  eapply (wp_uninitialized_copy_n _ _ _ _ lb 0 l 0 _ [] _ [] [] ys); simpl;
    [done|by rewrite lookup_insert_ne|by rewrite lookup_insert_eq, app_nil_r|done..| |].
  2:{ intros fs' Hfs. unfold RawMemory_delete; simpl.
      eapply wp_Deallocate; [by rewrite lookup_insert_eq|].
      simpl. rewrite delete_insert_id by done. split; [intros ->; auto|done]. }
  intros fs2 Hfs2. rewrite insert_insert_eq, app_nil_r.
  apply wp_put_vec. exists (Ptr l 0).
  split; [|split; [|split; [|split; [|split]]]]; simpl.
  - split; simpl; [by rewrite lookup_insert_eq|].
    split; [done|]. split; [done|]. split; [done|].
    by rewrite lookup_insert_eq, block_of_full.
  - split; simpl; [by rewrite lookup_insert_ne|].
    split; [done|]. split; [done|]. split; [done|].
    by rewrite lookup_insert_ne.
  - right. congruence.
  - intros k Hk. by rewrite lookup_insert_ne.
  - by rewrite delete_insert_id.
  - by rewrite decide_False.
Qed.

Lemma Vector_delete_owns st this p xs cap :
  owns st this p xs cap →
  Vector_delete this st =
    Ok tt (mkState (delete this (vecs st)) (release p (heap st)) (faults st) (allocs st)).
Proof.
  destruct st as [vs hp fs al]. intros (Hv & Hle & Hp); simpl in Hv.
  apply wp_run_eq. unfold Vector_delete. apply wp_bind.
  eapply wp_get_vec; [done|]. simpl. unfold GetAddress, RawMemory_delete; simpl.
  destruct p as [|l off].
  - assert (xs = []) as -> by (apply length_zero_iff_nil; lia).
    simpl. apply wp_bind, wp_ret. apply wp_bind, wp_ret. done.
  - destruct Hp as (-> & Hpos & Hl); simpl in Hl. unfold block_of in Hl.
    apply wp_bind.
    eapply (wp_destroy_n _ _ _ _ l 0 _ [] xs); simpl; [done..|].
    apply wp_bind. eapply wp_Deallocate; [by rewrite lookup_insert_eq|].
    unfold wp; simpl. by rewrite delete_insert_eq.
Qed.

End auxiliary.

(** ** Operations that cannot throw *)
Section noexcept.
Context {V : Type} (T : ElemType V).
Implicit Types (st : State (V:=V)) (xs ys : list V).

Lemma nt_ret {A} (a : A) : never_throws (V:=V) (ret a).
Proof. by intros st st'. Qed.

Lemma nt_fault {A} : never_throws (V:=V) (@fault V A).
Proof. by intros st st'. Qed.

Lemma nt_bind {A B} (m : M A) (k : A → M B) :
  never_throws (V:=V) m → (∀ a, never_throws (k a)) → never_throws (bind m k).
Proof.
  intros Hm Hk st st'. unfold bind. specialize (Hm st).
  destruct (m st) as [a st1|st1|]; [apply Hk|by destruct (Hm st1)|done].
Qed.

Lemma nt_assert (c : bool) : never_throws (V:=V) (assert c).
Proof. destruct c; [apply nt_ret|apply nt_fault]. Qed.

Lemma nt_load (p : ptr) : never_throws (V:=V) (load p).
Proof.
  intros st st'. unfold load. destruct p as [|l off]; [done|].
  destruct (heap st !! l) as [b|]; [|done]. by destruct (b !! off) as [[v|]|].
Qed.

Lemma nt_store (p : ptr) (s : option V) : never_throws (store p s).
Proof.
  intros st st'. unfold store. destruct p as [|l off]; [done|].
  destruct (heap st !! l) as [b|]; [|done]. by case_decide.
Qed.

Lemma nt_get_vec (this : nat) : never_throws (V:=V) (get_vec this).
Proof. intros st st'. unfold get_vec. by destruct (vecs st !! this). Qed.

Lemma nt_put_vec (this : nat) (v : Vector) : never_throws (V:=V) (put_vec this v).
Proof. by intros st st'. Qed.

Lemma nt_ptr_diff (p q : ptr) : never_throws (V:=V) (ptr_diff p q).
Proof.
  unfold ptr_diff. destruct p, q; try apply nt_ret; try apply nt_fault.
  case_decide; [apply nt_ret|apply nt_fault].
Qed.

Lemma nt_Deallocate (p : ptr) : never_throws (V:=V) (Deallocate p).
Proof.
  destruct p as [|l [|off]]; [apply nt_ret| |apply nt_fault].
  intros st st'. simpl. by destruct (heap st !! l).
Qed.

End noexcept.

Create HintDb nothrow discriminated.
#[export] Hint Resolve nt_ret nt_fault nt_bind nt_assert nt_load nt_store nt_get_vec
  nt_put_vec nt_ptr_diff nt_Deallocate : nothrow.

Ltac nothrow :=
  repeat first
    [ progress intros
    | apply nt_bind
    | match goal with
      | |- never_throws (if ?c then _ else _) => destruct c
      | |- never_throws (match ?x with _ => _ end) => destruct x
      end
    | solve [eauto with nothrow] ].

Section noexcept_members.
Context {V : Type} (T : ElemType V).
Implicit Types (st : State (V:=V)) (xs ys : list V).

Lemma nt_destroy_at (p : ptr) : never_throws (V:=V) (destroy_at p).
Proof. unfold destroy_at. nothrow. Qed.

Lemma nt_destroy_n (p : ptr) (n : nat) : never_throws (V:=V) (destroy_n p n).
Proof.
  revert p. induction n as [|n IH]; intros p; simpl; [apply nt_ret|].
  apply nt_bind; [apply nt_destroy_at|auto].
Qed.

Lemma nt_move_assign (p q : ptr) :
  is_nothrow_move_assignable T = true → never_throws (move_assign T p q).
Proof. intros HT. unfold move_assign. rewrite HT. simpl. nothrow. Qed.

Lemma nt_move_loop (p : ptr) (n : nat) (q : ptr) :
  is_nothrow_move_assignable T = true → never_throws (move_loop T p n q).
Proof.
  intros HT. revert p q. induction n as [|n IH]; intros p q; simpl; [apply nt_ret|].
  apply nt_bind; [by apply nt_move_assign|auto].
Qed.

Lemma nt_set_size (this n : nat) : never_throws (V:=V) (set_size this n).
Proof. unfold set_size. nothrow. Qed.

Lemma nt_set_data (this : nat) (r : RawMemory) : never_throws (V:=V) (set_data this r).
Proof. unfold set_data. nothrow. Qed.

Lemma nt_PopBack (this : nat) : never_throws (V:=V) (PopBack this).
Proof.
  unfold PopBack. apply nt_bind; [nothrow|]. intros v.
  case_decide; [|nothrow]. apply nt_bind; [apply nt_destroy_at|].
  intros _. apply nt_set_size.
Qed.

Lemma nt_Swap (this other : nat) : never_throws (V:=V) (Swap this other).
Proof.
  unfold Swap.
  do 7 (apply nt_bind;
        [first [apply nt_get_vec|apply nt_set_data|apply nt_set_size]|intros]).
  apply nt_set_size.
Qed.

End noexcept_members.

(** ** Which blocks an operation writes *)
Section footprints.
Context {V : Type}.
Implicit Types (st : State (V:=V)) (B L : gset nat)
  (F hp : gmap nat (list (option V))) (G : gmap nat Vector).

Lemma blocks_ptr_add (p : ptr) (n : nat) : blocks (ptr_add p n) = blocks p.
Proof. by destruct p. Qed.

Lemma blocks_ptr_sub (p : ptr) (n : nat) : blocks (ptr_sub p n) = blocks p.
Proof. by destruct p. Qed.

Lemma modifies_refl B st : modifies B st st.
Proof. done. Qed.

Lemma modifies_trans B st1 st2 st3 :
  modifies B st1 st2 → modifies B st2 st3 → modifies B st1 st3.
Proof.
  intros (Hv1 & Hd1 & Hl1) (Hv2 & Hd2 & Hl2).
  split; [congruence|]. split; [congruence|].
  intros l Hl. by rewrite Hl2, Hl1.
Qed.

Lemma wlp_writes {A} (m : M A) B st Q E :
  writes B m →
  (∀ a st', modifies B st st' → Q a st') →
  (∀ st', modifies B st st' → E st') →
  wlp m st Q E.
Proof.
  intros Hm HQ HE. specialize (Hm st). unfold wlp in *. destruct (m st); auto.
Qed.

Lemma writes_mono {A} B B' (m : M (V:=V) A) : B ⊆ B' → writes B m → writes B' m.
Proof.
  intros Hsub Hm st. eapply wlp_mono; [apply Hm|..]; simpl.
  - intros _ st' (Hv & Hd & Hl). split; [done|]. split; [done|].
    intros l Hin. apply Hl. set_solver.
  - intros st' (Hv & Hd & Hl). split; [done|]. split; [done|].
    intros l Hin. apply Hl. set_solver.
Qed.

Lemma writes_ret {A} B (a : A) : writes (V:=V) B (ret a).
Proof. by intros st. Qed.

Lemma writes_fault {A} B : writes (V:=V) B (@fault V A).
Proof. by intros st. Qed.

Lemma writes_bind {A A'} B (m : M A) (k : A → M A') :
  writes (V:=V) B m → (∀ a, writes B (k a)) → writes B (bind m k).
Proof.
  intros Hm Hk st. apply wlp_bind. eapply wlp_writes; [done| |done].
  intros a st' Hst'. eapply wlp_mono; [apply Hk|..]; simpl; eauto using modifies_trans.
Qed.

Lemma writes_unwinding {A} B (cleanup : M unit) (body : M A) :
  writes (V:=V) B cleanup → writes B body → writes B (unwinding cleanup body).
Proof.
  intros Hc Hb st. apply wlp_unwinding. eapply wlp_writes; [done|done|].
  intros st' Hst'. eapply wlp_mono; [apply Hc|..]; simpl; eauto using modifies_trans.
Qed.

Lemma writes_assert B (c : bool) : writes (V:=V) B (assert c).
Proof. destruct c; [apply writes_ret|apply writes_fault]. Qed.

Lemma writes_may_throw B : writes (V:=V) B may_throw.
Proof. intros [vs hp fs al]. unfold wlp, may_throw; simpl. by destruct fs as [|[] fs]. Qed.

Lemma writes_may_throw_unless B (c : bool) : writes (V:=V) B (may_throw_unless c).
Proof. destruct c; [apply writes_ret|apply writes_may_throw]. Qed.

Lemma writes_load B (p : ptr) : writes (V:=V) B (load p).
Proof.
  intros st. unfold wlp, load. destruct p as [|l off]; [done|].
  destruct (heap st !! l) as [b|]; [|done]. by destruct (b !! off) as [[v|]|].
Qed.

Lemma writes_store B (p : ptr) (s : option V) : blocks p ⊆ B → writes B (store p s).
Proof.
  intros Hp st. unfold wlp, store. destruct p as [|l off]; [done|].
  destruct (heap st !! l) as [b|] eqn:Hl; [|done]. case_decide; [|done].
  split; [done|]. simpl. split.
  - rewrite dom_insert_L. apply elem_of_dom_2 in Hl. set_solver.
  - intros l' Hl'. rewrite lookup_insert_ne; [done|]. simpl in Hp. set_solver.
Qed.

Lemma writes_get_vec B (this : nat) : writes (V:=V) B (get_vec this).
Proof. intros st. unfold wlp, get_vec. by destruct (vecs st !! this). Qed.

Lemma writes_ptr_diff B (p q : ptr) : writes (V:=V) B (ptr_diff p q).
Proof.
  unfold ptr_diff. destruct p, q; try apply writes_ret; try apply writes_fault.
  case_decide; [apply writes_ret|apply writes_fault].
Qed.

Lemma writes_RawMemory_plus {A} B (r : RawMemory) (offset : nat) (k : ptr → M A) :
  writes (V:=V) B (k (ptr_add (buffer_ r) offset)) →
  writes B (bind (RawMemory_plus r offset) k).
Proof.
  intros Hk. unfold RawMemory_plus.
  destruct (bool_decide (offset ≤ capacity_ r)); [|by intros st].
  intros st. apply Hk.
Qed.

End footprints.

Create HintDb writes discriminated.
#[export] Hint Resolve writes_ret writes_fault writes_bind writes_unwinding writes_assert
  writes_may_throw writes_may_throw_unless writes_load writes_get_vec
  writes_ptr_diff : writes.

(** The side conditions: a pointer stays in the blocks of its base. *)
Ltac in_blocks :=
  unfold GetAddress;
  repeat (rewrite blocks_ptr_add || rewrite blocks_ptr_sub);
  simpl; set_solver.

Ltac writes :=
  repeat first
    [ progress intros
    | apply writes_RawMemory_plus
    | apply writes_bind
    | apply writes_unwinding
    | match goal with
      | |- writes _ (if ?c then _ else _) => destruct c
      | |- writes _ (match ?x with _ => _ end) => destruct x
      end
    | solve [eauto with writes]
    | apply writes_store; in_blocks ].

Section footprints_ops.
Context {V : Type} (T : ElemType V).
Implicit Types (st : State (V:=V)) (B L : gset nat)
  (F hp : gmap nat (list (option V))) (G : gmap nat Vector).

Lemma writes_destroy_at B (p : ptr) : blocks p ⊆ B → writes (V:=V) B (destroy_at p).
Proof. intros. unfold destroy_at. writes. Qed.

Lemma writes_copy_construct B (p q : ptr) :
  blocks p ⊆ B → writes (V:=V) B (copy_construct p q).
Proof. intros. unfold copy_construct. writes. Qed.

Lemma writes_move_construct B (p q : ptr) :
  blocks p ⊆ B → blocks q ⊆ B → writes B (move_construct T p q).
Proof. intros. unfold move_construct. writes. Qed.

Lemma writes_copy_assign B (p q : ptr) :
  blocks p ⊆ B → writes (V:=V) B (copy_assign p q).
Proof. intros. unfold copy_assign. writes. Qed.

Lemma writes_move_assign B (p q : ptr) :
  blocks p ⊆ B → blocks q ⊆ B → writes B (move_assign T p q).
Proof. intros. unfold move_assign. writes. Qed.

Lemma writes_value_construct B (p : ptr) :
  blocks p ⊆ B → writes B (value_construct T p).
Proof. intros. unfold value_construct. writes. Qed.

Lemma writes_construct B (p : ptr) (a : Args V) :
  blocks p ⊆ B → writes B (construct T p a).
Proof. intros. unfold construct. destruct a; writes. Qed.

Lemma writes_destroy_n B (p : ptr) (n : nat) :
  blocks p ⊆ B → writes (V:=V) B (destroy_n p n).
Proof.
  revert p. induction n as [|n IH]; intros p Hp; simpl; [apply writes_ret|].
  apply writes_bind; [by apply writes_destroy_at|]. intros _. apply IH. in_blocks.
Qed.

Lemma writes_uninitialized_copy_n B (p : ptr) (n : nat) (q : ptr) :
  blocks q ⊆ B → writes (V:=V) B (uninitialized_copy_n p n q).
Proof.
  revert p q. induction n as [|n IH]; intros p q Hq; simpl; [apply writes_ret|].
  apply writes_bind; [by apply writes_copy_construct|]. intros _.
  apply writes_unwinding; [by apply writes_destroy_at|]. apply IH. in_blocks.
Qed.

Lemma writes_uninitialized_move_n B (p : ptr) (n : nat) (q : ptr) :
  blocks p ⊆ B → blocks q ⊆ B → writes B (uninitialized_move_n T p n q).
Proof.
  revert p q. induction n as [|n IH]; intros p q Hp Hq; simpl; [apply writes_ret|].
  apply writes_bind; [by apply writes_move_construct|]. intros _.
  apply writes_unwinding; [by apply writes_destroy_at|]. apply IH; in_blocks.
Qed.

Lemma writes_uninitialized_value_construct_n B (p : ptr) (n : nat) :
  blocks p ⊆ B → writes B (uninitialized_value_construct_n T p n).
Proof.
  revert p. induction n as [|n IH]; intros p Hp; simpl; [apply writes_ret|].
  apply writes_bind; [by apply writes_value_construct|]. intros _.
  apply writes_unwinding; [by apply writes_destroy_at|]. apply IH. in_blocks.
Qed.

Lemma writes_copy_loop B (p : ptr) (n : nat) (q : ptr) :
  blocks q ⊆ B → writes (V:=V) B (copy_loop p n q).
Proof.
  revert p q. induction n as [|n IH]; intros p q Hq; simpl; [apply writes_ret|].
  apply writes_bind; [by apply writes_copy_assign|]. intros _. apply IH. in_blocks.
Qed.

Lemma writes_std_copy B (p e q : ptr) :
  blocks q ⊆ B → writes (V:=V) B (std_copy p e q).
Proof.
  intros. unfold std_copy. apply writes_bind; [apply writes_ptr_diff|].
  intros n. by apply writes_copy_loop.
Qed.

Lemma writes_move_loop B (p : ptr) (n : nat) (q : ptr) :
  blocks p ⊆ B → blocks q ⊆ B → writes B (move_loop T p n q).
Proof.
  revert p q. induction n as [|n IH]; intros p q Hp Hq; simpl; [apply writes_ret|].
  apply writes_bind; [by apply writes_move_assign|]. intros _. apply IH; in_blocks.
Qed.

Lemma writes_std_move B (p e q : ptr) :
  blocks p ⊆ B → blocks q ⊆ B → writes B (std_move T p e q).
Proof.
  intros. unfold std_move. apply writes_bind; [apply writes_ptr_diff|].
  intros n. by apply writes_move_loop.
Qed.

Lemma writes_move_backward_loop B (e : ptr) (n : nat) (q : ptr) :
  blocks e ⊆ B → blocks q ⊆ B → writes B (move_backward_loop T e n q).
Proof.
  revert e q. induction n as [|n IH]; intros e q He Hq; simpl; [apply writes_ret|].
  apply writes_bind; [apply writes_move_assign; in_blocks|]. intros _.
  apply IH; in_blocks.
Qed.

Lemma writes_std_move_backward B (p e q : ptr) :
  blocks e ⊆ B → blocks q ⊆ B → writes B (std_move_backward T p e q).
Proof.
  intros. unfold std_move_backward. apply writes_bind; [apply writes_ptr_diff|].
  intros n. by apply writes_move_backward_loop.
Qed.

End footprints_ops.

Ltac writes_alg :=
  repeat first
    [ progress intros
    | first
        [ apply writes_store | apply writes_destroy_at | apply writes_copy_construct
        | apply writes_move_construct | apply writes_copy_assign
        | apply writes_move_assign | apply writes_value_construct
        | apply writes_construct | apply writes_destroy_n
        | apply writes_uninitialized_copy_n | apply writes_uninitialized_move_n
        | apply writes_uninitialized_value_construct_n
        | apply writes_std_copy | apply writes_std_move
        | apply writes_std_move_backward ]; in_blocks
    | apply writes_RawMemory_plus
    | apply writes_bind
    | apply writes_unwinding
    | match goal with
      | |- writes _ (if ?c then _ else _) => destruct c
      end
    | solve [eauto with writes] ].

(** ** Storage accounting *)
Section accounting.
Context {V : Type} (T : ElemType V).
Implicit Types (st : State (V:=V)) (B L : gset nat)
  (F hp : gmap nat (list (option V))) (G : gmap nat Vector).

Lemma heap_is_alloc F L hp (l : nat) (b : list (option V)) :
  heap_is F L hp → hp !! l = None → heap_is F (L ∪ {[l]}) (<[l:=b]> hp) ∧ l ∉ L.
Proof.
  intros (Hd & Hdisj & Hl) Hnone. apply not_elem_of_dom in Hnone.
  split; [|set_solver]. split; [rewrite dom_insert_L; set_solver|].
  split; [set_solver|]. intros l' Hl'. rewrite lookup_insert_ne by set_solver.
  apply Hl. set_solver.
Qed.

Lemma heap_is_free F L hp (l : nat) :
  heap_is F L hp → l ∈ L → heap_is F (L ∖ {[l]}) (delete l hp).
Proof.
  intros (Hd & Hdisj & Hl) Hin.
  split; [rewrite dom_delete_L; set_solver|]. split; [set_solver|].
  intros l' Hl'. destruct (decide (l' = l)) as [->|Hne].
  - rewrite lookup_delete_eq. symmetry. apply not_elem_of_dom. set_solver.
  - rewrite lookup_delete_ne by done. apply Hl. set_solver.
Qed.

Lemma heap_is_modifies F L B st st' :
  heap_is F L (heap st) → modifies B st st' → B ⊆ L → heap_is F L (heap st').
Proof.
  intros (Hd & Hdisj & Hl) (_ & Hd' & Hl') Hsub.
  split; [congruence|]. split; [done|]. intros l Hin.
  rewrite Hl' by set_solver. by apply Hl.
Qed.

Lemma wlp_alg {A} (m : M A) B F L st Q E :
  writes B m → B ⊆ L → heap_is F L (heap st) →
  (∀ a st', vecs st' = vecs st → heap_is F L (heap st') → Q a st') →
  (∀ st', vecs st' = vecs st → heap_is F L (heap st') → E st') →
  wlp m st Q E.
Proof.
  intros Hm Hsub HF HQ HE. eapply wlp_writes; [done|..].
  - intros a st' Hmod. apply HQ; [by destruct Hmod|]. by eapply heap_is_modifies.
  - intros st' Hmod. apply HE; [by destruct Hmod|]. by eapply heap_is_modifies.
Qed.

Lemma wlp_alg_nothrow {A} (m : M A) B F L st Q E :
  writes B m → never_throws m → B ⊆ L → heap_is F L (heap st) →
  (∀ a st', vecs st' = vecs st → heap_is F L (heap st') → Q a st') →
  wlp m st Q E.
Proof.
  intros Hm Hnt Hsub HF HQ. specialize (Hnt st). specialize (Hm st).
  unfold wlp in *. destruct (m st) as [a st'|st'|]; [|by destruct (Hnt st')|done].
  apply HQ; [by destruct Hm|]. by eapply heap_is_modifies.
Qed.

Lemma wlp_RawMemory_new_heap (n : nat) st Q E :
  (n = 0 → Q {| buffer_ := Null; capacity_ := 0 |} st) →
  (∀ l fs', heap st !! l = None →
     Q {| buffer_ := Ptr l 0; capacity_ := n |}
       (mkState (vecs st) (<[l:=replicate n None]> (heap st)) fs' (S (allocs st)))) →
  (∀ fs', E (mkState (vecs st) (heap st) fs' (allocs st))) →
  wlp (RawMemory_new n) st Q E.
Proof.
  intros H0 HQ HE. destruct st as [vs hp fs al]. destruct n as [|n]; [by apply H0|].
  unfold wlp, RawMemory_new, Allocate, bind, may_throw; simpl.
  destruct fs as [|[] fs]; simpl; [|apply HE|]; apply HQ; apply fresh_block_None.
Qed.

Lemma wlp_Deallocate (p : ptr) st Q E :
  (p = Null → Q tt st) →
  (∀ l, p = Ptr l 0 → l ∈ dom (heap st) → Q tt (set_heap (delete l) st)) →
  wlp (Deallocate p) st Q E.
Proof.
  intros H0 HQ. destruct p as [|l [|off]]; [by apply H0| |done].
  unfold wlp; simpl. destruct (heap st !! l) eqn:Hl; [|done].
  apply HQ; [done|]. by eapply elem_of_dom_2.
Qed.

Lemma framed_intro F G (this : nat) (v : Vector) st :
  (∀ k, k ≠ this → vecs st !! k = G !! k) → vecs st !! this = Some v →
  heap_is F (blocks (buffer_ (data_ v))) (heap st) → framed F G this st.
Proof. intros. split; [done|]. by exists v. Qed.

Lemma wlp_begin_vec (this : nat) st Q E :
  (∀ v, vecs st !! this = Some v → Q (buffer_ (data_ v)) st) →
  wlp (begin this) st Q E.
Proof.
  intros HQ. unfold begin. apply wlp_bind, wlp_get_vec. intros v Hv.
  apply wlp_ret. by apply HQ.
Qed.

(** An algorithm that works inside the storage of the vector. *)
Lemma wlp_framed_alg {A} (m : M A) F G (this : nat) (v : Vector) st Q E :
  framed F G this st → vecs st !! this = Some v →
  writes (blocks (buffer_ (data_ v))) m →
  (∀ a st', framed F G this st' → vecs st' = vecs st → Q a st') →
  (∀ st', framed F G this st' → vecs st' = vecs st → E st') →
  wlp m st Q E.
Proof.
  intros (HG & v' & Hv' & HF) Hv Hm HQ HE.
  assert (v' = v) as -> by congruence.
  eapply wlp_alg; [done|done|done|..].
  - intros a st' Hvs HF'. apply HQ; [|done].
    eapply framed_intro; rewrite ?Hvs; done.
  - intros st' Hvs HF'. apply HE; [|done].
    eapply framed_intro; rewrite ?Hvs; done.
Qed.

Lemma set_size_framed F G (this n : nat) st Q E :
  framed F G this st →
  (∀ st', framed F G this st' → Q tt st') →
  wlp (set_size this n) st Q E.
Proof.
  intros (HG & v & Hv & HF) HQ. apply wlp_set_size. intros v' Hv'.
  assert (v' = v) as -> by congruence. apply HQ.
  eapply framed_intro; simpl; [|by rewrite lookup_insert_eq|done].
  intros k Hk. rewrite lookup_insert_ne by done. by apply HG.
Qed.

(** The destructor of the new block on an exceptional exit. *)
Lemma release_new_framed F G (this l c : nat) (v : Vector) st Q E :
  (∀ k, k ≠ this → vecs st !! k = G !! k) → vecs st !! this = Some v →
  heap_is F (blocks (buffer_ (data_ v)) ∪ {[l]}) (heap st) →
  l ∉ blocks (buffer_ (data_ v)) →
  (∀ st', framed F G this st' → Q tt st') →
  wlp (RawMemory_delete {| buffer_ := Ptr l 0; capacity_ := c |}) st Q E.
Proof.
  intros HG Hv HF Hl HQ. unfold RawMemory_delete.
  apply (wlp_Deallocate (Ptr l 0)); [done|]. intros l' [= <-] Hin. apply HQ.
  eapply framed_intro; simpl; [done..|].
  replace (blocks (buffer_ (data_ v))) with
    ((blocks (buffer_ (data_ v)) ∪ {[l]}) ∖ {[l]}) by set_solver.
  apply heap_is_free; [done|set_solver].
Qed.

(** [data_.Swap(new_data)] and the destructor of what was swapped out. *)
Lemma install_steps F G (this l c : nat) (v : Vector) st (Q : unit → State → Prop) E :
  (∀ k, k ≠ this → vecs st !! k = G !! k) → vecs st !! this = Some v →
  heap_is F (blocks (buffer_ (data_ v)) ∪ {[l]}) (heap st) →
  l ∉ blocks (buffer_ (data_ v)) →
  (∀ st', framed F G this st' → Q tt st') →
  wlp (set_data this {| buffer_ := Ptr l 0; capacity_ := c |}) st
    (λ _ st1, wlp (RawMemory_delete (data_ v)) st1 Q E) E.
Proof.
  intros HG Hv HF HlL HQ. apply wlp_set_data.
  intros v2 Hv2. unfold RawMemory_delete. apply wlp_Deallocate.
  - intros Hnull. apply HQ. eapply framed_intro; simpl.
    + intros k Hk. rewrite lookup_insert_ne by done. by apply HG.
    + by rewrite lookup_insert_eq.
    + simpl. rewrite Hnull in HF. simpl in HF.
      by replace ({[l]} : gset nat) with (∅ ∪ {[l]} : gset nat) by set_solver.
  - intros lo Hlo Hin. apply HQ. eapply framed_intro; simpl.
    + intros k Hk. rewrite lookup_insert_ne by done. by apply HG.
    + by rewrite lookup_insert_eq.
    + simpl. rewrite Hlo in HF, HlL. simpl in HF, HlL.
      replace ({[l]} : gset nat) with (({[lo]} ∪ {[l]}) ∖ {[lo]} : gset nat)
        by set_solver.
      apply heap_is_free; [done|set_solver].
Qed.

Lemma install_framed F G (this l c : nat) (v : Vector) st Q E :
  (∀ k, k ≠ this → vecs st !! k = G !! k) → vecs st !! this = Some v →
  heap_is F (blocks (buffer_ (data_ v)) ∪ {[l]}) (heap st) →
  l ∉ blocks (buffer_ (data_ v)) →
  (∀ st', framed F G this st' → Q tt st') →
  wlp (set_data this {| buffer_ := Ptr l 0; capacity_ := c |} ;;;
       RawMemory_delete (data_ v)) st Q E.
Proof.
  intros HG Hv HF HlL HQ. apply wlp_bind.
  by eapply install_steps.
Qed.

Lemma install_framed_then {A} F G (this l c : nat) (v : Vector) (k : M A) st Q E :
  (∀ k, k ≠ this → vecs st !! k = G !! k) → vecs st !! this = Some v →
  heap_is F (blocks (buffer_ (data_ v)) ∪ {[l]}) (heap st) →
  l ∉ blocks (buffer_ (data_ v)) →
  (∀ st', framed F G this st' → wlp k st' Q E) →
  wlp (set_data this {| buffer_ := Ptr l 0; capacity_ := c |} ;;;
       RawMemory_delete (data_ v) ;;; k) st Q E.
Proof.
  intros HG Hv HF HlL HQ. apply wlp_bind.
  eapply wlp_mono;
    [by eapply (install_steps _ _ _ _ _ _ _ (λ _ st', wlp k st' Q E))| |done].
  intros ? st1 H1. by apply wlp_bind.
Qed.

Lemma Reserve_framed F G (this n : nat) st :
  framed F G this st →
  wlp (Reserve T this n) st (λ _ st', framed F G this st') (λ st', framed F G this st').
Proof.
  intros Hfr. pose proof Hfr as (HG & v & Hv & HF).
  unfold Reserve. apply wlp_bind, wlp_get_vec.
  intros v' Hv'. assert (v' = v) as -> by congruence.
  unfold RawMemory_Capacity, GetAddress.
  case_decide as Hn; [by apply wlp_ret|].
  apply wlp_bind, wlp_RawMemory_new_heap; [intros ->; lia| |done].
  intros l fs' Hl.
  destruct (heap_is_alloc _ _ _ l (replicate n None) HF Hl) as (HF1 & HlL).
  apply wlp_bind, wlp_unwinding. simpl.
  eapply (wlp_alg _ (blocks (buffer_ (data_ v)) ∪ {[l]})); [|done|exact HF1|..].
  - writes_alg.
  - intros ? st2 Hv2 HF2. simpl in Hv2.
    eapply install_framed; rewrite ?Hv2; done.
  - intros st2 Hv2 HF2. simpl in Hv2.
    eapply release_new_framed; rewrite ?Hv2; done.
Qed.

Lemma PopBack_framed F G (this : nat) st :
  framed F G this st →
  wlp (PopBack this) st (λ _ st', framed F G this st') (λ st', framed F G this st').
Proof.
  intros Hfr. unfold PopBack. apply wlp_bind, wlp_get_vec. intros v Hv.
  case_decide; [|by apply wlp_ret]. apply wlp_bind.
  eapply wlp_framed_alg; [done|done|writes_alg| |done].
  intros ? st1 Hfr1 _. by eapply set_size_framed.
Qed.

Lemma Resize_framed F G (this n : nat) st :
  framed F G this st →
  wlp (Resize T this n) st (λ _ st', framed F G this st') (λ st', framed F G this st').
Proof.
  intros Hfr. unfold Resize. apply wlp_bind, wlp_get_vec. intros v Hv.
  case_decide; [|by apply wlp_ret]. case_decide.
  - apply wlp_bind. eapply wlp_framed_alg; [done|done|writes_alg| |done].
    intros ? st1 Hfr1 _. by eapply set_size_framed.
  - apply wlp_bind. eapply wlp_mono; [by apply Reserve_framed| |done].
    intros ? st1 Hfr1. simpl in Hfr1.
    apply wlp_bind, wlp_get_vec. intros v1 Hv1. apply wlp_bind.
    eapply wlp_framed_alg; [done|done|writes_alg| |done].
    intros ? st2 Hfr2 _. by eapply set_size_framed.
Qed.

Lemma EmplaceBack_framed F G (this : nat) (a : Args V) st :
  framed F G this st →
  wlp (EmplaceBack T this a) st (λ _ st', framed F G this st')
    (λ st', framed F G this st').
Proof.
  intros Hfr. pose proof Hfr as (HG & v & Hv & HF).
  unfold EmplaceBack. apply wlp_bind, wlp_get_vec.
  intros v' Hv'. assert (v' = v) as -> by congruence.
  unfold RawMemory_Capacity, GetAddress.
  assert (∀ st', framed F G this st' →
    wlp (v0 <- get_vec this;; set_size this (size_ v0 + 1);;;
         v1 <- get_vec this;; RawMemory_index (data_ v1) (size_ v1 - 1)) st'
      (λ _ st'', framed F G this st'') (λ st'', framed F G this st'')) as Htail.
  { intros st' Hfr'. apply wlp_bind, wlp_get_vec. intros v0 Hv0. apply wlp_bind.
    eapply set_size_framed; [done|]. intros st2 Hfr2.
    apply wlp_bind, wlp_get_vec. intros v1 Hv1.
    eapply wlp_framed_alg; [done|done| |done..].
    unfold RawMemory_index. writes_alg. }
  apply wlp_bind. case_decide.
  - eapply wlp_framed_alg; [done|done|writes_alg| |done].
    intros ? st1 Hfr1 _. by apply Htail.
  - apply wlp_bind, wlp_RawMemory_new_heap; [case_decide; intros; lia| |done].
    intros l fs' Hl.
    destruct (heap_is_alloc _ _ _ l
      (replicate (if decide (size_ v = 0) then 1 else size_ v * 2) None) HF Hl)
      as (HF1 & HlL).
    apply wlp_bind, wlp_unwinding.
    eapply (wlp_alg _ (blocks (buffer_ (data_ v)) ∪ {[l]})); [|done|exact HF1|..].
    + writes_alg.
    + intros ? st2 Hv2 HF2. simpl in Hv2. apply wlp_bind.
      eapply (wlp_alg_nothrow _ (blocks (buffer_ (data_ v)) ∪ {[l]}));
        [|apply nt_destroy_n|done|exact HF2|].
      * writes_alg.
      * intros ? st3 Hv3 HF3. rewrite Hv2 in Hv3.
        eapply install_framed; rewrite ?Hv3; done.
    + intros st2 Hv2 HF2. simpl in Hv2.
      eapply release_new_framed; rewrite ?Hv2; done.
Qed.

Lemma Emplace_framed F G (this : nat) (pos : ptr) (a : Args V) st :
  framed F G this st →
  wlp (Emplace T this pos a) st (λ _ st', framed F G this st')
    (λ st', framed F G this st').
Proof.
  intros Hfr. unfold Emplace. apply wlp_bind, wlp_begin_vec. intros v Hv.
  apply wlp_bind. eapply wlp_framed_alg; [done|done|writes_alg| |done].
  intros index st0 Hfr0 Hv0. rewrite <- Hv0 in Hv. clear dependent st.
  pose proof Hfr0 as (HG & v' & Hv' & HF).
  assert (v' = v) as -> by congruence. clear Hv'.
  apply wlp_bind, wlp_get_vec.
  intros v' Hv'. assert (v' = v) as -> by congruence. clear Hv'.
  unfold RawMemory_Capacity, GetAddress.
  assert (∀ (result : ptr) st', framed F G this st' →
    wlp (v0 <- get_vec this;; set_size this (size_ v0 + 1);;; ret result) st'
      (λ _ st'', framed F G this st'') (λ st'', framed F G this st'')) as Htail.
  { intros result st' Hfr'. apply wlp_bind, wlp_get_vec. intros v0 Hv0'.
    apply wlp_bind. eapply set_size_framed; [done|]. intros st2 Hfr2.
    by apply wlp_ret. }
  apply wlp_bind. case_decide.
  - eapply wlp_framed_alg; [done|done|writes_alg| |done].
    intros r st1 Hfr1 _. by apply Htail.
  - apply wlp_bind, wlp_RawMemory_new_heap; [case_decide; intros; lia| |done].
    intros l fs' Hl.
    destruct (heap_is_alloc _ _ _ l
      (replicate (if decide (size_ v = 0) then 1 else size_ v * 2) None) HF Hl)
      as (HF1 & HlL).
    apply wlp_bind, wlp_unwinding.
    eapply (wlp_alg _ (blocks (buffer_ (data_ v)) ∪ {[l]})); [|done|exact HF1|..].
    + writes_alg.
    + intros result st2 Hv2 HF2. simpl in Hv2. apply wlp_bind.
      eapply (wlp_alg_nothrow _ (blocks (buffer_ (data_ v)) ∪ {[l]}));
        [|apply nt_destroy_n|done|exact HF2|].
      * writes_alg.
      * intros ? st3 Hv3 HF3. rewrite Hv2 in Hv3.
        eapply install_framed_then; rewrite ?Hv3; try done.
        intros st4 Hfr4. apply wlp_ret. by apply Htail.
    + intros st2 Hv2 HF2. simpl in Hv2.
      eapply release_new_framed; rewrite ?Hv2; done.
Qed.

Lemma Erase_framed F G (this : nat) (pos : ptr) st :
  framed F G this st →
  wlp (Erase T this pos) st (λ _ st', framed F G this st')
    (λ st', framed F G this st').
Proof.
  intros Hfr. unfold Erase. apply wlp_bind, wlp_begin_vec. intros v Hv.
  apply wlp_bind. eapply wlp_framed_alg; [done|done|writes_alg| |done].
  intros index st0 Hfr0 Hv0. rewrite <- Hv0 in Hv. clear dependent st.
  unfold end_. apply wlp_bind, wlp_bind, wlp_get_vec.
  intros v' Hv'. assert (v' = v) as -> by congruence. apply wlp_ret.
  apply wlp_bind. eapply wlp_framed_alg; [done|done|writes_alg| |done].
  intros ? st1 Hfr1 Hv1. apply wlp_bind.
  eapply wlp_mono; [by apply PopBack_framed| |done].
  intros ? st2 Hfr2. simpl in Hfr2. apply wlp_bind, wlp_begin_vec. intros v2 Hv2.
  by apply wlp_ret.
Qed.

Lemma assign_copy_framed F G (this rhs : nat) st :
  framed F G this st →
  wlp (assign_copy this rhs) st (λ _ st', framed F G this st')
    (λ st', framed F G this st').
Proof.
  intros Hfr. pose proof Hfr as (HG & t & Ht & HF).
  unfold assign_copy. case_decide as Hne; [|by apply wlp_ret].
  apply wlp_bind, wlp_get_vec. intros r Hr.
  apply wlp_bind, wlp_get_vec. intros t' Ht'.
  assert (t' = t) as -> by congruence. clear Ht'.
  unfold RawMemory_Capacity, GetAddress. apply wlp_bind. case_decide as Hgrow.
  - apply wlp_bind. unfold wlp at 1, local_vec.
    set (tmp := fresh (dom (vecs st))).
    assert (vecs st !! tmp = None) as Htmp by apply fresh_vec_None.
    assert (this ≠ tmp) as Hat by (intros Heq; rewrite <- Heq in Htmp; congruence).
    apply wlp_bind. unfold Vector_copy.
    apply wlp_bind, wlp_get_vec. intros o Ho.
    assert (o = r) as -> by congruence. clear Ho.
    apply wlp_bind, wlp_RawMemory_new_heap; [lia| |done].
    intros l fs' Hl.
    destruct (heap_is_alloc _ _ _ l (replicate (size_ r) None) HF Hl) as (HF1 & HlL).
    apply wlp_bind, wlp_unwinding. unfold GetAddress; simpl.
    eapply (wlp_alg _ {[l]} _ (blocks (buffer_ (data_ t)) ∪ {[l]}));
      [|set_solver|exact HF1|..].
    + writes_alg.
    + intros ? st2 Hv2 HF2. simpl in Hv2. apply wlp_put_vec. apply wlp_bind.
      eapply wlp_Swap; [done| |by simpl; rewrite lookup_insert_eq|].
      { simpl. rewrite lookup_insert_ne by done. by rewrite Hv2. }
      unfold Vector_delete. apply wlp_bind, wlp_get_vec. intros d Hd.
      simpl in Hd. rewrite lookup_insert_eq in Hd. injection Hd as <-.
      apply wlp_bind.
      eapply (wlp_alg_nothrow _ (blocks (buffer_ (data_ t)) ∪ {[l]}));
        [|apply nt_destroy_n|set_solver|exact HF2|].
      { writes_alg. }
      intros ? st3 Hv3 HF3. simpl in Hv3. apply wlp_bind.
      unfold RawMemory_delete.
      assert (∀ k, k ≠ this →
        delete tmp (<[tmp:=t]>
          (<[this:={| size_ := size_ r;
                      data_ := {| buffer_ := Ptr l 0; capacity_ := size_ r |} |}]>
             (<[tmp:={| size_ := size_ r;
                        data_ := {| buffer_ := Ptr l 0; capacity_ := size_ r |} |}]>
                (vecs st2)))) !! k = G !! k) as HG'.
      { intros k Hk. destruct (decide (k = tmp)) as [->|Hkt].
        - rewrite lookup_delete_eq, <- HG by done. done.
        - rewrite lookup_delete_ne, !lookup_insert_ne by done.
          rewrite Hv2. by apply HG. }
      apply wlp_Deallocate.
      * intros Hnull. unfold wlp. eapply framed_intro; simpl.
        -- rewrite Hv3; simpl. exact HG'.
        -- rewrite Hv3; simpl.
           by rewrite lookup_delete_ne, lookup_insert_ne, lookup_insert_eq.
        -- simpl. rewrite Hnull in HF3. simpl in HF3.
           by replace ({[l]} : gset nat) with (∅ ∪ {[l]} : gset nat) by set_solver.
      * intros lo Hlo Hin. unfold wlp. eapply framed_intro; simpl.
        -- rewrite Hv3; simpl. exact HG'.
        -- rewrite Hv3; simpl.
           by rewrite lookup_delete_ne, lookup_insert_ne, lookup_insert_eq.
        -- simpl. rewrite Hlo in HF3, HlL. simpl in HF3, HlL.
           replace ({[l]} : gset nat) with (({[lo]} ∪ {[l]}) ∖ {[lo]} : gset nat)
             by set_solver.
           apply heap_is_free; [done|set_solver].
    + intros st2 Hv2 HF2. simpl in Hv2.
      eapply release_new_framed; rewrite ?Hv2; done.
  - apply wlp_bind.
    eapply wlp_framed_alg; [done|done|writes_alg| |done].
    intros ? st1 Hfr1 _. eapply set_size_framed; [done|]. intros st2 Hfr2.
    by apply wlp_ret.
Qed.

Lemma run_op_framed F G (this : nat) (o : op V) st :
  framed F G this st →
  wlp (run_op T this o) st (λ _ st', framed F G this st') (λ st', framed F G this st').
Proof.
  intros Hfr.
  assert (∀ {A} (m : M A),
    wlp m st (λ _ st', framed F G this st') (λ st', framed F G this st') →
    wlp (m ;;; ret tt) st (λ _ st', framed F G this st') (λ st', framed F G this st'))
    as Hret.
  { intros A m Hm. apply wlp_bind. eapply wlp_mono; [exact Hm| |done].
    intros ? st' Hfr'. by apply wlp_ret. }
  destruct o; simpl.
  - by apply Reserve_framed.
  - by apply Resize_framed.
  - by apply Hret, EmplaceBack_framed.
  - by apply Hret, EmplaceBack_framed.
  - by apply Hret, EmplaceBack_framed.
  - by apply Hret, Emplace_framed.
  - by apply Hret, Emplace_framed.
  - by apply Hret, Emplace_framed.
  - by apply Hret, Erase_framed.
  - by apply PopBack_framed.
  - by apply Hret, assign_copy_framed.
Qed.

End accounting.

Section accounting_theorems.
Context {V : Type} (T : ElemType V).
Implicit Types (st : State (V:=V)) (xs ys : list V) (B L : gset nat)
  (F hp : gmap nat (list (option V))) (G : gmap nat Vector).

Lemma owns_framed st this p xs cap :
  owns st this p xs cap → framed (release p (heap st)) (vecs st) this st.
Proof.
  intros (Hv & _ & Hp). eapply framed_intro; [done|done|]. simpl.
  destruct p as [|l off]; simpl.
  - split; [set_solver|]. split; [set_solver|done].
  - destruct Hp as (_ & _ & Hl). apply elem_of_dom_2 in Hl.
    split; [rewrite dom_delete_L|split; [rewrite dom_delete_L; set_solver|]].
    + apply set_eq. intros k. rewrite elem_of_union, elem_of_difference.
      destruct (decide (k = l)) as [->|]; set_solver.
    + intros k Hk. rewrite lookup_delete_ne; [done|set_solver].
Qed.

Lemma heap_is_release F (p : ptr) hp : heap_is F (blocks p) hp → release p hp = F.
Proof.
  intros (Hd & Hdisj & Hl). destruct p as [|l off]; simpl in *.
  - apply map_eq. intros k. apply Hl. set_solver.
  - apply map_eq. intros k. destruct (decide (k = l)) as [->|Hne].
    + rewrite lookup_delete_eq. symmetry. apply not_elem_of_dom. set_solver.
    + rewrite lookup_delete_ne by done. apply Hl. set_solver.
Qed.

Lemma framed_accounted st this p st' :
  framed (release p (heap st)) (vecs st) this st' → accounted st this p st'.
Proof.
  intros (HG & v & Hv & HF). split; [done|]. exists v. split; [done|].
  by apply heap_is_release.
Qed.

Lemma run_op_accounted st this p xs cap (o : op V) :
  owns st this p xs cap → well_posed st this p xs o →
  wp (run_op T this o) st (λ _ st', accounted st this p st')
    (λ st', accounted st this p st').
Proof.
  intros Ho Hwp.
  pose proof (wp_wlp_conj _ _ _ _ _ _
    (invariant_preserved T _ _ _ _ _ o Ho Hwp)
    (run_op_framed T _ _ this o st (owns_framed _ _ _ _ _ Ho))) as H.
  eapply wp_mono; [exact H|..]; simpl.
  - intros _ st' (_ & Hfr). by apply framed_accounted.
  - intros st' (_ & Hfr). by apply framed_accounted.
Qed.

Lemma accounted_other st this p xs cap st' other pb ys cb :
  owns st this p xs cap → owns st other pb ys cb →
  other ≠ this → p = Null ∨ p ≠ pb →
  accounted st this p st' → owns st' other pb ys cb.
Proof.
  intros (_ & _ & Hp) (Hb & Hle & Hpb) Hne Hsep (HG & v' & Hv' & Hrel).
  split; [by rewrite HG|]. split; [done|].
  destruct pb as [|lb off]; [done|]. destruct Hpb as (-> & Hpos & Hlb).
  split; [done|]. split; [done|].
  assert (release p (heap st) !! lb = Some (block_of ys cb)) as HF.
  { destruct p as [|l off]; simpl; [done|]. destruct Hp as (-> & _).
    rewrite lookup_delete_ne; [done|]. destruct Hsep as [|Hsep]; congruence. }
  rewrite <- Hrel in HF. destruct (buffer_ (data_ v')) as [|l' off']; simpl in HF.
  - done.
  - destruct (decide (l' = lb)) as [->|Hne'].
    + by rewrite lookup_delete_eq in HF.
    + by rewrite lookup_delete_ne in HF.
Qed.

End accounting_theorems.

(** ** The properties *)
Section properties.
Context {V : Type} (T : ElemType V).
Implicit Types (st : State (V:=V)) (xs ys : list V).


(** X2: the copy constructor, from a vector [other] satisfying the
    invariant.  When it completes, the new vector holds the values of
    [other] in a block of its own, with capacity equal to the size of
    [other] (not to its capacity); [other] and every other vector are
    unchanged and the heap is the old one plus that block; an empty source
    allocates nothing.  When it throws, every vector object and every block
    is as before. *)
Theorem X2_Vector_copy st this other pb ys cb :
  owns st other pb ys cb → this ≠ other →
  wp (Vector_copy this other) st
    (λ _ st', ∃ p,
       owns st' this p ys (length ys) ∧ owns st' other pb ys cb ∧
       (p = Null ∨ p ≠ pb) ∧
       (∀ k, k ≠ this → vecs st' !! k = vecs st !! k) ∧
       release p (heap st') = heap st ∧
       allocs st' = (if decide (ys = []) then allocs st else S (allocs st)))
    (λ st', faults st ≠ [] ∧ vecs st' = vecs st ∧ heap st' = heap st).
Proof. apply Vector_copy_owns. Qed.

(** X3: destroying a vector that satisfies the invariant returns normally;
    afterwards the vector object is gone and the heap is the old one without
    the storage block of the vector; the exception schedule and the
    allocation count are unchanged. *)
Theorem X3_Vector_delete st this p xs cap :
  owns st this p xs cap →
  Vector_delete this st =
    Ok tt (mkState (delete this (vecs st)) (release p (heap st)) (faults st) (allocs st)).
Proof. apply Vector_delete_owns. Qed.



(** X6: [EmplaceBack] on a vector satisfying the invariant returns a
    reference to the new last element, [data_[size_ - 1]], which holds the
    constructed value.  With spare capacity the storage block and the
    capacity stay the same and nothing is allocated, so pointers to the
    other elements stay valid; a full vector takes exactly one allocation.
    When it throws with spare capacity, every vector object and every block
    is as before, for every element type. *)
Theorem X6_EmplaceBack st this p xs cap (a : Args V) :
  owns st this p xs cap →
  wp (EmplaceBack T this a) st
    (λ r st', ∃ p' cap',
       owns st' this p' (xs ++ [args_value a]) cap' ∧
       r = ptr_add p' (length xs) ∧
       load r st' = Ok (args_value a) st' ∧
       (length xs < cap → p' = p ∧ cap' = cap ∧ allocs st' = allocs st) ∧
       (length xs = cap → allocs st' = S (allocs st)))
    (λ st', faults st ≠ [] ∧ vecs st' = vecs st ∧
            (length xs < cap → heap st' = heap st)).
Proof.
  intros Ho. eapply wp_mono; [by apply EmplaceBack_spec| |].
  - intros r st' (p' & cap' & Ho' & -> & Hspare & Hfull & _).
    exists p', cap'. split; [done|]. split; [done|].
    split; [|split; [done|intros H; by destruct (Hfull H)]].
    eapply load_owns; [done|]. by rewrite lookup_app_r, Nat.sub_diag.
  - intros st' (? & ? & Hhp & _). auto.
Qed.

(** X7: [PopBack] on a non-empty vector satisfying the invariant removes
    the last element and nothing else: same storage block, same capacity,
    no allocation, no scheduled exception consumed; it never throws. *)
Theorem X7_PopBack st this p xs z cap :
  owns st this p (xs ++ [z]) cap →
  wp (PopBack this) st
    (λ _ st', owns st' this p xs cap ∧ allocs st' = allocs st ∧
              faults st' = faults st)
    (λ _, False).
Proof. apply PopBack_spec. Qed.

(** X8: [Emplace] at a valid position [index <= size] of a full vector
    (size equal to capacity).  When it returns, the values are the old ones
    with the new value inserted at [index], in a newly allocated block of
    twice the capacity (one for capacity zero), and the returned iterator is
    [begin() + index] in the new storage and points to the new value.  When
    it throws, no vector object has changed and the vector satisfies the
    invariant with its old size, capacity and storage; for an element type
    that is nothrow-move-constructible or copy-constructible every block is
    as before. *)
Theorem X8_Emplace_full st this p xs cap index (a : Args V) :
  owns st this p xs cap → length xs = cap → index ≤ length xs →
  wp (Emplace T this (ptr_add p index) a) st
    (λ r st', ∃ p',
       owns st' this p' (take index xs ++ args_value a :: drop index xs)
            (if decide (cap = 0) then 1 else cap * 2) ∧
       r = ptr_add p' index ∧
       load r st' = Ok (args_value a) st' ∧
       allocs st' = S (allocs st))
    (λ st', faults st ≠ [] ∧ vecs st' = vecs st ∧
       (is_nothrow_move_constructible T || is_copy_constructible T = true →
        heap st' = heap st) ∧
       ∃ ys, length ys = length xs ∧ owns st' this p ys cap).
Proof.
  intros Ho Hfull Hidx. eapply wp_mono; [by apply Emplace_full_spec| |done].
  intros r st' (p' & Ho' & -> & ? & _). exists p'.
  split; [done|]. split; [done|]. split; [|done].
  eapply load_owns; [done|].
  rewrite lookup_app_r by (rewrite length_take; lia).
  rewrite length_take. by replace (index - index `min` length xs) with 0 by lia.
Qed.





(** X13: reading [v[i]] of a vector satisfying the invariant yields the
    [i]-th value and leaves the state unchanged when [i < size]; for any
    other index the [assert] fails.  The bound is the size, not the
    capacity. *)
Theorem X13_operator_index st this p xs cap i :
  owns st this p xs cap →
  read this i st = match xs !! i with Some x => Ok x st | None => Fault end.
Proof.
  intros Ho. destruct (xs !! i) as [x|] eqn:Hi; [by eapply read_owns|].
  apply lookup_ge_None in Hi. destruct Ho as (Hv & _).
  unfold read, operator_index, bind, get_vec, assert. rewrite Hv; simpl.
  by rewrite bool_decide_eq_false_2 by lia.
Qed.

Lemma Swap_twice st (this other : nat) (a b : Vector) :
  vecs st !! this = Some a → vecs st !! other = Some b →
  Swap this this st = Ok tt st ∧
  (Swap this other ;;; Swap this other) st = Ok tt st.
Proof.
  destruct st as [vs hp fs al]; simpl. intros Ha Hb.
  assert (∀ k (c : Vector), vs !! k = Some c →
    Swap k k (mkState vs hp fs al) = Ok tt (mkState vs hp fs al)) as Hself.
  { intros k c Hc. apply wp_run_eq. unfold Swap.
    apply wp_bind. eapply wp_get_vec; [done|].
    apply wp_bind. eapply wp_get_vec; [done|].
    apply wp_bind. eapply wp_set_data; [done|].
    apply wp_bind. eapply wp_set_data; [by rewrite lookup_insert_eq|].
    apply wp_bind. eapply wp_get_vec; [by rewrite lookup_insert_eq|].
    apply wp_bind. eapply wp_get_vec; [by rewrite lookup_insert_eq|].
    apply wp_bind. eapply wp_set_size; [by rewrite lookup_insert_eq|].
    eapply wp_set_size; [by rewrite lookup_insert_eq|].
    simpl. split; [done|]. rewrite !insert_insert_eq.
    destruct c as [sc [bc cc]]; simpl. by rewrite insert_id. }
  split; [by eapply Hself|].
  destruct (decide (this = other)) as [<-|Hne].
  { unfold bind at 1. by rewrite (Hself this a), (Hself this a). }
  apply wp_run_eq, wp_bind. eapply wp_Swap; [done..|].
  eapply wp_Swap; [done| | |].
  - by rewrite lookup_insert_ne, lookup_insert_eq.
  - by rewrite lookup_insert_eq.
  - split; [done|]. f_equal. apply map_eq. intros k.
    destruct (decide (k = other)) as [->|]; [by rewrite lookup_insert_eq|].
    rewrite lookup_insert_ne by done.
    destruct (decide (k = this)) as [->|]; [by rewrite lookup_insert_eq|].
    by rewrite !lookup_insert_ne.
Qed.

(** X14: [Swap] of two vectors that satisfy the invariant exchanges their
    storage, sizes and values and touches nothing else: no block, no
    scheduled exception, no allocation.  Swapping twice, and swapping a
    vector with itself, change nothing. *)
Theorem X14_Swap st (this other : nat) pa pb xs ys ca cb :
  owns st this pa xs ca → owns st other pb ys cb →
  (∃ st', Swap this other st = Ok tt st' ∧
          owns st' this pb ys cb ∧ owns st' other pa xs ca ∧
          heap st' = heap st ∧ faults st' = faults st ∧ allocs st' = allocs st) ∧
  (Swap this other ;;; Swap this other) st = Ok tt st.
Proof.
  intros Ha Hb. pose proof Ha as (Hva & Hlea & Hpa). pose proof Hb as (Hvb & Hleb & Hpb).
  split; [|by eapply Swap_twice].
  destruct (decide (this = other)) as [<-|Hne].
  { exists st. split; [by eapply Swap_twice|]. done. }
  destruct st as [vs hp fs al]. simpl in *. eexists. split.
  { apply wp_run_eq. eapply wp_Swap; [done..|]. split; reflexivity. }
  split; [|split; [|done]].
  - split; simpl; [by rewrite lookup_insert_ne, lookup_insert_eq|done].
  - split; simpl; [by rewrite lookup_insert_eq|done].
Qed.

(** X15: [Erase] does not check its position: on a vector with storage,
    erasing at [end()] or beyond is undefined behaviour (the range given to
    [std::move] ends before it starts). *)
Theorem X15_Erase_out_of_range st this l xs cap index :
  owns st this (Ptr l 0) xs cap → length xs ≤ index →
  Erase T this (Ptr l index) st = Fault.
Proof.
  intros (Hv & _) Hidx.
  unfold Erase, begin, end_, bind, get_vec. rewrite Hv; simpl.
  unfold ptr_diff. rewrite decide_True by (split; [done|lia]). simpl.
  rewrite Hv; simpl. unfold std_move, bind, ptr_diff.
  by rewrite decide_False by lia.
Qed.

(** X16: walking a vector that satisfies the invariant from [cbegin()] to
    [cend()] reads exactly its values, in order, and leaves the state
    unchanged; [cend() - cbegin()] is the size. *)
Theorem X16_iterate st this p xs cap :
  owns st this p xs cap → iterate this st = Ok xs st.
Proof.
  intros (Hv & Hle & Hp).
  unfold iterate, cbegin, cend, begin, end_, bind, get_vec. rewrite Hv; simpl.
  rewrite Hv; simpl. unfold GetAddress; simpl.
  destruct p as [|l off]; simpl.
  - assert (xs = []) as -> by (apply length_zero_iff_nil; lia). done.
  - destruct Hp as (-> & _ & Hl). unfold ptr_diff.
    rewrite decide_True by (split; [done|lia]). simpl.
    rewrite Nat.sub_0_r. eapply read_range_block; [done|].
    intros i x Hi. by apply block_of_lookup.
Qed.

(** X17: the move constructor and the move assignment of [RawMemory] copy
    the pointer and leave it in the source as well, so that source and
    target refer to one block: when the source has a buffer, running the
    destructors of both objects deallocates it twice. *)
Theorem X17_RawMemory_move (r this : RawMemory) st :
  buffer_ r ≠ Null →
  (RawMemory_delete (RawMemory_move r).1 ;;; RawMemory_delete (RawMemory_move r).2) st
    = Fault ∧
  (RawMemory_delete (RawMemory_assign_move this r).1 ;;;
   RawMemory_delete (RawMemory_assign_move this r).2) st = Fault.
Proof.
  intros Hr. unfold RawMemory_move, RawMemory_assign_move, RawMemory_delete; simpl.
  assert ((Deallocate (buffer_ r) ;;; Deallocate (buffer_ r)) st = Fault); [|done].
  destruct (buffer_ r) as [|l [|off]]; [done| |done].
  unfold bind, Deallocate. destruct (heap st !! l) eqn:Hl; [|done].
  simpl. by rewrite lookup_delete_eq.
Qed.

(** X18: the members declared [noexcept], and the destructor, never leave
    by an exception, whatever the state: [begin], [end], [cbegin], [cend],
    [Size], [Capacity], [operator[]], [PopBack], [Swap], the move
    constructor and move assignment; [Erase] when the element type is
    nothrow-move-assignable, as its conditional [noexcept] says. *)
Theorem X18_noexcept (this other index : nat) (pos : ptr) :
  never_throws (V:=V) (begin this) ∧ never_throws (V:=V) (end_ this) ∧
  never_throws (V:=V) (cbegin this) ∧ never_throws (V:=V) (cend this) ∧
  never_throws (V:=V) (Size this) ∧ never_throws (V:=V) (Capacity this) ∧
  never_throws (V:=V) (operator_index this index) ∧
  never_throws (V:=V) (PopBack this) ∧ never_throws (V:=V) (Swap this other) ∧
  never_throws (V:=V) (Vector_move this other) ∧
  never_throws (V:=V) (assign_move this other) ∧
  never_throws (V:=V) (Vector_delete this) ∧
  (is_nothrow_move_assignable T = true → never_throws (Erase T this pos)).
Proof.
  pose proof (nt_PopBack (V:=V)). pose proof (nt_Swap (V:=V)).
  repeat split.
  - unfold begin. nothrow.
  - unfold end_. nothrow.
  - unfold cbegin, begin. nothrow.
  - unfold cend, end_. nothrow.
  - unfold Size. nothrow.
  - unfold Capacity. nothrow.
  - unfold operator_index, RawMemory_index. nothrow.
  - done.
  - done.
  - unfold Vector_move, Vector_default. apply nt_bind; [nothrow|auto].
  - unfold assign_move. case_decide; [|nothrow]. apply nt_bind; [auto|nothrow].
  - unfold Vector_delete, RawMemory_delete. apply nt_bind; [nothrow|]. intros v.
    apply nt_bind; [apply nt_destroy_n|]. intros _.
    apply nt_bind; [nothrow|]. by intros _ st st'.
  - intros HT. unfold Erase, begin, end_.
    apply nt_bind; [nothrow|]. intros b. apply nt_bind; [nothrow|]. intros i.
    apply nt_bind; [nothrow|]. intros e.
    apply nt_bind.
    { unfold std_move. apply nt_bind; [nothrow|]. intros n. by apply nt_move_loop. }
    intros _. apply nt_bind; [done|]. nothrow.
Qed.

(** X19: appending [n > 0] elements to a default-constructed vector, by any
    mix of [PushBack] and [EmplaceBack], ends with a capacity [2 ^ k] with
    [2 ^ k < 2 * n] (and [n <= 2 ^ k] by the invariant), after exactly
    [k + 1] allocations; no append allocates nothing and leaves capacity 0.
    The run throws only if an exception is scheduled. *)
Theorem X19_growth_policy (this : nat) (ops : list (Args V)) st :
  wp (Vector_default this ;;; append_all T this ops) st
    (λ _ st', ∃ p cap, owns st' this p (args_value <$> ops) cap ∧
       (ops = [] → cap = 0 ∧ allocs st' = allocs st) ∧
       (ops ≠ [] → ∃ k, cap = 2 ^ k ∧ cap < 2 * length ops ∧
                        allocs st' = allocs st + S k))
    (λ _, faults st ≠ []).
Proof.
  destruct st as [vs hp fs al]. apply wp_bind. unfold Vector_default.
  apply wp_put_vec.
  eapply wp_mono;
    [eapply (append_all_grown T _ _ _ _ _ _ al); [apply Vector_default_owns|by left]|
     |done].
  intros _ st' (p' & cap' & Ho & Hg & _). simpl in Ho, Hg.
  rewrite length_fmap in Hg. exists p', cap'. split; [done|]. split.
  - intros ->. destruct Hg as [(_ & ? & ?)|(k & _ & ? & _)]; [done|simpl in *; lia].
  - intros Hne. destruct Hg as [(Hlen & _)|Hg]; [|done].
    by destruct ops.
Qed.

(** X20: appends that fit into the capacity, as after [Reserve], never
    reallocate: when they return, the storage block and the capacity are the
    same and nothing was allocated.  When one of them throws, the vector
    holds the old values and those appended before, in the same block. *)
Theorem X20_appends_within_capacity st this p xs cap (ops : list (Args V)) :
  owns st this p xs cap → length xs + length ops ≤ cap →
  wp (append_all T this ops) st
    (λ _ st', owns st' this p (xs ++ (args_value <$> ops)) cap ∧
              allocs st' = allocs st)
    (λ st', faults st ≠ [] ∧
            ∃ k, k < length ops ∧
                 owns st' this p (xs ++ take k (args_value <$> ops)) cap).
Proof.
  revert st xs. induction ops as [|a ops IH]; intros st xs Ho Hlen.
  { apply wp_ret. by rewrite app_nil_r. }
  simpl in Hlen. simpl. apply wp_bind. rewrite append_EmplaceBack. apply wp_bind_ret.
  eapply wp_mono; [by apply EmplaceBack_spec| |].
  2:{ intros st1 (Hfs & Hvs & Hhp & _). split; [done|]. exists 0.
      split; [lia|]. rewrite app_nil_r.
      eapply owns_same; [done|apply Hhp; left; lia|done]. }
  intros r st1 (p1 & cap1 & Ho1 & _ & Hspare & _ & Hfs1).
  destruct Hspare as (-> & -> & Hal); [lia|].
  eapply wp_mono; [eapply (IH _ _ Ho1)| |].
  - rewrite length_app; simpl. lia.
  - intros _ st2 (Ho2 & Hal2). rewrite <- app_assoc in Ho2. split; [done|congruence].
  - intros st2 (Hfs2 & k & Hk & Ho2). split; [by auto|]. exists (S k).
    split; [lia|]. by rewrite <- app_assoc in Ho2.
Qed.



Lemma position_free_step st this p xs cap (o : op V) :
  owns st this p xs cap → position_free o →
  wp (run_op T this o) st
    (λ _ st', Invariant st' this ∧ (faults st = [] → faults st' = []))
    (λ st', faults st ≠ [] ∧ Invariant st' this).
Proof.
  intros Ho Hpf.
  assert (∀ (a : Args V),
    wp (EmplaceBack T this a ;;; ret tt) st
      (λ _ st', Invariant st' this ∧ (faults st = [] → faults st' = []))
      (λ st', faults st ≠ [] ∧ Invariant st' this)) as Hback.
  { intros a. apply wp_bind_ret. eapply wp_mono; [by eapply EmplaceBack_spec|..].
    - intros r st' (p' & cap' & Ho' & _ & _ & _ & Hfs). split; [|done].
      by eapply owns_Invariant.
    - intros st' (Hfs & _ & _ & ys & _ & Ho'). split; [done|].
      by eapply owns_Invariant. }
  destruct o; simpl in Hpf |- *; try done; try apply Hback.
  - eapply wp_mono; [by eapply Reserve_spec|..].
    + intros r st' (p' & Ho' & _ & _ & Hfs). split; [|done]. by eapply owns_Invariant.
    + intros st' (Hfs & _ & _ & ys & _ & Ho'). split; [done|].
      by eapply owns_Invariant.
  - eapply wp_mono; [by eapply Resize_spec|..].
    + intros r st' (p' & Ho' & Hfs & _). split; [|done]. by eapply owns_Invariant.
    + intros st' (Hfs & p' & ys & cap' & _ & Ho' & _). split; [done|].
      by eapply owns_Invariant.
  - destruct xs as [|x xs' _] using rev_ind.
    + destruct Ho as (Hv & ?). unfold wp.
      rewrite (PopBack_empty st this _ Hv eq_refl). split; [|done].
      by eapply owns_Invariant.
    + eapply wp_mono; [by eapply PopBack_spec|..]; [|done].
      intros r st' (Ho' & _ & Hfs). split; [by eapply owns_Invariant|].
      by rewrite Hfs.
Qed.

Lemma run_ops_safe F G st this (os : list (op V)) :
  Invariant st this → framed F G this st → Forall position_free os →
  wp (run_ops T this os) st
    (λ _ st', Invariant st' this ∧ framed F G this st' ∧
              (faults st = [] → faults st' = []))
    (λ st', faults st ≠ [] ∧ Invariant st' this ∧ framed F G this st').
Proof.
  intros Hinv Hfr Hos. revert st Hinv Hfr.
  induction Hos as [|o os Ho Hos IH]; intros st (p & xs & cap & Hown) Hfr.
  { apply wp_ret. split; [by eapply owns_Invariant|done]. }
  simpl. apply wp_bind.
  pose proof (wp_wlp_conj _ _ _ _ _ _
    (position_free_step _ _ _ _ _ o Hown Ho) (run_op_framed T F G this o st Hfr)) as H.
  eapply wp_mono; [exact H|..]; simpl.
  - intros _ st1 ((Hinv1 & Hfs1) & Hfr1).
    eapply wp_mono; [by apply IH|..]; simpl.
    + intros _ st2 (? & ? & ?). auto.
    + intros st2 (? & ? & ?). auto.
  - intros st1 ((? & ?) & ?). auto.
Qed.



End properties.

(* ================================================================== *)
(** * The claims on concrete vectors *)

Ltac owns_concrete := repeat split; try (vm_compute; lia); try reflexivity.

(** Evaluates the left-hand side of an equation in the context. *)
Ltac eval_lhs H :=
  match type of H with
  | ?l = _ => let r := eval vm_compute in l in change l with r in H
  end.

(** C1, the claim as stated fails for a move-only element type whose move
    constructor may throw: [Reserve(4)] on the full vector [[1; 2]] moves
    the first element into the new block, the second move throws, and the
    vector is left with a moved-from first element. *)
Lemma C1_counterexample :
  ∃ p st',
    owns st_before_throwing_reserve 0 p [Some 1; Some 2] 2 ∧
    read 0 0 st_before_throwing_reserve = Ok (Some 1) st_before_throwing_reserve ∧
    run_op throwing_move_only 0 (OpReserve 4) st_before_throwing_reserve = Threw st' ∧
    owns st' 0 p [None; Some 2] 2 ∧
    read 0 0 st' = Ok None st' ∧
    ¬ owns st' 0 p [Some 1; Some 2] 2.
Proof.
  eexists (Ptr _ 0), _.
  split; [owns_concrete|]. split; [reflexivity|].
  split; [vm_compute; reflexivity|]. split; [owns_concrete|].
  split; [reflexivity|]. intros (_ & _ & _ & _ & Hb). by eval_lhs Hb.
Qed.

(** C3, the claim as stated fails for move assignment: the source takes
    over the elements of the target, here three elements of value 7. *)
Lemma C3_counterexample :
  ∃ pa pb st',
    owns st_two_ints 0 pa [7; 7; 7] 4 ∧ owns st_two_ints 1 pb [8] 1 ∧
    assign_move 0 1 st_two_ints = Ok 0 st' ∧
    Size 1 st' = Ok 3 st' ∧ owns st' 1 pa [7; 7; 7] 4.
Proof.
  eexists (Ptr _ 0), (Ptr _ 0), _.
  split; [owns_concrete|]. split; [owns_concrete|].
  split; [vm_compute; reflexivity|]. split; [reflexivity|owns_concrete].
Qed.

(** C4, the claim as stated fails for move assignment: the target takes
    over the smaller capacity of the source. *)
Lemma C4_counterexample :
  ∃ st', Capacity 0 st_two_ints = Ok 4 st_two_ints ∧
         assign_move 0 1 st_two_ints = Ok 0 st' ∧
         Capacity 0 st' = Ok 1 st'.
Proof.
  eexists. split; [reflexivity|]. split; [vm_compute; reflexivity|reflexivity].
Qed.

(** C5 on the code: with [std::unique_ptr]-like elements, after three
    appends (capacity 4) inserting at the front of [[1; 2; 3]] leaves
    [[9; 1; 2; null]], and erasing the inserted element leaves
    [[1; 2; null]], not [[1; 2; 3]]. *)
Theorem C5_insert_erase_loses_last :
  ∃ p st1 st2,
    owns st_unique_ptrs 0 p [Some 1; Some 2; Some 3] 4 ∧
    Emplace_at unique_ptr_like 0 0 (Rvalue (Some 9)) st_unique_ptrs = Ok p st1 ∧
    owns st1 0 p [Some 9; Some 1; Some 2; None] 4 ∧
    Erase_at unique_ptr_like 0 0 st1 = Ok p st2 ∧
    owns st2 0 p [Some 1; Some 2; None] 4.
Proof.
  eexists (Ptr _ 0), _, _.
  split; [owns_concrete|]. split; [vm_compute; reflexivity|].
  split; [owns_concrete|]. split; [vm_compute; reflexivity|owns_concrete].
Qed.

(** C8 on the code: after three appends (capacity 4), an insertion at the
    front of [[1; 2; 3]] whose element constructor throws leaves size 3
    with slot 0 destroyed and slot 3 live, and destroying the vector
    afterwards is undefined behaviour. *)
Theorem C8_failed_insert_breaks_invariant :
  ∃ l st',
    owns st_before_throwing_insert 0 (Ptr l 0) [1; 2; 3] 4 ∧
    Emplace_at int_like 0 0 (ConstRef 9) st_before_throwing_insert = Threw st' ∧
    Size 0 st' = Ok 3 st' ∧
    heap st' !! l = Some [None; Some 1; Some 2; Some 3] ∧
    ¬ Invariant st' 0 ∧
    Vector_delete 0 st' = Fault.
Proof.
  eexists _, _.
  split; [owns_concrete|]. split; [vm_compute; reflexivity|].
  split; [reflexivity|]. split; [reflexivity|]. split; [|reflexivity].
  intros (p & xs & cap & Hv & _ & Hp).
  eval_lhs Hv. injection Hv as Hlen <- <-.
  destruct Hp as (_ & _ & Hb). eval_lhs Hb.
  by destruct xs as [|x1 [|x2 [|x3 [|x4 xs]]]].
Qed.

(** The first scenario of the specification ends with [[99; 0; 0]], and
    on the way the contents are [[1; 2; 3]], [[1; 99; 2; 3]], [[99; 2; 3]]
    and [[99]]. *)
Example scenario_result :
  ∃ st', scenario st_init = Ok tt st' ∧ owns st' 0 (Ptr 2 0) [99; 0; 0] 4.
Proof. eexists. split; [vm_compute; reflexivity|owns_concrete]. Qed.

Example scenario_steps :
  ∃ st1 st2 st3 st4,
    (Vector_default 0 ;;; append_all int_like 0 [ConstRef 1; ConstRef 2; ConstRef 3])
      st_init = Ok tt st1 ∧
    owns st1 0 (Ptr 2 0) [1; 2; 3] 4 ∧
    Emplace_at int_like 0 1 (ConstRef 99) st1 = Ok (Ptr 2 1) st2 ∧
    owns st2 0 (Ptr 2 0) [1; 99; 2; 3] 4 ∧
    Erase_at int_like 0 0 st2 = Ok (Ptr 2 0) st3 ∧
    owns st3 0 (Ptr 2 0) [99; 2; 3] 4 ∧
    Resize int_like 0 1 st3 = Ok tt st4 ∧
    owns st4 0 (Ptr 2 0) [99] 4.
Proof.
  do 4 eexists.
  split; [vm_compute; reflexivity|]. split; [owns_concrete|].
  split; [vm_compute; reflexivity|]. split; [owns_concrete|].
  split; [vm_compute; reflexivity|]. split; [owns_concrete|].
  split; [vm_compute; reflexivity|owns_concrete].
Qed.

(** ** Instances of the theorems *)

Lemma C1_witness :
  owns st_full_throwing 0 (Ptr 0 0) [1; 2] 2 ∧
  is_nothrow_move_constructible int_like || is_copy_constructible int_like = true ∧
  all_or_nothing (Ptr 0 0) [1; 2] 2 (OpPushBackCopy 3) ∧
  run_op int_like 0 (OpPushBackCopy 3) st_full_throwing =
    Threw (final_state (run_op int_like 0 (OpPushBackCopy 3) st_full_throwing)
                       st_full_throwing) ∧
  (vecs (final_state (run_op int_like 0 (OpPushBackCopy 3) st_full_throwing)
                     st_full_throwing) = vecs st_full_throwing ∧
   heap (final_state (run_op int_like 0 (OpPushBackCopy 3) st_full_throwing)
                     st_full_throwing) = heap st_full_throwing ∧
   owns (final_state (run_op int_like 0 (OpPushBackCopy 3) st_full_throwing)
                     st_full_throwing) 0 (Ptr 0 0) [1; 2] 2).
Proof.
  assert (owns st_full_throwing 0 (Ptr 0 0) [1; 2] 2) as H1 by owns_concrete.
  assert (is_nothrow_move_constructible int_like || is_copy_constructible int_like = true)
    as H2 by reflexivity.
  assert (all_or_nothing (Ptr 0 0) [1; 2] 2 (OpPushBackCopy 3)) as H3 by exact I.
  assert (run_op int_like 0 (OpPushBackCopy 3) st_full_throwing =
    Threw (final_state (run_op int_like 0 (OpPushBackCopy 3) st_full_throwing)
                       st_full_throwing)) as H4 by (vm_compute; reflexivity).
  exact (conj H1 (conj H2 (conj H3 (conj H4
    (C1_strong_exception_safety int_like _ _ _ _ _ _ _ H1 H2 H3 H4))))).
Defined.

Lemma C3_witness :
  vecs st_one_each !! 1 =
    Some {| size_ := 1; data_ := {| buffer_ := Ptr 1 0; capacity_ := 1 |} |} ∧
  0 ≠ 1 ∧
  (Vector_move 0 1 st_one_each =
     Ok tt (set_vecs (λ vs,
              <[1:={| size_ := 0; data_ := {| buffer_ := Null; capacity_ := 0 |} |}]>
                (<[0:={| size_ := 1; data_ := {| buffer_ := Ptr 1 0; capacity_ := 1 |} |}]>
                   vs)) st_one_each) ∧
   ∀ a, vecs st_one_each !! 0 = Some a →
        assign_move 0 1 st_one_each =
          Ok 0 (set_vecs (λ vs,
                  <[1:=a]>
                    (<[0:={| size_ := 1; data_ := {| buffer_ := Ptr 1 0; capacity_ := 1 |} |}]>
                       vs)) st_one_each)).
Proof.
  assert (vecs st_one_each !! 1 =
    Some {| size_ := 1; data_ := {| buffer_ := Ptr 1 0; capacity_ := 1 |} |})
    as H1 by reflexivity.
  assert (0 ≠ 1) as H2 by lia.
  exact (conj H1 (conj H2 (C3_move_exchanges_storage st_one_each 0 1 _ H1 H2))).
Defined.

Lemma C4_witness :
  owns st_full 0 (Ptr 0 0) [1; 2] 2 ∧
  wlp (run_op int_like 0 (OpPushBackCopy 3)) st_full
    (λ _ st', cap_ge st' 0 2 ∧
              (length [1; 2] = 2 → inserts_at (Ptr 0 0) [1; 2] (OpPushBackCopy 3) →
               Capacity 0 st' = Ok (if decide (2 = 0) then 1 else 2 * 2) st'))
    (λ st', cap_ge st' 0 2).
Proof.
  assert (owns st_full 0 (Ptr 0 0) [1; 2] 2) as H1 by owns_concrete.
  exact (conj H1 (C4_capacity_growth int_like _ _ _ _ _ (OpPushBackCopy 3) H1)).
Defined.

Lemma C6_witness :
  owns st_three 0 (Ptr 0 0) [1; 2; 3] 4 ∧ 1 < length [1; 2; 3] ∧
  wp (Erase int_like 0 (ptr_add (Ptr 0 0) 1)) st_three
    (λ r st', owns st' 0 (Ptr 0 0) (delete 1 [1; 2; 3]) 4 ∧
              length (delete 1 [1; 2; 3]) = length [1; 2; 3] - 1 ∧
              r = ptr_add (Ptr 0 0) 1 ∧ allocs st' = allocs st_three)
    (λ st', faults st_three ≠ [] ∧ is_nothrow_move_assignable int_like = false ∧
            ∃ ys, length ys = length [1; 2; 3] ∧ owns st' 0 (Ptr 0 0) ys 4).
Proof.
  assert (owns st_three 0 (Ptr 0 0) [1; 2; 3] 4) as H1 by owns_concrete.
  assert (1 < length [1; 2; 3]) as H2 by (simpl; lia).
  exact (conj H1 (conj H2 (C6_erase int_like _ _ _ _ _ _ H1 H2))).
Defined.

Lemma C7_witness :
  0 ≠ 1 ∧
  owns st_three_and_five 0 (Ptr 0 0) [1; 1; 1] 3 ∧
  owns st_three_and_five 1 (Ptr 1 0) [2; 2; 2; 2; 2] 5 ∧
  (Ptr 0 0 = Null ∨ Ptr 0 0 ≠ Ptr 1 0) ∧
  wp (assign_copy 0 1) st_three_and_five
    (λ r st', r = 0 ∧ ∃ pa' ca',
       owns st' 0 pa' [2; 2; 2; 2; 2] ca' ∧ owns st' 1 (Ptr 1 0) [2; 2; 2; 2; 2] 5 ∧
       (length [2; 2; 2; 2; 2] ≤ 3 →
        pa' = Ptr 0 0 ∧ ca' = 3 ∧ allocs st' = allocs st_three_and_five) ∧
       (3 < length [2; 2; 2; 2; 2] →
        ca' = length [2; 2; 2; 2; 2] ∧ allocs st' = S (allocs st_three_and_five)))
    (λ st', faults st_three_and_five ≠ [] ∧
       owns st' 1 (Ptr 1 0) [2; 2; 2; 2; 2] 5 ∧
       (3 < length [2; 2; 2; 2; 2] →
        vecs st' = vecs st_three_and_five ∧ heap st' = heap st_three_and_five)).
Proof.
  assert (0 ≠ 1) as H1 by lia.
  assert (owns st_three_and_five 0 (Ptr 0 0) [1; 1; 1] 3) as H2 by owns_concrete.
  assert (owns st_three_and_five 1 (Ptr 1 0) [2; 2; 2; 2; 2] 5) as H3 by owns_concrete.
  assert (Ptr 0 0 = Null ∨ Ptr 0 0 ≠ Ptr 1 0) as H4 by (right; discriminate).
  exact (conj H1 (conj H2 (conj H3 (conj H4
    (C7_copy_assign _ _ _ _ _ _ _ _ _ H1 H2 H3 H4))))).
Defined.

Lemma C9_witness :
  vecs st_empty !! 0 =
    Some {| size_ := 0; data_ := {| buffer_ := Ptr 0 0; capacity_ := 2 |} |} ∧
  size_ {| size_ := 0; data_ := {| buffer_ := Ptr 0 0; capacity_ := 2 |} |} = 0 ∧
  PopBack 0 st_empty = Ok tt st_empty.
Proof.
  assert (vecs st_empty !! 0 =
    Some {| size_ := 0; data_ := {| buffer_ := Ptr 0 0; capacity_ := 2 |} |})
    as H1 by reflexivity.
  assert (size_ {| size_ := 0; data_ := {| buffer_ := Ptr 0 0; capacity_ := 2 |} |} = 0)
    as H2 by reflexivity.
  exact (conj H1 (conj H2 (C9_pop_back_empty st_empty 0 _ H1 H2))).
Defined.

(** ** Instances of the further properties *)

Lemma X2_witness :
  owns st_three 0 (Ptr 0 0) [1; 2; 3] 4 ∧
  1 ≠ 0 ∧
  (wp (Vector_copy 1 0) st_three
     (λ (_ : ()) (st' : State),
        ∃ p : ptr,
          owns st' 1 p [1; 2; 3] (length [1; 2; 3])
          ∧ owns st' 0 (Ptr 0 0) [1; 2; 3] 4
            ∧ (p = Null ∨ p ≠ Ptr 0 0)
              ∧ (∀ k : nat, k ≠ 1 → vecs st' !! k = vecs st_three !! k)
                ∧ release p (heap st') = heap st_three
                  ∧ allocs st' =
                    (if decide ([1; 2; 3] = []) is left _
                     then allocs st_three
                     else S (allocs st_three)))
     (λ st' : State,
        faults st_three ≠ []
        ∧ vecs st' = vecs st_three ∧ heap st' = heap st_three)).
Proof.
  assert (owns st_three 0 (Ptr 0 0) [1; 2; 3] 4) as H1 by owns_concrete.
  assert (1 ≠ 0) as H2 by lia.
  exact (conj H1 (conj H2
    (X2_Vector_copy st_three 1 0 _ _ _ H1 H2))).
Defined.

Lemma X3_witness :
  owns st_three 0 (Ptr 0 0) [1; 2; 3] 4 ∧
  (Vector_delete 0 st_three =
   Ok ()
     {|
       vecs := delete 0 (vecs st_three);
       heap := release (Ptr 0 0) (heap st_three);
       faults := faults st_three;
       allocs := allocs st_three
     |}).
Proof.
  assert (owns st_three 0 (Ptr 0 0) [1; 2; 3] 4) as H1 by owns_concrete.
  exact (conj H1
    (X3_Vector_delete st_three 0 _ _ _ H1)).
Defined.



Lemma X6_witness :
  owns st_three 0 (Ptr 0 0) [1; 2; 3] 4 ∧
  (wp (EmplaceBack int_like 0 (ConstRef 4)) st_three
     (λ (r : ptr) (st' : State),
        ∃ (p' : ptr) (cap' : nat),
          owns st' 0 p' ([1; 2; 3] ++ [args_value (ConstRef 4)]) cap'
          ∧ r = ptr_add p' (length [1; 2; 3])
            ∧ load r st' = Ok (args_value (ConstRef 4)) st'
              ∧ (length [1; 2; 3] < 4
                 → p' = Ptr 0 0 ∧ cap' = 4 ∧ allocs st' = allocs st_three)
                ∧ (length [1; 2; 3] = 4 → allocs st' = S (allocs st_three)))
     (λ st' : State,
        faults st_three ≠ []
        ∧ vecs st' = vecs st_three
          ∧ (length [1; 2; 3] < 4 → heap st' = heap st_three))).
Proof.
  assert (owns st_three 0 (Ptr 0 0) [1; 2; 3] 4) as H1 by owns_concrete.
  exact (conj H1
    (X6_EmplaceBack int_like st_three 0 _ _ _ (ConstRef 4) H1)).
Defined.

Lemma X7_witness :
  owns st_three 0 (Ptr 0 0) ([1; 2] ++ [3]) 4 ∧
  (wp (PopBack 0) st_three
     (λ (_ : ()) (st' : State),
        owns st' 0 (Ptr 0 0) [1; 2] 4
        ∧ allocs st' = allocs st_three ∧ faults st' = faults st_three)
     (λ _ : State, False)).
Proof.
  assert (owns st_three 0 (Ptr 0 0) ([1; 2] ++ [3]) 4) as H1 by owns_concrete.
  exact (conj H1
    (X7_PopBack st_three 0 _ _ _ _ H1)).
Defined.

Lemma X8_witness :
  owns st_full 0 (Ptr 0 0) [1; 2] 2 ∧
  length [1; 2] = 2 ∧
  1 ≤ length [1; 2] ∧
  (wp (Emplace int_like 0 (ptr_add (Ptr 0 0) 1) (ConstRef 9)) st_full
     (λ (r : ptr) (st' : State),
        ∃ p' : ptr,
          owns st' 0 p'
            (take 1 [1; 2] ++ args_value (ConstRef 9) :: drop 1 [1; 2])
            (if decide (2 = 0) is left _ then 1 else 2 * 2)
          ∧ r = ptr_add p' 1
            ∧ load r st' = Ok (args_value (ConstRef 9)) st'
              ∧ allocs st' = S (allocs st_full))
     (λ st' : State,
        faults st_full ≠ []
        ∧ vecs st' = vecs st_full
          ∧ (is_nothrow_move_constructible int_like
             || is_copy_constructible int_like = true →
             heap st' = heap st_full)
            ∧ ∃ ys : list nat,
                length ys = length [1; 2] ∧ owns st' 0 (Ptr 0 0) ys 2)).
Proof.
  assert (owns st_full 0 (Ptr 0 0) [1; 2] 2) as H1 by owns_concrete.
  assert (length [1; 2] = 2) as H2 by reflexivity.
  assert (1 ≤ length [1; 2]) as H3 by (simpl; lia).
  exact (conj H1 (conj H2 (conj H3
    (X8_Emplace_full int_like st_full 0 _ _ _ 1 (ConstRef 9) H1 H2 H3)))).
Defined.





Lemma X13_witness :
  owns st_three 0 (Ptr 0 0) [1; 2; 3] 4 ∧
  (read 0 1 st_three =
   match [1; 2; 3] !! 1 with
   | Some x => Ok x st_three
   | None => Fault
   end).
Proof.
  assert (owns st_three 0 (Ptr 0 0) [1; 2; 3] 4) as H1 by owns_concrete.
  exact (conj H1
    (X13_operator_index st_three 0 _ _ _ 1 H1)).
Defined.

Lemma X14_witness :
  owns st_three_and_five 0 (Ptr 0 0) [1; 1; 1] 3 ∧
  owns st_three_and_five 1 (Ptr 1 0) [2; 2; 2; 2; 2] 5 ∧
  ((∃ st' : State,
      Swap 0 1 st_three_and_five = Ok () st'
      ∧ owns st' 0 (Ptr 1 0) [2; 2; 2; 2; 2] 5
        ∧ owns st' 1 (Ptr 0 0) [1; 1; 1] 3
          ∧ heap st' = heap st_three_and_five
            ∧ faults st' = faults st_three_and_five
              ∧ allocs st' = allocs st_three_and_five)
   ∧ (Swap 0 1;;; Swap 0 1) st_three_and_five = Ok () st_three_and_five).
Proof.
  assert (owns st_three_and_five 0 (Ptr 0 0) [1; 1; 1] 3) as H1 by owns_concrete.
  assert (owns st_three_and_five 1 (Ptr 1 0) [2; 2; 2; 2; 2] 5) as H2 by owns_concrete.
  exact (conj H1 (conj H2
    (X14_Swap st_three_and_five 0 1 _ _ _ _ _ _ H1 H2))).
Defined.

Lemma X15_witness :
  owns st_three 0 (Ptr 0 0) [1; 2; 3] 4 ∧
  length [1; 2; 3] ≤ 3 ∧
  (Erase int_like 0 (Ptr 0 3) st_three = Fault).
Proof.
  assert (owns st_three 0 (Ptr 0 0) [1; 2; 3] 4) as H1 by owns_concrete.
  assert (length [1; 2; 3] ≤ 3) as H2 by (simpl; lia).
  exact (conj H1 (conj H2
    (X15_Erase_out_of_range int_like st_three 0 0 _ _ 3 H1 H2))).
Defined.

Lemma X16_witness :
  owns st_three 0 (Ptr 0 0) [1; 2; 3] 4 ∧
  (iterate 0 st_three = Ok [1; 2; 3] st_three).
Proof.
  assert (owns st_three 0 (Ptr 0 0) [1; 2; 3] 4) as H1 by owns_concrete.
  exact (conj H1
    (X16_iterate st_three 0 _ _ _ H1)).
Defined.

Lemma X17_witness :
  buffer_ {| buffer_ := Ptr 0 0; capacity_ := 4 |} ≠ Null ∧
  ((RawMemory_delete
      (RawMemory_move {| buffer_ := Ptr 0 0; capacity_ := 4 |}).1;;;
    RawMemory_delete
      (RawMemory_move {| buffer_ := Ptr 0 0; capacity_ := 4 |}).2)
     st_three =
   Fault
   ∧ (RawMemory_delete
        (RawMemory_assign_move {| buffer_ := Null; capacity_ := 0 |}
           {| buffer_ := Ptr 0 0; capacity_ := 4 |}).1;;;
      RawMemory_delete
        (RawMemory_assign_move {| buffer_ := Null; capacity_ := 0 |}
           {| buffer_ := Ptr 0 0; capacity_ := 4 |}).2)
       st_three =
     Fault).
Proof.
  assert (buffer_ {| buffer_ := Ptr 0 0; capacity_ := 4 |} ≠ Null) as H1
    by (simpl; discriminate).
  exact (conj H1
    (X17_RawMemory_move {| buffer_ := Ptr 0 0; capacity_ := 4 |}
      {| buffer_ := Null; capacity_ := 0 |} st_three H1)).
Defined.

Lemma X20_witness :
  owns st_three 0 (Ptr 0 0) [1; 2; 3] 4 ∧
  length [1; 2; 3] + length [ConstRef 4] ≤ 4 ∧
  (wp (append_all int_like 0 [ConstRef 4]) st_three
     (λ (_ : ()) (st' : State),
        owns st' 0 (Ptr 0 0) ([1; 2; 3] ++ (args_value <$> [ConstRef 4])) 4
        ∧ allocs st' = allocs st_three)
     (λ st' : State,
        faults st_three ≠ []
        ∧ ∃ k : nat,
            k < length [ConstRef 4]
            ∧ owns st' 0 (Ptr 0 0)
                ([1; 2; 3] ++ take k (args_value <$> [ConstRef 4])) 4)).
Proof.
  assert (owns st_three 0 (Ptr 0 0) [1; 2; 3] 4) as H1 by owns_concrete.
  assert (length [1; 2; 3] + length [ConstRef 4] ≤ 4) as H2 by (simpl; lia).
  exact (conj H1 (conj H2
    (X20_appends_within_capacity int_like st_three 0 _ _ _ [ConstRef 4] H1 H2))).
Defined.




